(** * Virus genealogy: a shallow embedding of [virus_genealogy.h]

    The class template [VirusGenealogy<Virus>] keeps a rooted multi-parent
    graph in a [std::map] from identifiers to nodes.  Every node owns a
    shared handle to its [Virus] object, the [std::set] of the identifiers of
    its parents and the [std::set] of the handles of its children.

    The embedding follows the header member by member.  Exceptions are an
    explicit outcome, the recursion of [remove] is driven by fuel, and the
    places where the C++ code dereferences an iterator that is no longer valid
    are an outcome of their own. *)

From Stdlib Require Import String.
From stdpp Require Import gmap strings list fin_maps sorting relations.

Set Warnings "-clear-no-such-hyp".

(** ** Exceptions *)

(** The three exception classes of the header, and [std::bad_alloc] for a
    container insertion that runs out of memory. *)
Inductive exn :=
  | VirusNotFound
  | VirusAlreadyCreated
  | TriedToRemoveStemVirus
  | bad_alloc.

#[global] Instance exn_eq_dec : EqDecision exn.
Proof. solve_decision. Defined.

(** Where an insertion inside the [try] block of [create] may fail: the
    insertion into the child set of the [i]-th parent, the [push_back] that
    records the [i]-th edge, or the final insertion into the table. *)
Inductive fault :=
  | NoFault
  | ChildInsertFails (i : nat)
  | EdgePushFails (i : nat)
  | TableInsertFails.

#[global] Instance fault_eq_dec : EqDecision fault.
Proof. solve_decision. Defined.

Section genealogy.
(** [Virus::id_type]: any type with equality that can key a map; [id_le] is
    its [operator<] order, which fixes the iteration order of a
    [std::set<id_type>]. *)
Context `{Countable K}.
Variable id_le : relation K.
Context `{!RelDecision id_le}.

(** A [std::shared_ptr<Virus>]: the address of the object and the
    identifier the object was built from ([get_id]).  A
    [std::set<std::shared_ptr<Virus>>] is ordered by address. *)
Definition handle : Type := positive * K.
Definition get_id (h : handle) : K := h.2.
Definition addr_le : relation handle := λ h1 h2, (h1.1 ≤ h2.1)%positive.

#[global] Instance addr_le_dec : RelDecision addr_le.
Proof. intros h1 h2. unfold addr_le. apply _. Defined.

(** [class Node] *)
Record Node := mkNode {
  virus : handle;
  parent_ids : gset K;
  children_virus_ptrs : gset handle
}.

#[global] Instance Node_eq_dec : EqDecision Node.
Proof. solve_decision. Defined.

(** [explicit Node(id)]: [make_shared<Virus>(id)] at address [a]. *)
Definition new_Node (a : positive) (virus_id : K) : Node :=
  mkNode (a, virus_id) ∅ ∅.

(** The four mutations of a node the header performs. *)
Definition insert_parent (p : K) (n : Node) : Node :=
  mkNode (virus n) ({[p]} ∪ parent_ids n) (children_virus_ptrs n).
Definition erase_parent (p : K) (n : Node) : Node :=
  mkNode (virus n) (parent_ids n ∖ {[p]}) (children_virus_ptrs n).
Definition insert_child (h : handle) (n : Node) : Node :=
  mkNode (virus n) (parent_ids n) ({[h]} ∪ children_virus_ptrs n).
Definition erase_child (h : handle) (n : Node) : Node :=
  mkNode (virus n) (parent_ids n) (children_virus_ptrs n ∖ {[h]}).

(** In-order traversal of the two kinds of [std::set]. *)
Definition ids_in_order (X : gset K) : list K :=
  merge_sort id_le (elements X).
Definition handles_in_order (X : gset handle) : list handle :=
  merge_sort addr_le (elements X).

(** The result of a member function that mutates the table [graph]: the
    call returns; it throws, with the table as the exception leaves it; it
    uses an iterator that no longer points into its container; or, for
    [remove], the recursion is deeper than the fuel. *)
Inductive outcome :=
  | Done (g : gmap K Node)
  | Raised (e : exn) (g : gmap K Node)
  | Undefined
  | OutOfFuel.

(** [const stem_id] *)
Variable stem_id : K.

(** [VirusGenealogy(stem_id)] *)
Definition genealogy (a : positive) : gmap K Node :=
  {[ stem_id := new_Node a stem_id ]}.

Definition get_stem_id : K := stem_id.

(** [exists] *)
Definition exists_ (g : gmap K Node) (id : K) : bool :=
  bool_decide (is_Some (g !! id)).

(** [get_parents] *)
Definition get_parents (g : gmap K Node) (id : K) : exn + list K :=
  match g !! id with
  | None => inl VirusNotFound
  | Some n => inr (ids_in_order (parent_ids n))
  end.

(** [get_children_begin] .. [get_children_end], dereferenced: the
    identifiers of the children in the order of the traversal. *)
Definition get_children (g : gmap K Node) (id : K) : exn + list K :=
  match g !! id with
  | None => inl VirusNotFound
  | Some n => inr (get_id <$> handles_in_order (children_virus_ptrs n))
  end.

(** *** create *)

(** First loop of [create]: look every parent up; [None] stands for the
    [throw VirusNotFound()].  The result is [parents_its]. *)
Fixpoint find_parents (g : gmap K Node) (parent_ids : list K)
    : option (list K) :=
  match parent_ids with
  | [] => Some []
  | parent_id :: rest =>
      match g !! parent_id with
      | None => None
      | Some _ => (parent_id ::.) <$> find_parents g rest
      end
  end.

(** The loop inside [try]: insert [h] into the child set of every parent
    and record the edge.  Returns the table, [edges_to_parents.size()] and
    whether an exception left the loop. *)
Fixpoint link_parents (flt : fault) (h : handle) (i : nat)
    (parents_its : list K) (g : gmap K Node) : gmap K Node * nat * bool :=
  match parents_its with
  | [] => (g, i, false)
  | parent_it :: rest =>
      if decide (flt = ChildInsertFails i) then (g, i, true)
      else
        let g1 := alter (insert_child h) parent_it g in
        if decide (flt = EdgePushFails i) then (g1, i, true)
        else link_parents flt h (S i) rest g1
  end.

(** The loop of the [catch] block: erase through the recorded iterators.
    An iterator whose element is gone is no longer valid ([None]). *)
Fixpoint unlink_parents (h : handle) (edges : nat) (parents_its : list K)
    (g : gmap K Node) : option (gmap K Node) :=
  match edges, parents_its with
  | S edges', parent_it :: rest =>
      match g !! parent_it with
      | Some pn =>
          if decide (h ∈ children_virus_ptrs pn)
          then unlink_parents h edges' rest (<[parent_it := erase_child h pn]> g)
          else None
      | None => None
      end
  | _, _ => Some g
  end.

Definition create_rollback (h : handle) (edges : nat) (parents_its : list K)
    (g : gmap K Node) : outcome :=
  match unlink_parents h edges parents_its g with
  | Some g' => Raised bad_alloc g'
  | None => Undefined
  end.

(** [create(id, parent_ids)]; [a] is the address [make_shared] returns.
    What is allocated before the [try] block leaves the table untouched if
    it fails, and has no failure of its own here. *)
Definition create (a : positive) (flt : fault) (id : K)
    (parent_ids : list K) (g : gmap K Node) : outcome :=
  match parent_ids with
  | [] => Done g
  | _ :: _ =>
      match g !! id with
      | Some _ => Raised VirusAlreadyCreated g
      | None =>
          match find_parents g parent_ids with
          | None => Raised VirusNotFound g
          | Some parents_its =>
              let new_node :=
                foldl (λ n p, insert_parent p n) (new_Node a id) parent_ids in
              match link_parents flt (virus new_node) 0 parents_its g with
              | (g1, edges, true) =>
                  create_rollback (virus new_node) edges parents_its g1
              | (g1, edges, false) =>
                  if decide (flt = TableInsertFails)
                  then create_rollback (virus new_node) edges parents_its g1
                  else Done (<[id := new_node]> g1)
              end
          end
      end
  end.

(** [create(id, parent_id)] *)
Definition create1 (a : positive) (flt : fault) (id parent_id : K)
    (g : gmap K Node) : outcome :=
  create a flt id [parent_id] g.

(** *** connect *)

(** [connect(child_id, parent_id)]; [flt] tells whether the insertion into
    the child set of the parent, the one inside [try], throws. *)
Definition connect (flt : bool) (child_id parent_id : K)
    (g : gmap K Node) : outcome :=
  match g !! child_id, g !! parent_id with
  | Some cn, Some _ =>
      if decide (parent_id ∈ parent_ids cn) then Done g
      else
        let g1 := <[child_id := insert_parent parent_id cn]> g in
        if flt then Raised bad_alloc (alter (erase_parent parent_id) child_id g1)
        else Done (alter (insert_child (virus cn)) parent_id g1)
  | _, _ => Raised VirusNotFound g
  end.

(** *** remove *)

(** The places where a call of [remove] may fail.  [ParentPush id]: the
    loop that records the iterators of the parents of [id], which copies
    every parent identifier and appends to a vector.  [GetId child]: the call
    [child->get_id()] into the template argument [Virus], which returns an
    [id_type] by value.  [Reinsert id child]: the [insert] of the [catch]
    block, which puts [id] back among the parents of [child]. *)
Inductive remove_point :=
  | ParentPush (id : K)
  | GetId (child : handle)
  | Reinsert (id child : K).

#[global] Instance remove_point_eq_dec : EqDecision remove_point.
Proof. solve_decision. Defined.

(** The loop over the children of the node [id].  [rm] is the recursive
    call, and [throws] tells at which places the call fails.  The iterators
    [it] (the node itself) and [child_node] must still point into the table
    when they are used.  An exception that leaves the [catch] block while it
    handles another one takes its place.  The loop runs over the child set
    as it is when the call starts: a child set is only changed by the last
    loop of a call on a node with parents, and the recursive calls are made
    on nodes without parents. *)
Fixpoint remove_children (throws : remove_point → bool)
    (rm : gmap K Node → K → outcome) (id : K)
    (children : list handle) (g : gmap K Node) : outcome :=
  match children with
  | [] => Done g
  | child :: rest =>
      match g !! id with
      | None => Undefined
      | Some _ =>
          if throws (GetId child) then Raised bad_alloc g
          else
            match g !! get_id child with
            | None => Undefined
            | Some cn =>
                let cn' := erase_parent id cn in
                let g1 := <[get_id child := cn']> g in
                if decide (parent_ids cn' = ∅) then
                  match rm g1 (get_id child) with
                  | Done g2 => remove_children throws rm id rest g2
                  | Raised e g2 =>
                      match g2 !! get_id child with
                      | Some cn2 =>
                          if throws (Reinsert id (get_id child))
                          then Raised bad_alloc g2
                          else
                            Raised e
                              (<[get_id child := insert_parent id cn2]> g2)
                      | None => Undefined
                      end
                  | Undefined => Undefined
                  | OutOfFuel => OutOfFuel
                  end
                else remove_children throws rm id rest g1
            end
      end
  end.

(** The last loop: erase the handle from the child set of every recorded
    parent iterator. *)
Fixpoint erase_from_parents (h : handle) (parent_its : list K)
    (g : gmap K Node) : option (gmap K Node) :=
  match parent_its with
  | [] => Some g
  | parent_it :: rest =>
      match g !! parent_it with
      | Some pn => erase_from_parents h rest (<[parent_it := erase_child h pn]> g)
      | None => None
      end
  end.

(** [remove(id)].  The loop that records the parent iterators runs, and
    may fail, when the node has a parent; the table is as it was then. *)
Fixpoint remove (throws : remove_point → bool) (fuel : nat)
    (g : gmap K Node) (id : K) : outcome :=
  match fuel with
  | 0 => OutOfFuel
  | S fuel' =>
      if decide (id = stem_id) then Raised TriedToRemoveStemVirus g
      else
        match g !! id with
        | None => Raised VirusNotFound g
        | Some n =>
            if bool_decide (parent_ids n ≠ ∅) && throws (ParentPush id)
            then Raised bad_alloc g
            else
            let parent_its := ids_in_order (parent_ids n) in
            match remove_children throws (remove throws fuel') id
                    (handles_in_order (children_virus_ptrs n)) g with
            | Done g1 =>
                match g1 !! id with
                | Some n1 =>
                    match erase_from_parents (virus n1) parent_its g1 with
                    | Some g2 => Done (delete id g2)
                    | None => Undefined
                    end
                | None => Undefined
                end
            | o => o
            end
        end
  end.

Definition no_throw : remove_point → bool := λ _, false.

End genealogy.

Arguments handle K : clear implicits.
Arguments remove_point K : clear implicits.
Arguments ParentPush {K} id.
Arguments GetId {K} child.
Arguments Reinsert {K} id child.
Arguments Node K {_ _}.
Arguments outcome K {_ _}.
Arguments Done {K _ _} g.
Arguments Raised {K _ _} e g.
Arguments Undefined {K _ _}.
Arguments OutOfFuel {K _ _}.

#[global] Instance outcome_eq_dec `{Countable K} : EqDecision (outcome K).
Proof. solve_decision. Defined.

(** ** The invariants of the data model *)

Section invariants.
Context `{Countable K}.
Variable stem_id : K.

Implicit Types (g : gmap K (Node K)) (n : Node K) (h : handle K).

(** [p] is in the table and lists [h] among its children. *)
Definition has_child g (p : K) h : Prop :=
  ∃ pn, g !! p = Some pn ∧ h ∈ children_virus_ptrs pn.

(** The node of the object behind [h] is in the table, under the
    identifier of the object, and lists [p] among its parents. *)
Definition has_parent g h (p : K) : Prop :=
  ∃ n, g !! get_id h = Some n ∧ virus n = h ∧ p ∈ parent_ids n.

#[global] Instance has_child_dec g p h : Decision (has_child g p h).
Proof.
  unfold has_child. destruct (g !! p) as [pn|].
  - destruct (decide (h ∈ children_virus_ptrs pn)) as [Hin|Hout].
    + left. exists pn. split; [reflexivity | exact Hin].
    + right. intros (pn' & Heq & Hin). injection Heq as <-. exact (Hout Hin).
  - right. intros (pn' & Heq & _). discriminate Heq.
Defined.

#[global] Instance has_parent_dec g h p : Decision (has_parent g h p).
Proof.
  unfold has_parent. destruct (g !! get_id h) as [n|].
  - destruct (decide (virus n = h ∧ p ∈ parent_ids n)) as [Hin|Hout].
    + left. exists n. split; [reflexivity | exact Hin].
    + right. intros (n' & Heq & Hin). injection Heq as <-. exact (Hout Hin).
  - right. intros (n' & Heq & _). discriminate Heq.
Defined.

(** I1, edge symmetry: every parent of a node is in the table and has the
    handle of the node in its child set. *)
Definition I1 g : Prop :=
  map_Forall (λ _ n, set_Forall (λ p, has_child g p (virus n)) (parent_ids n)) g.

(** I2: the root is in the table and has no parents. *)
Definition I2 g : Prop :=
  ∃ r, g !! stem_id = Some r ∧ parent_ids r = ∅.

(** I3: every node other than the root has a parent. *)
Definition I3 g : Prop :=
  map_Forall (λ k n, k ≠ stem_id → parent_ids n ≠ ∅) g.

(** I4: the entry under [k] is the node of the object of identifier [k],
    so that no two entries of the table carry one identifier. *)
Definition I4 g : Prop :=
  map_Forall (λ k n, get_id (virus n) = k) g.

Definition I1_4 g : Prop := I1 g ∧ I2 g ∧ I3 g ∧ I4 g.

(** The converse of I1: every handle in a child set belongs to a node of
    the table that lists the owner of the set as a parent. *)
Definition children_mirror g : Prop :=
  map_Forall (λ p pn, set_Forall (λ h, has_parent g h p) (children_virus_ptrs pn)) g.

#[global] Instance I2_dec g : Decision (I2 g).
Proof.
  unfold I2. destruct (g !! stem_id) as [r|].
  - destruct (decide (parent_ids r = ∅)) as [Hin|Hout].
    + left. exists r. split; [reflexivity | exact Hin].
    + right. intros (r' & Heq & Hin). injection Heq as <-. exact (Hout Hin).
  - right. intros (r' & Heq & _). discriminate Heq.
Defined.

#[global] Instance I1_4_dec g : Decision (I1_4 g).
Proof. unfold I1_4, I1, I3, I4. apply _. Defined.

(** The representation invariant of the class, apart from I5. *)
Definition consistent g : Prop := I1_4 g ∧ children_mirror g.

#[global] Instance consistent_dec g : Decision (consistent g).
Proof. unfold consistent, I1_4, I1, I3, I4, children_mirror. apply _. Defined.

(** The edges of the graph, as the child sets and as the parent sets record
    them. *)
Definition child_edge g (p c : K) : Prop :=
  ∃ h, has_child g p h ∧ get_id h = c.
Definition parent_edge g (p c : K) : Prop :=
  ∃ n, g !! c = Some n ∧ p ∈ parent_ids n.
Definition edge g : relation K := λ p c, child_edge g p c ∨ parent_edge g p c.

(** I5 *)
Definition acyclic g : Prop := ∀ x, ¬ tc (edge g) x x.

(** A numbering of the identifiers that grows along every edge. *)
Definition ranked (rk : K → nat) g : Prop :=
  map_Forall (λ k n,
    set_Forall (λ h, rk k < rk (get_id h)) (children_virus_ptrs n) ∧
    set_Forall (λ p, rk p < rk k) (parent_ids n)) g.

(** The edges that remain when the node [id] is taken out. *)
Definition edge_without g (id : K) : relation K :=
  λ p c, edge g p c ∧ p ≠ id ∧ c ≠ id.

(** [x] keeps a path from the root that avoids [id]. *)
Definition survives g (id x : K) : Prop := rtc (edge_without g id) stem_id x.

(** What [remove(id)] does to a graph: it returns, and the nodes that are
    left are those that keep a path from the root; each has the parents and
    the children that are left, and the invariants hold again. *)
Definition removes_unreachable (id_le : relation K) `{!RelDecision id_le}
    g (id : K) : Prop :=
  ∃ fuel g',
    (∀ f, fuel ≤ f → remove id_le stem_id no_throw f g id = Done g') ∧
    g' !! id = None ∧
    (∀ x, is_Some (g' !! x) ↔ is_Some (g !! x) ∧ survives g id x) ∧
    (∀ x n', g' !! x = Some n' →
       ∃ n, g !! x = Some n ∧ virus n' = virus n ∧
         (∀ p, p ∈ parent_ids n' ↔ p ∈ parent_ids n ∧ is_Some (g' !! p)) ∧
         (∀ h, h ∈ children_virus_ptrs n' ↔
               h ∈ children_virus_ptrs n ∧ is_Some (g' !! get_id h))) ∧
    consistent g' ∧ acyclic g'.

(** No object in use lives at address [a]. *)
Definition fresh (a : positive) g : Prop :=
  map_Forall (λ _ n,
    (virus n).1 ≠ a ∧ set_Forall (λ h, h.1 ≠ a) (children_virus_ptrs n)) g.

(** The root is never listed as a child. *)
Definition root_not_child g : Prop :=
  map_Forall (λ _ n, set_Forall (λ h, get_id h ≠ stem_id) (children_virus_ptrs n)) g.

(** What keeps the root out of reach of every mutation: it has no parent,
    it is no child, and every node sits under its own identifier. *)
Definition root_kept g : Prop := I4 g ∧ I2 g ∧ root_not_child g.

(** What a run of [remove] may have changed: nodes are only taken away,
    and the sets of the nodes that stay only shrink. *)
Definition shrinks g g' : Prop :=
  ∀ x n', g' !! x = Some n' →
    ∃ n, g !! x = Some n ∧ virus n' = virus n ∧
         parent_ids n' ⊆ parent_ids n ∧
         children_virus_ptrs n' ⊆ children_virus_ptrs n.

(** The tables [g] and [g'] have the same nodes, which differ at most in
    whether their child sets hold [h]. *)
Definition differ_by_child h g g' : Prop :=
  ∀ x, match g !! x, g' !! x with
       | Some n, Some n' =>
           virus n' = virus n ∧ parent_ids n' = parent_ids n ∧
           children_virus_ptrs n ∖ {[h]} ⊆ children_virus_ptrs n' ∧
           children_virus_ptrs n' ⊆ {[h]} ∪ children_virus_ptrs n
       | None, None => True
       | _, _ => False
       end.

(** A property of the table that holds in whatever state a call leaves. *)
Definition holds_after (Q : gmap K (Node K) → Prop) (o : outcome K) : Prop :=
  match o with Done g' | Raised _ g' => Q g' | _ => True end.

(** The states an object goes through: any sequence of calls, each
    returning or raising, with any choice of the places where it fails.
    [may_be_child] restricts the first argument of the [connect] calls. *)
Inductive lifetime (id_le : relation K) `{!RelDecision id_le}
    (may_be_child : K → Prop) : gmap K (Node K) → Prop :=
  | lifetime_new a :
      lifetime id_le may_be_child (genealogy stem_id a)
  | lifetime_create g a flt id parent_ids o g' :
      lifetime id_le may_be_child g →
      create a flt id parent_ids g = o →
      (o = Done g' ∨ ∃ e, o = Raised e g') →
      lifetime id_le may_be_child g'
  | lifetime_connect g flt child_id parent_id o g' :
      lifetime id_le may_be_child g →
      may_be_child child_id →
      connect flt child_id parent_id g = o →
      (o = Done g' ∨ ∃ e, o = Raised e g') →
      lifetime id_le may_be_child g'
  | lifetime_remove g throws fuel id o g' :
      lifetime id_le may_be_child g →
      remove id_le stem_id throws fuel g id = o →
      (o = Done g' ∨ ∃ e, o = Raised e g') →
      lifetime id_le may_be_child g'.

End invariants.

(** ** The states inside a cascade *)

Section cascade_states.
Context `{Countable K}.
Variable stem_id : K.

Implicit Types (g : gmap K (Node K)) (n : Node K) (h c : handle K) (T : gset K).

(** I1 to I4, where the nodes of [T], whose removal is under way, may be
    without a parent. *)
Record weak T g : Prop := {
  wk_key : I4 g;
  wk_fwd : I1 g;
  wk_stem : I2 stem_id g;
  wk_orph : ∀ k n, g !! k = Some n → k ≠ stem_id → k ∉ T → parent_ids n ≠ ∅
}.

(** The child sets mirror the parent sets, except those of the nodes of
    [T], which keep the handles of the children already dealt with. *)
Definition mirror_outside T g : Prop :=
  ∀ p pn h, g !! p = Some pn → p ∉ T → h ∈ children_virus_ptrs pn →
    has_parent g h p.

(** Every child edge of the table is an edge of [R]. *)
Definition sub_edges (R : relation K) g : Prop :=
  ∀ p pn h, g !! p = Some pn → h ∈ children_virus_ptrs pn → R p (get_id h).

(** A node that had a parent which is still in the table is still in the
    table, with that parent. *)
Definition keeps (P : K → K → Prop) g g' : Prop :=
  ∀ x nx p, g !! x = Some nx → p ∈ parent_ids nx → is_Some (g' !! p) →
    P x p → ∃ nx', g' !! x = Some nx' ∧ p ∈ parent_ids nx'.

(** The state between two turns of the loop over the children of [V]:
    [cs] are the children still to visit, [g] the state the call started
    in, [To] the nodes that may be without a parent. *)
Record loop_inv T To (V : K) g (cs : list (handle K)) gi : Prop := {
  li_weak : weak To gi;
  li_mirror : mirror_outside (T ∪ {[V]}) gi;
  li_frame : ∀ t, t ∈ T ∪ {[V]} → gi !! t = g !! t;
  li_shrinks : shrinks g gi;
  li_keeps : keeps (λ _ p, p ≠ V) g gi;
  li_pending : ∀ c, c ∈ cs → has_parent gi c V;
  li_done : ∀ x nx, gi !! x = Some nx → V ∈ parent_ids nx → virus nx ∈ cs
}.

(** The state [remove(V)] returns in. *)
Record post_done T (V : K) g g' : Prop := {
  pd_weak : weak T g';
  pd_mirror : mirror_outside T g';
  pd_gone : g' !! V = None;
  pd_frame : ∀ t, t ∈ T → g' !! t = g !! t;
  pd_shrinks : shrinks g g';
  pd_keeps : keeps (λ x _, x ≠ V) g g'
}.

(** The state [remove(V)] raises in when no [catch] block has failed. *)
Record post_raised (throws : remove_point K → bool) T (V : K) g g' : Prop := {
  pr_weak : weak (T ∪ {[V]}) g';
  pr_frame : ∀ t, t ∈ T ∪ {[V]} → g' !! t = g !! t;
  pr_thrown : ∃ pt : remove_point K, throws pt = true
}.

Definition cascade_post (throws : remove_point K → bool) T (V : K) g
    (o : outcome K) : Prop :=
  match o with
  | Done g' => post_done T V g g'
  | Raised e g' => e = bad_alloc ∧ post_raised throws T V g g'
  | _ => False
  end.

End cascade_states.

(** ** The view of the children of a node *)

Section children_view.
Context `{Countable K}.

Implicit Types (g : gmap K (Node K)) (h : handle K).

(** [struct Iterator] wraps an iterator [m_ptr] of the child set of a node.
    Such an iterator stands at an element of the set or past its end
    ([None]); [it_node] is the node that owns the set, which tells the
    iterators of two sets apart. *)
Record Iterator := mkIterator {
  it_node : K;
  m_ptr : option (handle K)
}.

#[global] Instance Iterator_eq_dec : EqDecision Iterator.
Proof. solve_decision. Defined.

(** [operator==] and [operator!=] *)
Definition Iterator_eq (a b : Iterator) : bool := bool_decide (a = b).
Definition Iterator_ne (a b : Iterator) : bool := negb (Iterator_eq a b).

(** The position after the element [h] in the traversal [l] of a set;
    [None] when [h] is no element of the set. *)
Fixpoint successor h (l : list (handle K)) : option (option (handle K)) :=
  match l with
  | [] => None
  | x :: rest => if decide (x = h) then Some (head rest) else successor h rest
  end.

(** The element before the position [m]; [None] when [m] is the first
    position or no position of the set. *)
Fixpoint predecessor (m : option (handle K)) (l : list (handle K))
    : option (handle K) :=
  match l with
  | [] => None
  | x :: rest => if decide (head rest = m) then Some x else predecessor m rest
  end.

(** The child set an iterator walks, as the table has it now. *)
Definition children_of g (id : K) : option (list (handle K)) :=
  (λ n, handles_in_order (children_virus_ptrs n)) <$> g !! id.

(** [operator*] and [operator->]: the object the iterator stands at, and
    the shared pointer to it.  [None] where the C++ code dereferences the
    end iterator or an iterator whose element has been erased. *)
Definition deref g (it : Iterator) : option (handle K) :=
  l ← children_of g (it_node it);
  h ← m_ptr it;
  if decide (h ∈ l) then Some h else None.

(** Prefix [operator++] and [operator--]. *)
Definition incr g (it : Iterator) : option Iterator :=
  l ← children_of g (it_node it);
  h ← m_ptr it;
  mkIterator (it_node it) <$> successor h l.
Definition decr g (it : Iterator) : option Iterator :=
  l ← children_of g (it_node it);
  (λ x, mkIterator (it_node it) (Some x)) <$> predecessor (m_ptr it) l.

(** Postfix [operator++] and [operator--]: the value returned and the
    iterator as the call leaves it. *)
Definition post_incr g (it : Iterator) : option (Iterator * Iterator) :=
  (λ it', (it, it')) <$> incr g it.
Definition post_decr g (it : Iterator) : option (Iterator * Iterator) :=
  (λ it', (it, it')) <$> decr g it.

(** [get_children_begin] and [get_children_end] *)
Definition get_children_begin g (id : K) : exn + Iterator :=
  match g !! id with
  | None => inl VirusNotFound
  | Some n => inr (mkIterator id (head (handles_in_order (children_virus_ptrs n))))
  end.
Definition get_children_end g (id : K) : exn + Iterator :=
  match g !! id with
  | None => inl VirusNotFound
  | Some n => inr (mkIterator id None)
  end.

(** [operator[]] *)
Definition operator_index g (id : K) : exn + handle K :=
  match g !! id with
  | None => inl VirusNotFound
  | Some n => inr (virus n)
  end.

(** The two loops a caller writes over the view:
    a forward loop [for (it = first; it != last; ++it)] that visits the
    object under [it], and a backward loop [while (last != first)] that
    visits the object under [--last]; of at most [fuel] turns. *)
Fixpoint walk g (fuel : nat) (first last : Iterator)
    : option (list (handle K)) :=
  if Iterator_ne first last then
    match fuel with
    | 0 => None
    | S fuel' =>
        h ← deref g first;
        it ← incr g first;
        (h ::.) <$> walk g fuel' it last
    end
  else Some [].

Fixpoint walk_back g (fuel : nat) (first last : Iterator)
    : option (list (handle K)) :=
  if Iterator_ne last first then
    match fuel with
    | 0 => None
    | S fuel' =>
        it ← decr g last;
        h ← deref g it;
        (h ::.) <$> walk_back g fuel' first it
    end
  else Some [].

End children_view.

Arguments Iterator K : clear implicits.

(** ** The contract of the callers *)

Section contract.
Context `{Countable K}.
Variable id_le : relation K.
Context `{!RelDecision id_le}.
Variable stem_id : K.

(** The states of an object whose callers keep to what the header asks of
    them: no [connect] gives the root a parent or makes a node a parent of
    one of its ancestors.  [get_id] does not throw and no [push_back] fails;
    any other insertion may fail. *)
Inductive well_used : gmap K (Node K) → Prop :=
  | well_used_new a :
      well_used (genealogy stem_id a)
  | well_used_create g a flt id parent_ids g' :
      well_used g →
      (∀ i, flt ≠ EdgePushFails i) →
      (create a flt id parent_ids g = Done g' ∨
       ∃ e, create a flt id parent_ids g = Raised e g') →
      well_used g'
  | well_used_connect g flt child_id parent_id g' :
      well_used g →
      child_id ≠ stem_id →
      ¬ rtc (edge g) child_id parent_id →
      (connect flt child_id parent_id g = Done g' ∨
       ∃ e, connect flt child_id parent_id g = Raised e g') →
      well_used g'
  | well_used_remove g fuel id g' :
      well_used g →
      (remove id_le stem_id no_throw fuel g id = Done g' ∨
       ∃ e, remove id_le stem_id no_throw fuel g id = Raised e g') →
      well_used g'.

End contract.

(** ** The scenarios of the specification, over [std::string] identifiers *)

Definition string_le : relation string := λ a b, String.leb a b = true.

#[global] Instance string_le_dec : RelDecision string_le.
Proof. intros a b. unfold string_le. apply _. Defined.

Module Scenario.
Definition run (o : outcome string) : gmap string (Node string) :=
  match o with Done g | Raised _ g => g | _ => ∅ end.

(** [VirusGenealogy<Virus> v("S")] *)
Definition root_only : gmap string (Node string) := genealogy "S" 1.

(** [create("X","S"); create("Y","X")] *)
Definition with_X : gmap string (Node string) :=
  run (create 2 NoFault "X" ["S"] root_only).
Definition chain : gmap string (Node string) :=
  run (create 3 NoFault "Y" ["X"] with_X).

(** [create("A","S"); create("B","S"); create("C",{"A","B"})] *)
Definition with_A : gmap string (Node string) :=
  run (create 2 NoFault "A" ["S"] root_only).
Definition with_A_B : gmap string (Node string) :=
  run (create 3 NoFault "B" ["S"] with_A).
Definition diamond : gmap string (Node string) :=
  run (create 4 NoFault "C" ["A"; "B"] with_A_B).

(** [create("X","S")], then [create("Y","X")] and [create("Z","X")] with
    the two objects at the addresses [ay] and [az]. *)
Definition fork (ay az : positive) : gmap string (Node string) :=
  run (create az NoFault "Z" ["X"] (run (create ay NoFault "Y" ["X"] with_X))).

(** [fork], then [connect("S","Y"); connect("S","Z")]. *)
Definition knot (ay az : positive) : gmap string (Node string) :=
  run (connect false "S" "Z" (run (connect false "S" "Y" (fork ay az)))).

(** [get_id] throws for the object of [Z] at address 4. *)
Definition Z_throws : remove_point string → bool :=
  λ pt, bool_decide (pt = GetId (4%positive, "Z")).

(** [create("A","S"); connect("S","A")] *)
Definition root_with_parent : gmap string (Node string) :=
  run (connect false "S" "A" with_A).

(** [create("A","S"); create("B","A"); connect("A","B")]: a cycle. *)
Definition cycle_A_B : gmap string (Node string) :=
  run (connect false "A" "B" (run (create 3 NoFault "B" ["A"] with_A))).

(** [fork 3 4] after a [remove("X")] that raised half way. *)
Definition half_removed : gmap string (Node string) :=
  run (remove string_le "S" Z_throws 5 (fork 3 4) "X").

(** [create("P","S"); create("A","P"); create("B","A"); connect("A","B");
    remove("P")]: the cycle of [A] and [B] has lost its path from the root. *)
Definition orphan_cycle : gmap string (Node string) :=
  run (remove string_le "S" no_throw 2
    (run (connect false "A" "B"
      (run (create 4 NoFault "B" ["A"]
        (run (create 3 NoFault "A" ["P"]
          (run (create 2 NoFault "P" ["S"] root_only)))))))) "P").

(** [chain], then [create("Z","Y")]. *)
Definition chain3 : gmap string (Node string) :=
  run (create 4 NoFault "Z" ["Y"] chain).

(** [get_id] throws for the object of [Z], and the [catch] block of
    [remove("X")] fails to put [X] back among the parents of [Y]. *)
Definition rollback_fails : remove_point string → bool :=
  λ pt, bool_decide (pt = GetId (4%positive, "Z")) ||
        bool_decide (pt = Reinsert "X" "Y").

(** [create("A","S")], then a [create("B","A")] whose [push_back] failed. *)
Definition leaked : gmap string (Node string) :=
  run (create 3 (EdgePushFails 0) "B" ["A"] with_A).

(** [create("P","S"); create("A","P"); create("B","A"); connect("A","B")] *)
Definition tied : gmap string (Node string) :=
  run (connect false "A" "B"
    (run (create 4 NoFault "B" ["A"]
      (run (create 3 NoFault "A" ["P"]
        (run (create 2 NoFault "P" ["S"] root_only))))))).

Definition depth (s : string) : nat :=
  if decide (s = "S") then 0
  else if decide (s ∈ ["X"; "A"; "P"]) then 1
  else if decide (s ∈ ["Y"; "B"]) then 2 else 3.

Definition rank (s : string) : nat :=
  if decide (s = "S") then 0
  else if decide (s ∈ ["X"; "A"; "B"]) then 1 else 2.
End Scenario.

(** ** Elementary facts about the containers *)

Section containers.
Context `{Countable K}.
Variable id_le : relation K.
Context `{!RelDecision id_le}.

Implicit Types (g : gmap K (Node K)) (n : Node K) (h : handle K).

Lemma Node_eq n n' :
  virus n = virus n' → parent_ids n = parent_ids n' →
  children_virus_ptrs n = children_virus_ptrs n' → n = n'.
Proof. destruct n, n'; simpl; congruence. Qed.

Lemma insert_erase_parent p n :
  p ∈ parent_ids n → insert_parent p (erase_parent p n) = n.
Proof.
  intros Hp. apply Node_eq; simpl; try done.
  apply set_eq. intros x. rewrite elem_of_union, elem_of_singleton,
    elem_of_difference, elem_of_singleton.
  destruct (decide (x = p)) as [->|]; naive_solver.
Qed.

Lemma erase_insert_parent p n :
  p ∉ parent_ids n → erase_parent p (insert_parent p n) = n.
Proof. intros Hp. apply Node_eq; simpl; try done. set_solver. Qed.

Lemma erase_insert_child h n :
  h ∉ children_virus_ptrs n → erase_child h (insert_child h n) = n.
Proof. intros Hp. apply Node_eq; simpl; try done. set_solver. Qed.

Lemma erase_child_idem h n : erase_child h (erase_child h n) = erase_child h n.
Proof. apply Node_eq; simpl; try done. set_solver. Qed.

Lemma elem_of_ids_in_order (X : gset K) p : p ∈ ids_in_order id_le X ↔ p ∈ X.
Proof. unfold ids_in_order. by rewrite merge_sort_Permutation, elem_of_elements. Qed.

Lemma NoDup_ids_in_order (X : gset K) : NoDup (ids_in_order id_le X).
Proof. unfold ids_in_order. rewrite merge_sort_Permutation. apply NoDup_elements. Qed.

Lemma ids_in_order_empty : ids_in_order id_le ∅ = [].
Proof. unfold ids_in_order. by rewrite elements_empty. Qed.

Lemma elem_of_handles_in_order (X : gset (handle K)) h :
  h ∈ handles_in_order X ↔ h ∈ X.
Proof. unfold handles_in_order. by rewrite merge_sort_Permutation, elem_of_elements. Qed.

Lemma NoDup_handles_in_order (X : gset (handle K)) : NoDup (handles_in_order X).
Proof. unfold handles_in_order. rewrite merge_sort_Permutation. apply NoDup_elements. Qed.

(** The last loop of [remove] succeeds exactly when every recorded parent
    is still in the table, and then touches the child sets of those
    parents only. *)
Lemma erase_from_parents_Some h ps g :
  (∀ p, p ∈ ps → is_Some (g !! p)) →
  ∃ g', erase_from_parents h ps g = Some g' ∧
    ∀ x, g' !! x = if decide (x ∈ ps) then erase_child h <$> g !! x else g !! x.
Proof.
  revert g. induction ps as [|p ps IH]; intros g Hall; simpl.
  - exists g. split; [done|]. intros x.
    destruct (decide (x ∈ [])) as [Hx|]; [|done]. by apply elem_of_nil in Hx.
  - destruct (Hall p) as [pn Hpn]; [by left|]. rewrite Hpn.
    destruct (IH (<[p := erase_child h pn]> g)) as (g' & Heq & Hg').
    { intros q Hq. rewrite lookup_insert. case_decide; [done|].
      apply Hall. by right. }
    exists g'. split; [done|]. intros x. rewrite Hg', lookup_insert.
    destruct (decide (p = x)) as [->|Hne].
    + rewrite (decide_True (P := x ∈ x :: ps)) by left. rewrite Hpn.
      destruct (decide (x ∈ ps)); simpl; by rewrite ?erase_child_idem.
    + destruct (decide (x ∈ ps)) as [Hx|Hx].
      * by rewrite (decide_True (P := x ∈ p :: ps)) by (by right).
      * rewrite (decide_False (P := x ∈ p :: ps)); [done|].
        intros [?|?]%elem_of_cons; congruence.
Qed.

Lemma erase_from_parents_None h ps g p :
  p ∈ ps → g !! p = None → erase_from_parents h ps g = None.
Proof.
  revert g. induction ps as [|q ps IH]; intros g Hp Hg; simpl.
  - by apply elem_of_nil in Hp.
  - destruct (g !! q) as [qn|] eqn:Hq; [|done].
    apply elem_of_cons in Hp as [->|Hp]; [congruence|].
    apply IH; [done|]. rewrite lookup_insert_ne; [done|]. congruence.
Qed.

End containers.
(** ** What every run of [remove] preserves *)

Section preservation.
Context `{Countable K}.
Variable id_le : relation K.
Context `{!RelDecision id_le}.
Variable stem_id : K.
Variable throws : remove_point K → bool.

Implicit Types (g : gmap K (Node K)) (n : Node K) (h c : handle K).

(** [Q] is a property of the table and [C] a property of the handles found
    in child sets, closed under the single mutations of [remove]. *)
Variable Q : gmap K (Node K) → Prop.
Variable C : handle K → Prop.
Hypothesis Q_children :
  ∀ g v n c, Q g → g !! v = Some n → c ∈ children_virus_ptrs n → C c.
Hypothesis Q_erase_parent :
  ∀ g c cn id, Q g → C c → g !! get_id c = Some cn →
    Q (<[get_id c := erase_parent id cn]> g).
Hypothesis Q_insert_parent :
  ∀ g c cn id, Q g → C c → g !! get_id c = Some cn →
    Q (<[get_id c := insert_parent id cn]> g).
Hypothesis Q_erase_child :
  ∀ g p pn h, Q g → g !! p = Some pn → Q (<[p := erase_child h pn]> g).
Hypothesis Q_delete : ∀ g id, Q g → id ≠ stem_id → Q (delete id g).

Lemma remove_children_preserves rm id cs g :
  (∀ g1 v, Q g1 → holds_after Q (rm g1 v)) →
  (∀ c, c ∈ cs → C c) → Q g →
  holds_after Q (remove_children throws rm id cs g).
Proof.
  intros Hrm. revert g. induction cs as [|c cs IH]; intros g HC HQ; simpl; [done|].
  destruct (g !! id) as [n0|]; [|done].
  destruct (throws (GetId c)); [done|].
  destruct (g !! get_id c) as [cn|] eqn:Hc; [|done].
  assert (C c) as Hcc by (apply HC; left).
  assert (∀ c', c' ∈ cs → C c') as HC' by (intros; apply HC; by right).
  pose proof (Q_erase_parent g c cn id HQ Hcc Hc) as HQ1.
  case_decide; [|by apply IH].
  specialize (Hrm _ (get_id c) HQ1).
  destruct (rm _ _) as [g2|e g2| |]; simpl in *; try done.
  - by apply IH.
  - destruct (g2 !! get_id c) as [cn2|] eqn:Hc2; [|done].
    destruct (throws (Reinsert id (get_id c))); simpl; [done|].
    by apply Q_insert_parent.
Qed.

Lemma erase_from_parents_preserves h ps g g' :
  Q g → erase_from_parents h ps g = Some g' → Q g'.
Proof.
  revert g. induction ps as [|p ps IH]; intros g HQ; simpl.
  - by intros [= <-].
  - destruct (g !! p) as [pn|] eqn:Hp; [|done]. apply IH. by apply Q_erase_child.
Qed.

Lemma remove_preserves fuel g id :
  Q g → holds_after Q (remove id_le stem_id throws fuel g id).
Proof.
  revert g id. induction fuel as [|fuel IH]; intros g id HQ; simpl; [done|].
  case_decide as Hid; [done|].
  destruct (g !! id) as [n|] eqn:Hn; [|done].
  destruct (bool_decide (parent_ids n ≠ ∅) && throws (ParentPush id)); [done|].
  pose proof (remove_children_preserves (remove id_le stem_id throws fuel) id
    (handles_in_order (children_virus_ptrs n)) g) as Hloop.
  destruct (remove_children _ _ _ _ _) as [g1|e g1| |]; simpl in *; try done.
  - assert (Q g1) as HQ1.
    { apply Hloop; [by intros; apply IH| |done].
      intros c Hc%elem_of_handles_in_order. by eapply Q_children. }
    destruct (g1 !! id) as [n1|]; [|done].
    destruct (erase_from_parents _ _ _) as [g2|] eqn:Hg2; [|done]. simpl.
    apply Q_delete; [|done]. by eapply erase_from_parents_preserves.
  - apply Hloop; [by intros; apply IH| |done].
    intros c Hc%elem_of_handles_in_order. by eapply Q_children.
Qed.

End preservation.
(** ** The steps of a cascade *)

Section cascade_steps.
Context `{Countable K}.
Variable stem_id : K.

Implicit Types (g : gmap K (Node K)) (n : Node K) (h c : handle K) (T : gset K).

Lemma has_child_insert g k n n' p h :
  g !! k = Some n → children_virus_ptrs n' = children_virus_ptrs n →
  has_child (<[k := n']> g) p h ↔ has_child g p h.
Proof.
  intros Hk Hch. unfold has_child. rewrite lookup_insert.
  case_decide as Hp; [subst p|done]. rewrite Hk.
  split; intros (pn & [= <-] & ?); eexists; split; try done; congruence.
Qed.

Lemma has_parent_insert_ne g k n' h p :
  get_id h ≠ k → has_parent (<[k := n']> g) h p ↔ has_parent g h p.
Proof. intros Hne. unfold has_parent. by rewrite lookup_insert_ne. Qed.

Lemma shrinks_refl g : shrinks g g.
Proof. intros x n' Hx. exists n'. done. Qed.

Lemma shrinks_trans g1 g2 g3 : shrinks g1 g2 → shrinks g2 g3 → shrinks g1 g3.
Proof.
  intros H12 H23 x n3 Hx. destruct (H23 _ _ Hx) as (n2 & Hx2 & ? & ? & ?).
  destruct (H12 _ _ Hx2) as (n1 & Hx1 & ? & ? & ?).
  exists n1. repeat split; [done|congruence|set_solver|set_solver].
Qed.

Lemma shrinks_sub_edges (R : relation K) g g' :
  shrinks g g' → sub_edges R g → sub_edges R g'.
Proof.
  intros Hs HR p pn' h Hp Hh. destruct (Hs _ _ Hp) as (pn & Hp0 & _ & _ & Hch).
  eapply HR; [done|]. by apply Hch.
Qed.

Lemma shrinks_erase_parent g k n p :
  g !! k = Some n → shrinks g (<[k := erase_parent p n]> g).
Proof.
  intros Hk x n' Hx. rewrite lookup_insert in Hx. case_decide; simplify_eq.
  - exists n. simpl. repeat split; [done|set_solver|done].
  - by apply shrinks_refl.
Qed.

Lemma weak_mono T T' g : T ⊆ T' → weak stem_id T g → weak stem_id T' g.
Proof. intros HT [? ? ? Ho]. split; try done. intros k n ???. eapply Ho; [done..|set_solver]. Qed.

Lemma mirror_outside_mono T T' g : T ⊆ T' → mirror_outside T g → mirror_outside T' g.
Proof. intros HT Hm p pn h ???. eapply Hm; [done| |done]. set_solver. Qed.

(** The start of the loop. *)
Lemma loop_inv_start T V g n :
  weak stem_id (T ∪ {[V]}) g → mirror_outside T g → g !! V = Some n → V ∉ T →
  loop_inv stem_id T (T ∪ {[V]}) V g (handles_in_order (children_virus_ptrs n)) g.
Proof.
  intros Hw Hm HV HVT. split; try done.
  - eapply mirror_outside_mono; [|done]. set_solver.
  - apply shrinks_refl.
  - intros x nx p Hx Hp _ _. eauto.
  - intros c Hc%elem_of_handles_in_order. by eapply Hm.
  - intros x nx Hx Hp. apply elem_of_handles_in_order.
    destruct (wk_fwd _ _ _ Hw x nx Hx V Hp) as (vn & HV' & Hin). congruence.
Qed.

Lemma weak_drop T k g n :
  weak stem_id (T ∪ {[k]}) g → g !! k = Some n → parent_ids n ≠ ∅ →
  weak stem_id T g.
Proof.
  intros [? ? ? Ho] Hk Hn. split; try done. intros k' n' Hk' ??.
  destruct (decide (k' = k)) as [->|]; [congruence|].
  eapply Ho; [done..|set_solver].
Qed.

(** One turn of the loop: [V] is erased from the parents of the child. *)
Lemma loop_inv_erase T V g c cs gi cn :
  loop_inv stem_id T (T ∪ {[V]}) V g (c :: cs) gi →
  NoDup (c :: cs) →
  gi !! get_id c = Some cn → virus cn = c → V ∈ parent_ids cn →
  get_id c ≠ V → get_id c ∉ T →
  loop_inv stem_id T (T ∪ {[V]} ∪ {[get_id c]}) V g cs
    (<[get_id c := erase_parent V cn]> gi).
Proof.
  intros [Hw Hm Hf Hs Hk Hp Hd] [Hnc Hnd]%NoDup_cons Hc Hvc HVc HcV HcT.
  destruct Hw as [Hkey Hfwd Hstem Horph].
  assert (get_id c ≠ stem_id) as Hcs.
  { intros Heq. destruct Hstem as (r & Hr & Hre). rewrite Heq in Hc.
    simplify_eq. set_solver. }
  split; [split|..].
  - intros k nk Hk'. rewrite lookup_insert in Hk'. case_decide; simplify_eq.
    + done.
    + by eapply Hkey.
  - intros k nk Hk' p Hpk. eapply has_child_insert; [done..|].
    rewrite lookup_insert in Hk'. case_decide; simplify_eq; simpl in *.
    + eapply (Hfwd _ _ Hc). set_solver.
    + by eapply Hfwd.
  - destruct Hstem as (r & Hr & Hre). exists r. by rewrite lookup_insert_ne.
  - intros k nk Hk' ? Hnot. rewrite lookup_insert_ne in Hk' by set_solver.
    eapply Horph; [done..|set_solver].
  - intros p pn h Hp' HpT Hh.
    assert (has_parent gi h p) as (nh & Hnh & Hv & Hpp).
    { rewrite lookup_insert in Hp'. case_decide; simplify_eq; simpl in *.
      - eapply Hm; [done| |done]. set_solver.
      - by eapply Hm. }
    unfold has_parent. rewrite lookup_insert. case_decide as Hh'.
    + rewrite <- Hh' in Hnh. simplify_eq. eexists; split; [done|]. simpl.
      split; [done|]. set_solver.
    + eauto.
  - intros t Ht. rewrite lookup_insert_ne by set_solver. by apply Hf.
  - eapply shrinks_trans; [done|]. by apply shrinks_erase_parent.
  - intros x nx p Hx Hpx Hsome HpV.
    assert (is_Some (gi !! p)) as Hsome'.
    { rewrite lookup_insert in Hsome. case_decide; simplify_eq; eauto. }
    destruct (Hk x nx p Hx Hpx Hsome' HpV) as (nx' & Hx' & Hpx').
    rewrite lookup_insert. case_decide; simplify_eq.
    + eexists; split; [done|]. simpl. set_solver.
    + eauto.
  - intros c' Hc'. apply has_parent_insert_ne; [|apply Hp; by right].
    intros Heq. destruct (Hp c') as (nh & Hnh & Hv & _); [by right|].
    rewrite Heq in Hnh. by simplify_eq.
  - intros x nx Hx HVx. rewrite lookup_insert in Hx.
    case_decide; simplify_eq; simpl in *; [set_solver|].
    pose proof (Hd x nx Hx HVx) as Hin.
    apply elem_of_cons in Hin as [Heq|?]; [|done].
    apply Hkey in Hx. congruence.
Qed.

(** The recursive call on the child [k] has returned. *)
Lemma loop_inv_resume T V g n k cs g1 g2 kn :
  g !! V = Some n →
  loop_inv stem_id T (T ∪ {[V]} ∪ {[k]}) V g cs g1 →
  g1 !! k = Some kn → parent_ids kn = ∅ →
  post_done stem_id (T ∪ {[V]}) k g1 g2 →
  loop_inv stem_id T (T ∪ {[V]}) V g cs g2.
Proof.
  intros HV [Hw Hm Hf Hs Hk Hp Hd] Hkn Hkn0 [Hw2 Hm2 Hgone Hf2 Hs2 Hk2].
  assert (g2 !! V = Some n) as HV2.
  { rewrite Hf2, Hf by set_solver. done. }
  split; try done.
  - intros t Ht. by rewrite Hf2, Hf.
  - by eapply shrinks_trans.
  - intros x nx p Hx Hpx Hsome HpV.
    assert (is_Some (g1 !! p)) as Hsome1.
    { destruct Hsome as [pn2 Hpn2]. destruct (Hs2 _ _ Hpn2) as (? & ? & _). eauto. }
    destruct (Hk x nx p Hx Hpx Hsome1 HpV) as (nx1 & Hx1 & Hpx1).
    eapply Hk2; [done..|]. intros ->. simplify_eq. set_solver.
  - intros c Hc. destruct (Hp c Hc) as (nc & Hnc & Hv & HVc).
    destruct (Hk2 (get_id c) nc V Hnc HVc) as (nc2 & Hnc2 & HVc2); [by eauto|..].
    { intros Heq. rewrite Heq in Hnc. simplify_eq. set_solver. }
    exists nc2. split; [done|]. split; [|done].
    destruct (Hs2 _ _ Hnc2) as (? & ? & ? & _). congruence.
  - intros x nx Hx HVx. destruct (Hs2 _ _ Hx) as (nx1 & Hx1 & Hv & Hsub & _).
    rewrite Hv. eapply Hd; [done|]. set_solver.
Qed.

(** The recursive call on the child has raised, and the [catch] block has
    put [V] back among the parents of the child. *)
Lemma post_raised_rollback (throws : remove_point K → bool) T V g n c cs gi cn g2 :
  g !! V = Some n → c ∈ children_virus_ptrs n →
  loop_inv stem_id T (T ∪ {[V]}) V g (c :: cs) gi →
  gi !! get_id c = Some cn → virus cn = c → V ∈ parent_ids cn →
  get_id c ≠ V → get_id c ∉ T →
  post_raised stem_id throws (T ∪ {[V]}) (get_id c)
    (<[get_id c := erase_parent V cn]> gi) g2 →
  g2 !! get_id c = Some (erase_parent V cn) ∧
  post_raised stem_id throws T V g (<[get_id c := cn]> g2).
Proof.
  intros HV Hcn [Hw Hm Hf Hs Hk Hp Hd] Hc Hvc HVc HcV HcT [Hw2 Hf2 Hthr].
  assert (g2 !! get_id c = Some (erase_parent V cn)) as Hc2.
  { rewrite Hf2 by set_solver. by rewrite lookup_insert_eq. }
  assert (g2 !! V = Some n) as HV2.
  { rewrite Hf2 by set_solver. rewrite lookup_insert_ne by done.
    rewrite Hf by set_solver. done. }
  assert (get_id c ≠ stem_id) as Hcs.
  { intros Heq. destruct (wk_stem _ _ _ Hw) as (r & Hr & Hre).
    rewrite Heq in Hc. simplify_eq. set_solver. }
  split; [done|]. destruct Hw2 as [Hkey Hfwd Hstem Horph].
  split; [split|..]; [| | | | |done].
  - intros k nk Hk'. rewrite lookup_insert in Hk'. case_decide; simplify_eq.
    + done.
    + by eapply Hkey.
  - intros k nk Hk' p Hpk. eapply has_child_insert; [done| |].
    { done. }
    rewrite lookup_insert in Hk'. case_decide; simplify_eq; simpl in *.
    + destruct (decide (p = V)) as [->|Hne].
      * exists n. done.
      * eapply (Hfwd _ _ Hc2). simpl. set_solver.
    + by eapply Hfwd.
  - destruct Hstem as (r & Hr & Hre). exists r. by rewrite lookup_insert_ne.
  - intros k nk Hk' ? Hnot. rewrite lookup_insert in Hk'.
    case_decide; simplify_eq; [set_solver|].
    eapply Horph; [done..|set_solver].
  - intros t Ht. rewrite lookup_insert_ne by set_solver.
    rewrite Hf2 by set_solver. rewrite lookup_insert_ne by set_solver.
    by apply Hf.
Qed.

(** The end of [remove]: the handle of [V] leaves the child sets of its
    parents and [V] leaves the table. *)
Lemma post_done_final (id_le : relation K) `{!RelDecision id_le} T V g n gm g2 :
  g !! V = Some n → V ≠ stem_id → V ∉ T → (∀ p, p ∈ parent_ids n → p ∉ T) →
  loop_inv stem_id T (T ∪ {[V]}) V g [] gm →
  (∀ x, g2 !! x = if decide (x ∈ ids_in_order id_le (parent_ids n))
                  then erase_child (virus n) <$> gm !! x else gm !! x) →
  post_done stem_id T V g (delete V g2).
Proof.
  intros HV HVs HVT HpT [Hw Hm Hf Hs Hk Hp Hd] Hg2.
  destruct Hw as [Hkey Hfwd Hstem Horph].
  assert (gm !! V = Some n) as HVm by (rewrite Hf by set_solver; done).
  assert (∀ x nx, delete V g2 !! x = Some nx →
    x ≠ V ∧ ∃ nm, gm !! x = Some nm ∧ virus nx = virus nm ∧
      parent_ids nx = parent_ids nm ∧
      (children_virus_ptrs nx = children_virus_ptrs nm ∨
       x ∈ parent_ids n ∧
       children_virus_ptrs nx = children_virus_ptrs nm ∖ {[virus n]})) as Hback.
  { intros x nx Hx. rewrite lookup_delete in Hx. case_decide; [done|].
    split; [done|]. rewrite Hg2 in Hx. case_decide as Hin.
    - apply elem_of_ids_in_order in Hin.
      destruct (gm !! x) as [nm|]; simplify_eq/=. exists nm. eauto 10.
    - exists nx. eauto 10. }
  assert (∀ x nm, gm !! x = Some nm → x ≠ V →
    ∃ nx, delete V g2 !! x = Some nx ∧ virus nx = virus nm ∧
      parent_ids nx = parent_ids nm) as Hforth.
  { intros x nm Hx Hne. rewrite lookup_delete_ne, Hg2, Hx by done.
    case_decide; eexists; split; done. }
  assert (∀ x nx, gm !! x = Some nx → V ∉ parent_ids nx) as HnoV.
  { intros x nx Hx HVx. by apply (Hd x nx Hx), elem_of_nil in HVx. }
  split; [split|..].
  - intros k nk Hk'. destruct (Hback _ _ Hk') as (_ & nm & Hnm & Hv & _).
    rewrite Hv. by eapply Hkey.
  - intros k nk Hk' p Hpk.
    destruct (Hback _ _ Hk') as (HkV & nm & Hnm & Hv & Hpar & _).
    rewrite Hpar in Hpk. destruct (Hfwd _ _ Hnm p Hpk) as (pn & Hpn & Hin).
    assert (p ≠ V) as HpV by (intros ->; exact (HnoV _ _ Hnm Hpk)).
    exists (if decide (p ∈ ids_in_order id_le (parent_ids n))
            then erase_child (virus n) pn else pn).
    rewrite lookup_delete_ne, Hg2, Hpn by done. rewrite Hv.
    case_decide; simpl; (split; [done|]); [|done].
    apply elem_of_difference. split; [done|]. rewrite elem_of_singleton.
    intros Heq. apply Hkey in Hnm, HVm. congruence.
  - destruct Hstem as (r & Hr & Hre).
    destruct (Hforth _ _ Hr) as (r' & Hr' & _ & Hpar); [done|].
    exists r'. split; [done|]. congruence.
  - intros k nk Hk' ? Hnot.
    destruct (Hback _ _ Hk') as (HkV & nm & Hnm & _ & Hpar & _).
    rewrite Hpar. eapply Horph; [done..|set_solver].
  - intros p pn h Hp' HpT' Hh.
    destruct (Hback _ _ Hp') as (HpV & pm & Hpm & _ & _ & Hch).
    assert (h ∈ children_virus_ptrs pm) as Hh'
      by (destruct Hch as [Hch|[_ Hch]]; rewrite Hch in Hh; set_solver).
    destruct (Hm p pm h Hpm) as (nh & Hnh & Hvh & Hph); [set_solver|done|].
    assert (get_id h ≠ V) as HhV.
    { intros Heq. rewrite Heq in Hnh.
      assert (nh = n) as -> by congruence.
      destruct Hch as [Hch|[_ Hch]]; [|set_solver].
      assert (p ∈ ids_in_order id_le (parent_ids n)) as Hin
        by by apply elem_of_ids_in_order.
      rewrite lookup_delete_ne, Hg2, Hpm in Hp' by done.
      rewrite decide_True in Hp' by done. simplify_eq/=. set_solver. }
    destruct (Hforth _ _ Hnh HhV) as (nh' & Hnh' & Hv' & Hpar').
    exists nh'. split; [done|]. split; [congruence|]. by rewrite Hpar'.
  - by rewrite lookup_delete_eq.
  - intros t Ht. assert (t ≠ V) by (intros ->; done).
    rewrite lookup_delete_ne, Hg2 by done.
    rewrite decide_False; [apply Hf; set_solver|].
    rewrite elem_of_ids_in_order. intros ?. by eapply HpT.
  - intros x nx Hx. destruct (Hback _ _ Hx) as (_ & nm & Hnm & Hv & Hpar & Hch).
    destruct (Hs _ _ Hnm) as (n0 & Hn0 & Hv0 & Hpar0 & Hch0).
    exists n0. split; [done|]. split; [congruence|]. split; [set_solver|].
    destruct Hch as [->|[_ ->]]; set_solver.
  - intros x nx p Hx Hpx [pn' Hpn'] HxV.
    destruct (Hback _ _ Hpn') as (HpV & pm & Hpm & _).
    destruct (Hk x nx p Hx Hpx) as (nx' & Hx' & Hpx'); [by eauto|done|].
    destruct (Hforth _ _ Hx' HxV) as (nx'' & Hx'' & _ & Hpar).
    exists nx''. split; [done|]. by rewrite Hpar.
Qed.

End cascade_steps.

(** ** The cascade of [remove] on a consistent acyclic graph *)

Section cascade.
Context `{Countable K}.
Variable id_le : relation K.
Context `{!RelDecision id_le}.
Variable stem_id : K.
Variable throws : remove_point K → bool.
Hypothesis no_reinsert_fails : ∀ v c, throws (Reinsert v c) = false.
Variable R : relation K.
Hypothesis R_irrefl : ∀ x, ¬ tc R x x.

Implicit Types (g : gmap K (Node K)) (n : Node K) (h c : handle K) (T : gset K).

(** The loop over the children, given that the recursive calls on the
    children behave. *)
Lemma cascade_loop T V g n :
  g !! V = Some n → V ∉ T → (∀ t, t ∈ T → tc R t V) → sub_edges R g →
  (∀ k, R V k → ∀ T' g' n',
     sub_edges R g' → weak stem_id (T' ∪ {[k]}) g' → mirror_outside T' g' →
     g' !! k = Some n' → k ≠ stem_id → k ∉ T' → (∀ t, t ∈ T' → tc R t k) →
     (∀ p, p ∈ parent_ids n' → p ∉ T') →
     ∃ fuel o,
       (∀ f, fuel ≤ f → remove id_le stem_id throws f g' k = o) ∧
       cascade_post stem_id throws T' k g' o) →
  ∀ cs gi, NoDup cs → (∀ c, c ∈ cs → c ∈ children_virus_ptrs n) →
    loop_inv stem_id T (T ∪ {[V]}) V g cs gi →
    ∃ fuel o,
      (∀ f, fuel ≤ f →
         remove_children throws (remove id_le stem_id throws f) V cs gi = o) ∧
      match o with
      | Done gm => loop_inv stem_id T (T ∪ {[V]}) V g [] gm
      | Raised e gm => e = bad_alloc ∧ post_raised stem_id throws T V g gm
      | _ => False
      end.
Proof.
  intros HV HVT HT HR IH. induction cs as [|c cs IHcs]; intros gi Hnd Hsub LI.
  { exists 0, (Done gi). done. }
  assert (gi !! V = Some n) as HVi.
  { rewrite (li_frame _ _ _ _ _ _ _ LI) by set_solver. done. }
  destruct (li_pending _ _ _ _ _ _ _ LI c) as (cn & Hc & Hvc & HVc); [by left|].
  assert (c ∈ children_virus_ptrs n) as Hcn by (apply Hsub; by left).
  assert (R V (get_id c)) as HRc.
  { eapply shrinks_sub_edges; [apply (li_shrinks _ _ _ _ _ _ _ LI)|done..]. }
  assert (get_id c ≠ V) as HcV.
  { intros Heq. rewrite Heq in HRc. by eapply R_irrefl, tc_once. }
  assert (get_id c ∉ T) as HcT.
  { intros Hin. eapply R_irrefl, tc_r; [|done]. by apply HT. }
  destruct (throws (GetId c)) eqn:Hthr.
  { exists 0, (Raised bad_alloc gi). split.
    - intros f _. simpl. by rewrite HVi, Hthr.
    - split; [done|]. split; [apply LI|apply LI|eauto]. }
  pose proof (loop_inv_erase stem_id T V g c cs gi cn LI Hnd Hc Hvc HVc HcV HcT) as LI1.
  apply NoDup_cons in Hnd as [_ Hnd].
  assert (∀ c', c' ∈ cs → c' ∈ children_virus_ptrs n) as Hsub'
    by (intros; apply Hsub; by right).
  set (g1 := <[get_id c := erase_parent V cn]> gi) in *.
  assert (g1 !! get_id c = Some (erase_parent V cn)) as Hc1
    by apply lookup_insert_eq.
  destruct (decide (parent_ids (erase_parent V cn) = ∅)) as [Hemp|Hne].
  - destruct (IH (get_id c) HRc (T ∪ {[V]}) g1 (erase_parent V cn))
      as (fuel1 & o1 & Hrun1 & Hpost1); try done.
    + eapply shrinks_sub_edges; [apply (li_shrinks _ _ _ _ _ _ _ LI1)|done].
    + apply LI1.
    + apply LI1.
    + intros Heq. destruct (wk_stem _ _ _ (li_weak _ _ _ _ _ _ _ LI)) as (r & Hr & Hre).
      rewrite Heq in Hc. simplify_eq. set_solver.
    + set_solver.
    + intros t [Ht| ->%elem_of_singleton]%elem_of_union.
      * eapply tc_r; [|done]. by apply HT.
      * by apply tc_once.
    + rewrite Hemp. set_solver.
    + destruct o1 as [g2|e g2| |]; simpl in Hpost1; try done.
      * pose proof (loop_inv_resume stem_id T V g n (get_id c) cs g1 g2 _ HV LI1 Hc1 Hemp Hpost1)
          as LI2.
        destruct (IHcs g2 Hnd Hsub' LI2) as (fuel2 & o2 & Hrun2 & Hpost2).
        exists (fuel1 `max` fuel2), o2. split; [|done].
        intros f Hf. simpl. rewrite HVi, Hthr, Hc.
        rewrite decide_True by done. fold g1. rewrite Hrun1 by lia.
        apply Hrun2. lia.
      * destruct Hpost1 as [-> Hpost1].
        destruct (post_raised_rollback stem_id throws T V g n c cs gi cn g2
                    HV Hcn LI Hc Hvc HVc HcV HcT Hpost1)
          as [Hc2 PR].
        exists fuel1, (Raised bad_alloc (<[get_id c := cn]> g2)). split; [|done].
        intros f Hf. simpl. rewrite HVi, Hthr, Hc.
        rewrite decide_True by done. fold g1. rewrite Hrun1 by lia.
        rewrite Hc2, no_reinsert_fails. by rewrite insert_erase_parent.
  - assert (loop_inv stem_id T (T ∪ {[V]}) V g cs g1) as LI2.
    { destruct LI1 as [Hw ? ? ? ? ? ?]. split; try done. by eapply weak_drop. }
    destruct (IHcs g1 Hnd Hsub' LI2) as (fuel2 & o2 & Hrun2 & Hpost2).
    exists fuel2, o2. split; [|done].
    intros f Hf. simpl. rewrite HVi, Hthr, Hc.
    rewrite decide_False by done. fold g1. by apply Hrun2.
Qed.

(** [remove(V)] on a node whose removal is due: the call returns in a
    state where [V] and its orphaned descendants are gone, or raises
    because a [get_id] or the recording of its parents has failed. *)
Lemma cascade V :
  sn R V → ∀ T g n,
    sub_edges R g → weak stem_id (T ∪ {[V]}) g → mirror_outside T g →
    g !! V = Some n → V ≠ stem_id → V ∉ T → (∀ t, t ∈ T → tc R t V) →
    (∀ p, p ∈ parent_ids n → p ∉ T) →
    ∃ fuel o,
      (∀ f, fuel ≤ f → remove id_le stem_id throws f g V = o) ∧
      cascade_post stem_id throws T V g o.
Proof.
  induction 1 as [V _ IH]. intros T g n HR Hw Hm HV HVs HVT HT HpT.
  destruct (bool_decide (parent_ids n ≠ ∅) && throws (ParentPush V)) eqn:Hpush.
  { exists 1, (Raised bad_alloc g). split.
    - intros [|f] Hf; [lia|]. simpl. rewrite decide_False by done.
      by rewrite HV, Hpush.
    - split; [done|]. split; [done|done|].
      apply andb_true_iff in Hpush as [_ Hpush]. eauto. }
  destruct (cascade_loop T V g n HV HVT HT HR) with
    (cs := handles_in_order (children_virus_ptrs n)) (gi := g)
    as (fuel & o & Hrun & Hpost).
  { intros k Hk. by apply IH. }
  { apply NoDup_handles_in_order. }
  { intros c. by rewrite elem_of_handles_in_order. }
  { by apply loop_inv_start. }
  destruct o as [gm|e gm| |]; try done.
  - assert (gm !! V = Some n) as HVm.
    { rewrite (li_frame _ _ _ _ _ _ _ Hpost) by set_solver. done. }
    destruct (erase_from_parents_Some (virus n)
                (ids_in_order id_le (parent_ids n)) gm) as (g2 & Hg2 & Hlook).
    { intros p Hp%elem_of_ids_in_order.
      destruct (wk_fwd _ _ _ (li_weak _ _ _ _ _ _ _ Hpost) V n HVm p Hp)
        as (pn & Hpn & _). eauto. }
    exists (S fuel), (Done (delete V g2)). split.
    + intros [|f] Hf; [lia|]. simpl. rewrite decide_False by done.
      rewrite HV, Hpush, Hrun by lia. by rewrite HVm, Hg2.
    + by eapply post_done_final.
  - exists (S fuel), (Raised e gm). split; [|done].
    intros [|f] Hf; [lia|]. simpl. rewrite decide_False by done.
    by rewrite HV, Hpush, Hrun by lia.
Qed.

End cascade.
(** ** Acyclic graphs *)

Section acyclic_graphs.
Context `{Countable K}.

Implicit Types (g : gmap K (Node K)) (n : Node K) (h : handle K).

(** Every identifier an edge of the table mentions. *)
Lemma edge_ends_finite g :
  ∃ xs : list K, ∀ p c, edge g p c → p ∈ xs ∧ c ∈ xs.
Proof.
  exists ((map_to_list g).*1 ++
          (map_to_list g ≫= λ kn, get_id <$> elements (children_virus_ptrs kn.2)) ++
          (map_to_list g ≫= λ kn, elements (parent_ids kn.2))).
  intros p c [(h & (pn & Hp & Hh) & <-)|(n & Hc & Hp)].
  - split.
    + apply elem_of_app. left. apply list_elem_of_fmap. exists (p, pn).
      split; [done|]. by apply elem_of_map_to_list.
    + apply elem_of_app. right. apply elem_of_app. left.
      apply list_elem_of_bind. exists (p, pn). split; [|by apply elem_of_map_to_list].
      apply list_elem_of_fmap. exists h. split; [done|]. by apply elem_of_elements.
  - split.
    + apply elem_of_app. right. apply elem_of_app. right.
      apply list_elem_of_bind. exists (c, n). split; [|by apply elem_of_map_to_list].
      by apply elem_of_elements.
    + apply elem_of_app. left. apply list_elem_of_fmap. exists (c, n).
      split; [done|]. by apply elem_of_map_to_list.
Qed.

Lemma tc_last {A} (R : relation A) x y : tc R x y → ∃ z, R z y.
Proof. induction 1; eauto. Qed.

Lemma tc_first {A} (R : relation A) x y : tc R x y → ∃ z, R x z.
Proof. destruct 1; eauto. Qed.

Lemma tc_subrel_local {A} (R1 R2 : relation A) x y :
  (∀ a b, R1 a b → R2 a b) → tc R1 x y → tc R2 x y.
Proof. intros Hsub. induction 1; [apply tc_once|eapply tc_l]; eauto. Qed.

Lemma tc_flip {A} (R : relation A) x y : tc (flip R) x y → tc R y x.
Proof.
  induction 1 as [x y Hxy|x y z Hxy _ IH]; [by apply tc_once|].
  eapply tc_r; [done|]. done.
Qed.

(** Along the edges of an acyclic table every descent and every ascent
    ends. *)
Lemma acyclic_sn g x : acyclic g → sn (edge g) x.
Proof.
  intros Hac. apply tc_finite_sn; [exact Hac|].
  destruct (edge_ends_finite g) as [xs Hxs]. exists xs.
  intros y [z Hz]%tc_last. by apply (Hxs z y).
Qed.

Lemma acyclic_sn_flip g x : acyclic g → sn (flip (edge g)) x.
Proof.
  intros Hac. apply tc_finite_sn.
  - intros y Hy%tc_flip. by apply (Hac y).
  - destruct (edge_ends_finite g) as [xs Hxs]. exists xs.
    intros y [z Hz]%tc_last. by apply (Hxs y z).
Qed.

(** A numbering that grows along the edges proves the graph acyclic. *)
Lemma ranked_edge rk g p c : ranked rk g → edge g p c → rk p < rk c.
Proof.
  intros Hrk [(h & (pn & Hp & Hh) & <-)|(n & Hc & Hp)].
  - by apply (Hrk p pn Hp).
  - by apply (Hrk c n Hc).
Qed.

Lemma ranked_acyclic rk g : ranked rk g → acyclic g.
Proof.
  intros Hrk x Hx. assert (∀ a b, tc (edge g) a b → rk a < rk b) as Hlt.
  { induction 1 as [a b Hab|a b c Hab _ IH].
    - by eapply ranked_edge.
    - etrans; [by eapply ranked_edge|done]. }
  specialize (Hlt x x Hx). lia.
Qed.

End acyclic_graphs.

(** ** [remove] on a consistent acyclic graph *)

Section remove_consistent.
Context `{Countable K}.
Variable id_le : relation K.
Context `{!RelDecision id_le}.
Variable stem_id : K.

Implicit Types (g : gmap K (Node K)) (n : Node K) (h : handle K).

Lemma weak_I1_4 g : weak stem_id ∅ g ↔ I1_4 stem_id g.
Proof.
  split.
  - intros [? ? ? Ho]. repeat split; try done. intros k n ??. by eapply Ho.
  - intros (? & ? & Ho & ?). split; try done. intros k n ???. by eapply Ho.
Qed.

Lemma remove_consistent throws g id n :
  (∀ v c, throws (Reinsert v c) = false) →
  consistent stem_id g → acyclic g → g !! id = Some n → id ≠ stem_id →
  ∃ fuel o,
    (∀ f, fuel ≤ f → remove id_le stem_id throws f g id = o) ∧
    cascade_post stem_id throws ∅ id g o.
Proof.
  intros Hre [Hinv Hmir] Hac Hid Hne.
  apply (cascade id_le stem_id throws Hre (edge g) Hac id (acyclic_sn g id Hac)
           ∅ g n).
  - intros p pn h Hp Hh. left. exists h. split; [|done]. by exists pn.
  - apply (weak_mono stem_id ∅); [set_solver|by apply weak_I1_4].
  - intros p pn h Hp _ Hh. by apply (Hmir p pn Hp).
  - done.
  - done.
  - set_solver.
  - set_solver.
  - set_solver.
Qed.

(** The root is reachable from every node of a table that satisfies I1 to
    I3 and is acyclic, along edges of the table. *)
Lemma root_reaches g x :
  I1_4 stem_id g → acyclic g → is_Some (g !! x) → rtc (parent_edge g) stem_id x.
Proof.
  intros (H1 & H2 & H3 & H4) Hac.
  induction (acyclic_sn_flip g x Hac) as [x _ IH]. intros [n Hx].
  destruct (decide (x = stem_id)) as [->|Hne]; [done|].
  destruct (set_choose_L (parent_ids n)) as [p Hp]; [by eapply H3|].
  destruct (H1 x n Hx p Hp) as (pn & Hpn & _).
  eapply rtc_r; [apply (IH p)|].
  - right. by exists n.
  - eauto.
  - by exists n.
Qed.

(** What [remove] deletes when nothing fails. *)
Lemma remove_exact g id n :
  consistent stem_id g → acyclic g → g !! id = Some n → id ≠ stem_id →
  removes_unreachable stem_id id_le g id.
Proof.
  intros Hcons Hac Hid Hne.
  destruct (remove_consistent no_throw g id n ltac:(done) Hcons Hac Hid Hne)
    as (fuel & o & Hrun & Hpost).
  destruct o as [g'|e g'| |]; simpl in Hpost; try done; cycle 1.
  { destruct Hpost as [_ [_ _ [c Hc]]]. done. }
  destruct Hpost as [Hw Hm Hgone _ Hs Hk].
  pose proof (proj1 (weak_I1_4 g') Hw) as Hinv'.
  assert (acyclic g') as Hac'.
  { intros x Hx. apply (Hac x). eapply tc_subrel_local; [|done].
    intros p c [(h & (pn' & Hp & Hh) & <-)|(n' & Hc & Hp)].
    - destruct (Hs _ _ Hp) as (pn & Hp0 & _ & _ & Hch).
      left. exists h. split; [|done]. exists pn. split; [done|]. by apply Hch.
    - destruct (Hs _ _ Hc) as (n0 & Hc0 & _ & Hpar & _).
      right. exists n0. split; [done|]. by apply Hpar. }
  exists fuel, g'. split; [done|]. split; [done|]. split; [|split; [|split]].
  - intros x. split.
    + intros Hx. split.
      { destruct Hx as [n' Hx]. destruct (Hs _ _ Hx) as (? & ? & _). eauto. }
      pose proof (root_reaches g' x Hinv' Hac' Hx) as Hpath.
      clear Hx. revert x Hpath.
      apply (rtc_ind_r (λ x, survives stem_id g id x) stem_id); [apply rtc_refl|].
      intros y z Hyz (nz & Hz & Hy) IH.
      eapply rtc_r; [apply IH|].
      destruct (wk_fwd _ _ _ Hw z nz Hz y Hy) as (yn & Hyn & _).
      destruct (Hs _ _ Hz) as (nz0 & Hz0 & _ & Hpar & _).
      split; [|split].
      * right. exists nz0. split; [done|]. by apply Hpar.
      * intros ->. congruence.
      * intros ->. congruence.
    + intros [_ Hpath]. revert x Hpath.
      apply (rtc_ind_r (λ x, is_Some (g' !! x)) stem_id).
      { destruct (wk_stem _ _ _ Hw) as (r & Hr & _). eauto. }
      intros y z Hyz (Hedge & Hy & Hz) IH.
      assert (∃ nz, g !! z = Some nz ∧ y ∈ parent_ids nz) as (nz & Hnz & Hynz).
      { destruct Hedge as [(h & (yn & Hyn & Hh) & <-)|Hpe]; [|done].
        destruct (proj2 Hcons y yn Hyn h Hh) as (nh & ? & ? & ?). eauto. }
      destruct (Hk z nz y Hnz Hynz IH Hz) as (nz' & ? & _). eauto.
  - intros x n' Hx. destruct (Hs _ _ Hx) as (nx & Hx0 & Hv & Hpar & Hch).
    exists nx. split; [done|]. split; [done|]. split.
    + intros p. split.
      * intros Hp. split; [by apply Hpar|].
        destruct (wk_fwd _ _ _ Hw x n' Hx p Hp) as (pn & Hpn & _). eauto.
      * intros [Hp Hsome]. assert (x ≠ id) as Hxid by (intros ->; congruence).
        destruct (Hk x nx p Hx0 Hp Hsome Hxid) as (n'' & Hx'' & Hp''). congruence.
    + intros h. split.
      * intros Hh. split; [by apply Hch|].
        destruct (Hm x n' h Hx) as (nh & Hnh & _); [set_solver|done|]. eauto.
      * intros [Hh Hsome].
        destruct (proj2 Hcons x nx Hx0 h Hh) as (nh & Hnh & Hvh & Hxh).
        assert (get_id h ≠ id) as Hhid.
        { intros Heq. rewrite Heq in Hsome. rewrite Hgone in Hsome.
          by destruct Hsome. }
        destruct (Hk (get_id h) nh x Hnh Hxh) as (nh' & Hnh' & Hxh'); [by eauto|done|].
        destruct (wk_fwd _ _ _ Hw (get_id h) nh' Hnh' x Hxh') as (xn & Hxn & Hin).
        destruct (Hs _ _ Hnh') as (nh0 & Hnh0 & Hv0 & _).
        assert (xn = n') as -> by congruence.
        assert (nh0 = nh) as -> by congruence. congruence.
  - split; [done|]. intros p pn Hp h Hh. by eapply Hm.
  - done.
Qed.

End remove_consistent.
(** ** [create] *)

Section create_facts.
Context `{Countable K}.

Implicit Types (g : gmap K (Node K)) (n : Node K) (h : handle K).

Lemma insert_child_idem h n : insert_child h (insert_child h n) = insert_child h n.
Proof. apply Node_eq; simpl; try done. set_solver. Qed.

Lemma find_parents_Some g ps :
  (∀ p, p ∈ ps → is_Some (g !! p)) → find_parents g ps = Some ps.
Proof.
  induction ps as [|p ps IH]; intros Hall; simpl; [done|].
  destruct (Hall p) as [pn Hpn]; [by left|]. rewrite Hpn, IH; [done|].
  intros q Hq. apply Hall. by right.
Qed.

Lemma find_parents_None g ps p :
  p ∈ ps → g !! p = None → find_parents g ps = None.
Proof.
  induction ps as [|q ps IH]; intros Hp Hnone; simpl.
  - by apply elem_of_nil in Hp.
  - destruct (g !! q) eqn:Hq; [|done].
    apply elem_of_cons in Hp as [->|Hp]; [congruence|]. by rewrite IH.
Qed.

Lemma find_parents_None_inv g ps :
  find_parents g ps = None → ∃ p, p ∈ ps ∧ g !! p = None.
Proof.
  induction ps as [|p ps IH]; simpl; [done|].
  destruct (g !! p) eqn:Hp; [|exists p; split; [by left|done]].
  destruct (find_parents g ps); [done|]. intros _.
  destruct IH as (q & Hq & Hnone); [done|]. exists q. split; [by right|done].
Qed.

Lemma find_parents_inv g ps its :
  find_parents g ps = Some its → its = ps ∧ ∀ p, p ∈ ps → is_Some (g !! p).
Proof.
  revert its. induction ps as [|p ps IH]; intros its; simpl.
  - intros [= <-]. split; [done|]. intros p Hp. by apply elem_of_nil in Hp.
  - destruct (g !! p) as [pn|] eqn:Hp; [|done].
    destruct (find_parents g ps) as [its'|]; [|done]. intros [= <-].
    destruct (IH its' eq_refl) as [-> Hall]. split; [done|].
    intros q [->|Hq]%elem_of_cons; eauto.
Qed.

(** The node [create] builds. *)
Lemma new_node_fields a id ps :
  let new_node := foldl (λ n p, insert_parent p n) (new_Node a id) ps in
  virus new_node = (a, id) ∧ parent_ids new_node = list_to_set ps ∧
  children_virus_ptrs new_node = ∅.
Proof.
  assert (∀ n0, let n1 := foldl (λ n p, insert_parent p n) n0 ps in
    virus n1 = virus n0 ∧ parent_ids n1 = list_to_set ps ∪ parent_ids n0 ∧
    children_virus_ptrs n1 = children_virus_ptrs n0) as Hgen.
  { induction ps as [|p ps IH]; intros n0; simpl.
    - split; [done|]. split; [set_solver|done].
    - destruct (IH (insert_parent p n0)) as (Hv & Hp & Hc). simpl in *.
      rewrite Hv, Hp, Hc. split; [done|]. split; [set_solver|done]. }
  destruct (Hgen (new_Node a id)) as (Hv & Hp & Hc). simpl in *.
  rewrite Hv, Hp, Hc. split; [done|]. split; [set_solver|done].
Qed.

(** What the loop of the [try] block has done when it is left: [k] child
    sets have received the handle, and [e] edges are recorded. *)
Lemma link_parents_inv flt h i ps g g1 e t :
  link_parents flt h i ps g = (g1, e, t) →
  ∃ k, k ≤ length ps ∧
    (∀ x, g1 !! x = if decide (x ∈ take k ps) then insert_child h <$> g !! x
                    else g !! x) ∧
    ((t = false ∧ k = length ps ∧ e = i + k ∧
      ∀ j, i ≤ j < i + length ps →
        flt ≠ ChildInsertFails j ∧ flt ≠ EdgePushFails j) ∨
     (t = true ∧ flt = ChildInsertFails e ∧ e = i + k ∧ k < length ps) ∨
     (t = true ∧ flt = EdgePushFails e ∧ S e = i + k)).
Proof.
  revert i g. induction ps as [|p ps IH]; intros i g; simpl.
  - intros [= <- <- <-]. exists 0. split; [done|]. split.
    + intros x. by rewrite decide_False by apply not_elem_of_nil.
    + left. repeat split; try lia.
  - case_decide as Hc.
    { intros [= <- <- <-]. exists 0. split; [lia|]. split.
      - intros x. by rewrite decide_False by apply not_elem_of_nil.
      - right. left. repeat split; [done|lia|lia]. }
    case_decide as He.
    { intros [= <- <- <-]. exists 1. split; [lia|]. split.
      - intros x. simpl. rewrite lookup_alter.
        destruct (decide (p = x)) as [->|Hne].
        + by rewrite decide_True by left.
        + rewrite decide_False; [done|]. set_solver.
      - right. right. repeat split; [done|lia]. }
    intros Hlink. destruct (IH _ _ Hlink) as (k & Hk & Hlook & Hcase).
    exists (S k). split; [lia|]. split.
    + intros x. rewrite Hlook. simpl. rewrite lookup_alter.
      destruct (decide (p = x)) as [->|Hne].
      * rewrite (decide_True (P := x ∈ x :: take k ps)) by left.
        destruct (g !! x); simpl; case_decide; simpl; by rewrite ?insert_child_idem.
      * destruct (decide (x ∈ take k ps)).
        -- by rewrite (decide_True (P := x ∈ p :: take k ps)) by (by right).
        -- rewrite (decide_False (P := x ∈ p :: take k ps)); [done|]. set_solver.
    + destruct Hcase as [(-> & -> & -> & Hno)|[(-> & -> & -> & ?)|(-> & -> & ?)]].
      * left. repeat split; try lia;
          destruct (decide (j = i)) as [->|]; try done; apply Hno; lia.
      * right. left. repeat split; try done; lia.
      * right. right. repeat split; try done; lia.
Qed.

(** The loop of the [catch] block succeeds when the recorded iterators
    belong to different child sets that all hold the handle. *)
Lemma unlink_parents_Some h e ps g :
  NoDup (take e ps) → e ≤ length ps →
  (∀ p, p ∈ take e ps → has_child g p h) →
  ∃ g', unlink_parents h e ps g = Some g' ∧
    ∀ x, g' !! x = if decide (x ∈ take e ps) then erase_child h <$> g !! x
                   else g !! x.
Proof.
  revert ps g. induction e as [|e IH]; intros ps g Hnd Hlen Hall; simpl.
  { exists g. split; [by destruct ps|]. done. }
  destruct ps as [|p ps]; simpl in *; [lia|].
  apply NoDup_cons in Hnd as [Hp Hnd].
  destruct (Hall p) as (pn & Hpn & Hh); [by left|]. rewrite Hpn.
  rewrite decide_True by done.
  destruct (IH ps (<[p := erase_child h pn]> g)) as (g' & Hg' & Hlook);
    [done|lia| |].
  { intros q Hq. destruct (Hall q) as (qn & Hqn & Hqh); [by right|].
    exists qn. rewrite lookup_insert_ne; [done|]. intros ->. done. }
  exists g'. split; [done|]. intros x. rewrite Hlook, lookup_insert.
  destruct (decide (p = x)) as [->|Hne].
  - rewrite (decide_False (P := x ∈ take e ps)) by done.
    rewrite (decide_True (P := x ∈ x :: take e ps)) by left. by rewrite Hpn.
  - destruct (decide (x ∈ take e ps)).
    + by rewrite (decide_True (P := x ∈ p :: take e ps)) by (by right).
    + rewrite (decide_False (P := x ∈ p :: take e ps)); [done|]. set_solver.
Qed.

Lemma unlink_parents_inv h e ps g g' :
  unlink_parents h e ps g = Some g' → differ_by_child h g' g.
Proof.
  revert ps g. induction e as [|e IH]; intros ps g; simpl.
  { intros Heq. assert (g' = g) as -> by (destruct ps; congruence).
    intros x. destruct (g !! x); [|done]. set_solver. }
  destruct ps as [|p ps]; simpl.
  { intros [= <-] x. destruct (g !! x); [|done]. set_solver. }
  destruct (g !! p) as [pn|] eqn:Hp; [|done]. case_decide; [|done].
  intros Hg' x. specialize (IH _ _ Hg' x). rewrite lookup_insert in IH.
  case_decide; simplify_eq.
  - rewrite Hp. destruct (g' !! x); [|done]. simpl in IH.
    destruct IH as (? & ? & ? & ?). repeat split; [done|done|set_solver|].
    intros y Hy. destruct (decide (y = h)) as [->|]; set_solver.
  - done.
Qed.

Lemma differ_by_child_trans h g1 g2 g3 :
  differ_by_child h g1 g2 → differ_by_child h g2 g3 → differ_by_child h g1 g3.
Proof.
  intros H12 H23 x. specialize (H12 x). specialize (H23 x).
  destruct (g1 !! x), (g2 !! x), (g3 !! x); try done.
  destruct H12 as (? & ? & ? & ?), H23 as (? & ? & ? & ?).
  repeat split; [congruence|congruence|set_solver|set_solver].
Qed.

Lemma differ_by_child_sym h g1 g2 :
  differ_by_child h g1 g2 → differ_by_child h g2 g1.
Proof.
  intros H12 x. specialize (H12 x).
  destruct (g1 !! x), (g2 !! x); try done.
  destruct H12 as (? & ? & ? & ?). repeat split; [done|done|set_solver|].
  intros y Hy. destruct (decide (y = h)) as [->|]; set_solver.
Qed.

Lemma link_parents_differ flt h i ps g g1 e t :
  link_parents flt h i ps g = (g1, e, t) → differ_by_child h g g1.
Proof.
  intros (k & _ & Hlook & _)%link_parents_inv x. rewrite Hlook.
  destruct (g !! x); [|by case_decide]. case_decide; simpl; set_solver.
Qed.

(** The ways [create] can end. *)
Lemma create_inv a flt id ps g :
  match create a flt id ps g with
  | Done g' =>
      (ps = [] ∧ g' = g) ∨
      (ps ≠ [] ∧ g !! id = None ∧ (∀ p, p ∈ ps → is_Some (g !! p)) ∧
       ∃ g1, g' = <[id := mkNode (a, id) (list_to_set ps) ∅]> g1 ∧
         ∀ x, g1 !! x = if decide (x ∈ ps) then insert_child (a, id) <$> g !! x
                        else g !! x)
  | Raised e g' =>
      ps ≠ [] ∧
      ((e = VirusAlreadyCreated ∧ g' = g ∧ is_Some (g !! id)) ∨
       (e = VirusNotFound ∧ g' = g ∧ g !! id = None ∧ ∃ p, p ∈ ps ∧ g !! p = None) ∨
       (e = bad_alloc ∧ g !! id = None ∧ (∀ p, p ∈ ps → is_Some (g !! p)) ∧
        flt ≠ NoFault ∧ differ_by_child (a, id) g g'))
  | Undefined => flt ≠ NoFault ∧ ¬ NoDup ps
  | OutOfFuel => False
  end.
Proof.
  unfold create. destruct ps as [|p0 ps0] eqn:Hps; [by left|].
  rewrite <- Hps. assert (ps ≠ []) as Hne by (by rewrite Hps).
  clear Hps p0 ps0.
  destruct (g !! id) as [n|] eqn:Hid; [by eauto 10|].
  destruct (find_parents g ps) as [its|] eqn:Hfind; cycle 1.
  { split; [done|]. right. left. repeat split; try done.
    by apply find_parents_None_inv. }
  apply find_parents_inv in Hfind as [-> Hall].
  destruct (new_node_fields a id ps) as (Hv & Hpar & Hch).
  set (new_node := foldl _ _ _) in *. rewrite Hv.
  assert (new_node = mkNode (a, id) (list_to_set ps) ∅) as Hnew
    by (by apply Node_eq).
  destruct (link_parents flt (a, id) 0 ps g) as [[g1 e] t] eqn:Hlink.
  pose proof (link_parents_differ _ _ _ _ _ _ _ _ Hlink) as Hdiff.
  destruct (link_parents_inv _ _ _ _ _ _ _ _ Hlink) as (k & Hk & Hlook & Hcase).
  assert (e ≤ k) as Hek by (destruct Hcase as [?|[?|?]]; lia).
  assert (match create_rollback (a, id) e ps g1 with
          | Raised e' g' => e' = bad_alloc ∧ differ_by_child (a, id) g g'
          | Undefined => ¬ NoDup ps
          | _ => False
          end) as Hroll.
  { unfold create_rollback.
    destruct (unlink_parents (a, id) e ps g1) as [g2|] eqn:Hun.
    - split; [done|]. eapply differ_by_child_trans; [done|].
      by eapply differ_by_child_sym, unlink_parents_inv.
    - intros Hnd. destruct (unlink_parents_Some (a, id) e ps g1) as (? & ? & _);
        [| | |congruence].
      + eapply sublist_NoDup; [done|apply sublist_take].
      + lia.
      + intros p Hp. destruct (Hall p) as [pn Hpn]; [by eapply subseteq_take|].
        exists (insert_child (a, id) pn). rewrite Hlook, Hpn.
        rewrite decide_True; [split; [done|]; set_solver|].
        apply elem_of_take in Hp as (j & ? & ?). apply elem_of_take.
        exists j. split; [done|lia]. }
  destruct t.
  - assert (flt ≠ NoFault) by (destruct Hcase as [?|[?|?]]; naive_solver).
    destruct (create_rollback _ _ _ _); naive_solver.
  - case_decide as Htab.
    + destruct (create_rollback _ _ _ _); naive_solver.
    + right. repeat split; try done. exists g1. rewrite Hnew. split; [done|].
      destruct Hcase as [(_ & -> & _)|[?|?]]; [|naive_solver..].
      by rewrite firstn_all in Hlook.
Qed.

(** A failing child-set or table insertion: the [catch] block undoes
    every insertion of the call. *)
Lemma create_failure_restores a flt id ps g :
  g !! id = None → ps ≠ [] → (∀ p, p ∈ ps → is_Some (g !! p)) →
  NoDup ps → fresh a g →
  (flt = TableInsertFails ∨ ∃ i, flt = ChildInsertFails i ∧ i < length ps) →
  create a flt id ps g = Raised bad_alloc g.
Proof.
  intros Hid Hne Hall Hnd Hfresh Hflt. unfold create.
  destruct ps as [|p0 ps0] eqn:Hps; [done|]. rewrite <- Hps in *.
  clear Hps p0 ps0. rewrite Hid, find_parents_Some by done.
  destruct (new_node_fields a id ps) as (Hv & _). simpl in Hv. rewrite Hv.
  destruct (link_parents flt (a, id) 0 ps g) as [[g1 e] t] eqn:Hlink.
  destruct (link_parents_inv _ _ _ _ _ _ _ _ Hlink) as (k & Hk & Hlook & Hcase).
  assert (e = k ∧ (t = true ∨ flt = TableInsertFails)) as [-> Ht].
  { destruct Hflt as [->|(i & -> & Hi)].
    - destruct Hcase as [?|[?|?]]; naive_solver.
    - destruct Hcase as [(_ & _ & _ & Hno)|[(? & Heq & ? & ?)|?]].
      + destruct (Hno i); [lia|done].
      + split; [lia|by left].
      + naive_solver. }
  assert (create_rollback (a, id) k ps g1 = Raised bad_alloc g) as Hroll.
  { unfold create_rollback.
    destruct (unlink_parents_Some (a, id) k ps g1) as (g2 & -> & Hlook2).
    - eapply sublist_NoDup; [done|apply sublist_take].
    - done.
    - intros p Hp. destruct (Hall p) as [pn Hpn]; [by eapply subseteq_take|].
      exists (insert_child (a, id) pn). rewrite Hlook, Hpn.
      rewrite decide_True by done. split; [done|]. set_solver.
    - f_equal. apply map_eq. intros x. rewrite Hlook2, Hlook.
      case_decide; [|done]. destruct (g !! x) as [n|] eqn:Hx; [|done]. simpl.
      rewrite erase_insert_child; [done|].
      intros Hin. by apply (proj2 (Hfresh x n Hx) _ Hin). }
  destruct t; [done|]. destruct Ht as [?| ->]; [done|].
  by rewrite decide_True.
Qed.

(** A table that differs from one that satisfies I1 to I4 in the handle
    of an object the table does not hold satisfies I1 to I4. *)
Lemma I1_4_differ stem_id h g g' :
  g !! get_id h = None → differ_by_child h g g' →
  I1_4 stem_id g → I1_4 stem_id g'.
Proof.
  intros Hh Hd (H1 & (r & Hr & Hre) & H3 & H4).
  assert (∀ x n', g' !! x = Some n' → ∃ n, g !! x = Some n ∧
    virus n' = virus n ∧ parent_ids n' = parent_ids n ∧
    children_virus_ptrs n ∖ {[h]} ⊆ children_virus_ptrs n') as Hback.
  { intros x n' Hx. specialize (Hd x). rewrite Hx in Hd.
    destruct (g !! x) as [n|]; [|done]. exists n. naive_solver. }
  split; [|split; [|split]].
  - intros x n' Hx p Hp. destruct (Hback _ _ Hx) as (n & Hn & Hv & Hpar & _).
    rewrite Hpar in Hp. destruct (H1 x n Hn p Hp) as (pn & Hpn & Hin).
    specialize (Hd p). rewrite Hpn in Hd.
    destruct (g' !! p) as [pn'|] eqn:Hpn'; [|done].
    exists pn'. split; [done|]. destruct Hd as (_ & _ & Hsub & _).
    apply Hsub. rewrite Hv. apply elem_of_difference. split; [done|].
    rewrite elem_of_singleton. intros Heq. pose proof (H4 _ _ Hn) as Hkey.
    simpl in Hkey. rewrite Heq in Hkey. rewrite Hkey in Hh. congruence.
  - specialize (Hd stem_id). rewrite Hr in Hd.
    destruct (g' !! stem_id) as [r'|] eqn:Hr'; [|done]. exists r'.
    split; [done|]. destruct Hd as (_ & -> & _). done.
  - intros x n' Hx Hne. destruct (Hback _ _ Hx) as (n & Hn & _ & -> & _).
    by eapply H3.
  - intros x n' Hx. destruct (Hback _ _ Hx) as (n & Hn & -> & _).
    by eapply H4.
Qed.

(** [create] keeps I1 to I4, however it ends. *)
Lemma create_I1_4 stem_id a flt id ps g :
  I1_4 stem_id g → holds_after (I1_4 stem_id) (create a flt id ps g).
Proof.
  intros Hinv. pose proof (create_inv a flt id ps g) as Hc.
  destruct (create a flt id ps g) as [g'|e g'| |]; simpl; try done.
  - destruct Hc as [[_ ->]|(Hne & Hid & Hall & g1 & -> & Hlook)]; [done|].
    destruct Hinv as (H1 & (r & Hr & Hre) & H3 & H4).
    assert (∀ x n, g !! x = Some n → x ≠ id) as Hfresh by (intros x n ? ->; congruence).
    split; [|split; [|split]].
    + intros x n' Hx p Hp. rewrite lookup_insert in Hx.
      assert (p ≠ id ∧ ∃ pn, g !! p = Some pn ∧
              (p ∈ ps ∨ virus n' ∈ children_virus_ptrs pn) ∧
              (p ∈ ps → virus n' = (a, id) ∨ virus n' ∈ children_virus_ptrs pn))
        as (Hpid & pn & Hpn & Hor & Himp).
      { case_decide; simplify_eq; simpl in *.
        - apply elem_of_list_to_set in Hp. destruct (Hall p Hp) as [pn Hpn].
          split; [by eapply Hfresh|]. exists pn. eauto.
        - rewrite Hlook in Hx.
          assert (∃ n, g !! x = Some n ∧ virus n' = virus n ∧
                       parent_ids n' = parent_ids n) as (n & Hn & Hv & Hpar).
          { case_decide; [|eauto]. destruct (g !! x) as [n|]; simplify_eq/=. eauto. }
          rewrite Hpar in Hp. destruct (H1 x n Hn p Hp) as (pn & Hpn & Hin).
          split; [by eapply Hfresh|]. exists pn. rewrite Hv. eauto. }
      unfold has_child. rewrite lookup_insert_ne by congruence. rewrite Hlook, Hpn.
      destruct (decide (p ∈ ps)); simpl; eexists; (split; [done|]); simpl.
      * destruct (Himp ltac:(done)) as [->|?]; set_solver.
      * destruct Hor; [done|]. done.
    + exists (if decide (stem_id ∈ ps) then insert_child (a, id) r else r).
      rewrite lookup_insert_ne by (intros ->; congruence).
      rewrite Hlook, Hr. by destruct (decide (stem_id ∈ ps)).
    + intros x n' Hx Hxs. rewrite lookup_insert in Hx.
      case_decide; simplify_eq; simpl.
      * destruct ps as [|p ps]; [done|]. set_solver.
      * rewrite Hlook in Hx. case_decide.
        -- destruct (g !! x) as [n|] eqn:Hn; simplify_eq/=. by eapply H3.
        -- by eapply H3.
    + intros x n' Hx. rewrite lookup_insert in Hx.
      case_decide; simplify_eq; simpl; [done|].
      rewrite Hlook in Hx. case_decide.
      * destruct (g !! x) as [n|] eqn:Hn; simplify_eq/=. by eapply H4.
      * by eapply H4.
  - destruct Hc as (_ & [(_ & -> & _)|[(_ & -> & _)|(_ & Hid & _ & _ & Hd)]]);
      [done|done|].
    by apply (I1_4_differ stem_id (a, id) g g' Hid Hd).
Qed.

Lemma create_defined a flt id ps g :
  flt = NoFault ∨ NoDup ps →
  ∃ g', create a flt id ps g = Done g' ∨ ∃ e, create a flt id ps g = Raised e g'.
Proof.
  intros Hor. pose proof (create_inv a flt id ps g) as Hc.
  destruct (create a flt id ps g) as [g'|e g'| |]; [eauto..| |done].
  destruct Hc, Hor; done.
Qed.

End create_facts.
(** ** [connect] *)

Section connect_facts.
Context `{Countable K}.

Implicit Types (g : gmap K (Node K)) (n : Node K) (h : handle K).

Lemma connect_absent flt child_id parent_id g :
  g !! child_id = None ∨ g !! parent_id = None →
  connect flt child_id parent_id g = Raised VirusNotFound g.
Proof.
  intros Hor. unfold connect.
  destruct (g !! child_id), (g !! parent_id); destruct Hor; done.
Qed.

Lemma connect_already flt child_id parent_id g cn :
  g !! child_id = Some cn → is_Some (g !! parent_id) →
  parent_id ∈ parent_ids cn →
  connect flt child_id parent_id g = Done g.
Proof.
  intros Hc [pn Hp] Hin. unfold connect. rewrite Hc, Hp.
  by rewrite decide_True.
Qed.

(** The ways [connect] can end. *)
Lemma connect_inv flt child_id parent_id g :
  match connect flt child_id parent_id g with
  | Done g' =>
      (g' = g ∧ (∃ cn, g !! child_id = Some cn ∧ is_Some (g !! parent_id) ∧
                       parent_id ∈ parent_ids cn)) ∨
      (flt = false ∧
       (∃ cn, g !! child_id = Some cn ∧ is_Some (g !! parent_id) ∧
              (parent_id ∉ parent_ids cn) ∧
              g' = alter (insert_child (virus cn)) parent_id
                     (<[child_id := insert_parent parent_id cn]> g)))
  | Raised e g' =>
      g' = g ∧
      ((e = VirusNotFound ∧ (g !! child_id = None ∨ g !! parent_id = None)) ∨
       (e = bad_alloc ∧ flt = true ∧
        (∃ cn, g !! child_id = Some cn ∧ is_Some (g !! parent_id) ∧
               parent_id ∉ parent_ids cn)))
  | _ => False
  end.
Proof.
  unfold connect. destruct (g !! child_id) as [cn|] eqn:Hc; cycle 1.
  { split; [done|]. left. split; [done|]. by left. }
  destruct (g !! parent_id) as [pn|] eqn:Hp; cycle 1.
  { split; [done|]. left. split; [done|]. by right. }
  destruct (decide (parent_id ∈ parent_ids cn)) as [Hin|Hin].
  { left. split; [done|]. exists cn. done. }
  destruct flt.
  - split.
    + apply map_eq. intros x. rewrite lookup_alter.
      destruct (decide (child_id = x)) as [->|].
      * rewrite lookup_insert_eq. simpl. by rewrite erase_insert_parent.
      * by rewrite lookup_insert_ne.
    + right. split; [done|]. split; [done|]. exists cn. done.
  - right. split; [done|]. exists cn. done.
Qed.

Lemma connect_twice flt1 flt child_id parent_id g g1 :
  connect flt1 child_id parent_id g = Done g1 →
  connect flt child_id parent_id g1 = Done g1.
Proof.
  intros Hfirst. pose proof (connect_inv flt1 child_id parent_id g) as Hc.
  rewrite Hfirst in Hc.
  destruct Hc as [(-> & cn & Hcn & Hp & Hin)|(_ & cn & Hcn & [pn Hp] & Hin & ->)].
  - by eapply connect_already.
  - destruct (decide (parent_id = child_id)) as [->|Hne].
    + eapply connect_already.
      * by rewrite lookup_alter_eq, lookup_insert_eq.
      * by rewrite lookup_alter_eq, lookup_insert_eq.
      * simpl. set_solver.
    + eapply connect_already.
      * by rewrite lookup_alter_ne, lookup_insert_eq.
      * by rewrite lookup_alter_eq, lookup_insert_ne, Hp.
      * simpl. set_solver.
Qed.

Lemma connect_fault_restores child_id parent_id g cn :
  g !! child_id = Some cn → is_Some (g !! parent_id) →
  parent_id ∉ parent_ids cn →
  connect true child_id parent_id g = Raised bad_alloc g.
Proof.
  intros Hc [pn Hp] Hin.
  pose proof (connect_inv true child_id parent_id g) as Hinv.
  destruct (connect true child_id parent_id g) as [g'|e g'| |]; try done.
  - destruct Hinv as [(_ & cn' & ? & _ & ?)|(? & _)]; [|done].
    simplify_eq. done.
  - destruct Hinv as [-> [(_ & [?|?])|(-> & _)]]; congruence.
Qed.

(** [connect] keeps I1 to I4 unless its first argument is the root. *)
Lemma connect_I1_4 stem_id flt child_id parent_id g :
  child_id ≠ stem_id → I1_4 stem_id g →
  holds_after (I1_4 stem_id) (connect flt child_id parent_id g).
Proof.
  intros Hne Hinv. pose proof (connect_inv flt child_id parent_id g) as Hc.
  destruct (connect flt child_id parent_id g) as [g'|e g'| |]; simpl; try done;
    [|by destruct Hc as [-> _]].
  destruct Hc as [[-> _]|(_ & cn & Hcn & [pn Hp] & Hin & ->)]; [done|].
  destruct Hinv as (H1 & (r & Hr & Hre) & H3 & H4).
  set (g1 := <[child_id := insert_parent parent_id cn]> g).
  assert (∀ x n', alter (insert_child (virus cn)) parent_id g1 !! x = Some n' →
    ∃ n, g !! x = Some n ∧ virus n' = virus n ∧
      parent_ids n' = (if decide (x = child_id) then {[parent_id]} ∪ parent_ids n
                       else parent_ids n)) as Hback.
  { intros x n' Hx. rewrite lookup_alter in Hx. unfold g1 in Hx.
    destruct (decide (x = child_id)) as [->|Hxc].
    - rewrite lookup_insert_eq in Hx. exists cn. split; [done|].
      destruct (decide (parent_id = child_id)); simplify_eq/=;
        try (rewrite lookup_insert_eq in Hx; simplify_eq/=); done.
    - destruct (decide (parent_id = x)) as [->|];
        rewrite lookup_insert_ne in Hx by congruence;
        [destruct (g !! x) as [n|] eqn:Hn|]; simplify_eq/=; eauto. }
  assert (∀ x n h, g !! x = Some n → h ∈ children_virus_ptrs n →
    has_child (alter (insert_child (virus cn)) parent_id g1) x h) as Hkeep.
  { intros x n h Hx Hh. unfold has_child. rewrite lookup_alter. unfold g1.
    destruct (decide (parent_id = x)) as [Hpx|Hpx]; [rewrite Hpx|];
      rewrite lookup_insert; destruct (decide (child_id = x)) as [Hcx|Hcx];
      rewrite ?Hx; simpl; (eexists; split; [done|]); simpl;
      try (assert (n = cn) as -> by congruence); set_solver. }
  split; [|split; [|split]].
  - intros x n' Hx p Hp'. destruct (Hback _ _ Hx) as (n & Hn & Hv & Hpar).
    rewrite Hpar in Hp'. rewrite Hv.
    assert (p ∈ parent_ids n ∨ (x = child_id ∧ p = parent_id)) as [Hold|[-> ->]]
      by (case_decide; set_solver).
    + destruct (H1 x n Hn p Hold) as (pn' & Hpn' & Hin'). by eapply Hkeep.
    + assert (n = cn) as -> by congruence.
      unfold has_child. rewrite lookup_alter_eq. unfold g1.
      rewrite lookup_insert.
      destruct (decide (child_id = parent_id)); rewrite ?Hp; simpl;
        (eexists; split; [done|]); simpl; set_solver.
  - destruct (alter (insert_child (virus cn)) parent_id g1 !! stem_id)
      as [r'|] eqn:Hr'.
    + exists r'. split; [done|]. destruct (Hback _ _ Hr') as (n & Hn & _ & Hpar).
      rewrite decide_False in Hpar by done. congruence.
    + rewrite lookup_alter in Hr'. unfold g1 in Hr'.
      destruct (decide (parent_id = stem_id)) as [Heq|]; [rewrite Heq in Hr'|];
        rewrite lookup_insert_ne in Hr' by done; by rewrite Hr in Hr'.
  - intros x n' Hx Hxs. destruct (Hback _ _ Hx) as (n & Hn & _ & Hpar).
    rewrite Hpar. case_decide; [set_solver|]. by eapply H3.
  - intros x n' Hx. destruct (Hback _ _ Hx) as (n & Hn & -> & _). by eapply H4.
Qed.

End connect_facts.
(** ** The root over the lifetime of the object *)

Section root_facts.
Context `{Countable K}.
Variable id_le : relation K.
Context `{!RelDecision id_le}.
Variable stem_id : K.

Implicit Types (g : gmap K (Node K)) (n : Node K) (h : handle K).

Lemma differ_of_lookup h (ps : list K) g g1 :
  (∀ x, g1 !! x = if decide (x ∈ ps) then insert_child h <$> g !! x
                  else g !! x) →
  differ_by_child h g g1.
Proof.
  intros Hlook x. rewrite Hlook.
  destruct (g !! x); [|by case_decide]. case_decide; simpl; set_solver.
Qed.

Lemma differ_is_Some h g g' x :
  differ_by_child h g g' → is_Some (g !! x) → is_Some (g' !! x).
Proof.
  intros Hd [n Hn]. specialize (Hd x). rewrite Hn in Hd.
  destruct (g' !! x); [eauto|done].
Qed.

Lemma root_kept_differ h g g' :
  get_id h ≠ stem_id → differ_by_child h g g' →
  root_kept stem_id g → root_kept stem_id g'.
Proof.
  intros Hh Hd (H4 & (r & Hr & Hre) & Hrc).
  assert (∀ x n', g' !! x = Some n' → ∃ n, g !! x = Some n ∧
    virus n' = virus n ∧ parent_ids n' = parent_ids n ∧
    children_virus_ptrs n' ⊆ {[h]} ∪ children_virus_ptrs n) as Hback.
  { intros x n' Hx. specialize (Hd x). rewrite Hx in Hd.
    destruct (g !! x) as [n|]; [|done]. exists n. naive_solver. }
  split; [|split].
  - intros x n' Hx. destruct (Hback _ _ Hx) as (n & Hn & -> & _). by eapply H4.
  - destruct (differ_is_Some h g g' stem_id Hd) as [r' Hr']; [by eauto|].
    exists r'. split; [done|]. destruct (Hback _ _ Hr') as (n & Hn & _ & -> & _).
    congruence.
  - intros x n' Hx c Hc. destruct (Hback _ _ Hx) as (n & Hn & _ & _ & Hsub).
    apply Hsub in Hc. apply elem_of_union in Hc as [->%elem_of_singleton|Hc];
      [done|]. by eapply Hrc.
Qed.

Lemma create_root_kept a flt id ps g :
  root_kept stem_id g → holds_after (root_kept stem_id) (create a flt id ps g).
Proof.
  intros Hinv. pose proof (create_inv a flt id ps g) as Hc.
  assert (g !! id = None → id ≠ stem_id) as Hid.
  { intros Hnone ->. destruct Hinv as (_ & (r & Hr & _) & _). congruence. }
  destruct (create a flt id ps g) as [g'|e g'| |]; simpl; try done.
  - destruct Hc as [[_ ->]|(Hne & Hnone & Hall & g1 & -> & Hlook)]; [done|].
    apply (differ_of_lookup (a, id)) in Hlook.
    destruct (root_kept_differ (a, id) g g1 (Hid Hnone) Hlook Hinv)
      as (H4 & (r & Hr & Hre) & Hrc).
    split; [|split].
    + intros x n' Hx. rewrite lookup_insert in Hx.
      case_decide; simplify_eq/=; [done..|]. by eapply H4.
    + exists r. split; [|done]. rewrite lookup_insert_ne; [done|]. by apply Hid.
    + intros x n' Hx c Hc'. rewrite lookup_insert in Hx.
      case_decide; simplify_eq/=; [set_solver..|]. by eapply Hrc.
  - destruct Hc as (_ & [(_ & -> & _)|[(_ & -> & _)|(_ & Hnone & _ & _ & Hd)]]);
      [done|done|].
    by apply (root_kept_differ (a, id) g g' (Hid Hnone) Hd).
Qed.

Lemma connect_root_kept flt child_id parent_id g :
  child_id ≠ stem_id → root_kept stem_id g →
  holds_after (root_kept stem_id) (connect flt child_id parent_id g).
Proof.
  intros Hne Hinv. pose proof (connect_inv flt child_id parent_id g) as Hc.
  destruct (connect flt child_id parent_id g) as [g'|e g'| |]; simpl; try done;
    [|by destruct Hc as [-> _]].
  destruct Hc as [[-> _]|(_ & cn & Hcn & [pn Hp] & Hin & ->)]; [done|].
  destruct Hinv as (H4 & (r & Hr & Hre) & Hrc).
  set (g1 := <[child_id := insert_parent parent_id cn]> g).
  assert (∀ x n', alter (insert_child (virus cn)) parent_id g1 !! x = Some n' →
    ∃ n, g !! x = Some n ∧ virus n' = virus n ∧
      (x ≠ child_id → parent_ids n' = parent_ids n) ∧
      children_virus_ptrs n' ⊆ {[virus cn]} ∪ children_virus_ptrs n) as Hback.
  { intros x n' Hx. rewrite lookup_alter in Hx. unfold g1 in Hx.
    destruct (decide (parent_id = x)) as [Hpx|Hpx]; [rewrite Hpx in Hx|];
      rewrite lookup_insert in Hx;
      destruct (decide (child_id = x)) as [Hcx|Hcx];
      try (destruct (g !! x) as [n|] eqn:Hn); simplify_eq/=;
      eexists; (split; [done|]); simpl; (split; [done|]);
      (split; [done|]); set_solver. }
  split; [|split].
  - intros x n' Hx. destruct (Hback _ _ Hx) as (n & Hn & -> & _). by eapply H4.
  - destruct (alter (insert_child (virus cn)) parent_id g1 !! stem_id)
      as [r'|] eqn:Hr'.
    + exists r'. split; [done|]. destruct (Hback _ _ Hr') as (n & Hn & _ & Hpar & _).
      rewrite Hpar by done. congruence.
    + rewrite lookup_alter in Hr'. unfold g1 in Hr'.
      destruct (decide (parent_id = stem_id)) as [Heq|]; [rewrite Heq in Hr'|];
        rewrite lookup_insert_ne in Hr' by done; by rewrite Hr in Hr'.
  - intros x n' Hx c Hc'. destruct (Hback _ _ Hx) as (n & Hn & _ & _ & Hsub).
    apply Hsub in Hc'. apply elem_of_union in Hc' as [->%elem_of_singleton|Hc'].
    + rewrite (H4 _ _ Hcn). done.
    + by eapply Hrc.
Qed.

Lemma remove_root_kept throws fuel g id :
  root_kept stem_id g →
  holds_after (root_kept stem_id) (remove id_le stem_id throws fuel g id).
Proof.
  apply (remove_preserves id_le stem_id throws (root_kept stem_id)
           (λ c, get_id c ≠ stem_id)).
  - intros g0 v n c (_ & _ & Hrc) Hv Hc. by eapply Hrc.
  - intros g0 c cn p (H4 & (r & Hr & Hre) & Hrc) Hc Hcn. split; [|split].
    + intros x n Hx. rewrite lookup_insert in Hx.
      case_decide; simplify_eq/=; by eapply H4.
    + exists r. by rewrite lookup_insert_ne.
    + intros x n Hx c' Hc'. rewrite lookup_insert in Hx.
      case_decide; simplify_eq/=; by eapply Hrc.
  - intros g0 c cn p (H4 & (r & Hr & Hre) & Hrc) Hc Hcn. split; [|split].
    + intros x n Hx. rewrite lookup_insert in Hx.
      case_decide; simplify_eq/=; by eapply H4.
    + exists r. by rewrite lookup_insert_ne.
    + intros x n Hx c' Hc'. rewrite lookup_insert in Hx.
      case_decide; simplify_eq/=; by eapply Hrc.
  - intros g0 p pn h (H4 & (r & Hr & Hre) & Hrc) Hp. split; [|split].
    + intros x n Hx. rewrite lookup_insert in Hx.
      case_decide; simplify_eq/=; by eapply H4.
    + destruct (decide (p = stem_id)) as [->|].
      * exists (erase_child h pn). rewrite lookup_insert_eq. split; [done|].
        simpl. congruence.
      * exists r. by rewrite lookup_insert_ne.
    + intros x n Hx c' Hc'. rewrite lookup_insert in Hx.
      case_decide; simplify_eq/=; [|by eapply Hrc].
      eapply (Hrc _ _ Hp). set_solver.
  - intros g0 v (H4 & (r & Hr & Hre) & Hrc) Hv. split; [|split].
    + intros x n Hx. apply lookup_delete_Some in Hx as [_ Hx]. by eapply H4.
    + exists r. by rewrite lookup_delete_ne.
    + intros x n Hx. apply lookup_delete_Some in Hx as [_ Hx]. by eapply Hrc.
Qed.

(** The root stays in the table whatever is called. *)
Lemma create_root_exists a flt id ps g :
  is_Some (g !! stem_id) →
  holds_after (λ g', is_Some (g' !! stem_id)) (create a flt id ps g).
Proof.
  intros Hs. pose proof (create_inv a flt id ps g) as Hc.
  destruct (create a flt id ps g) as [g'|e g'| |]; simpl; try done.
  - destruct Hc as [[_ ->]|(Hne & Hnone & Hall & g1 & -> & Hlook)]; [done|].
    apply lookup_insert_is_Some'. right.
    eapply differ_is_Some; [by eapply differ_of_lookup|done].
  - destruct Hc as (_ & [(_ & -> & _)|[(_ & -> & _)|(_ & _ & _ & _ & Hd)]]);
      [done|done|]. by eapply differ_is_Some.
Qed.

Lemma connect_root_exists flt child_id parent_id g :
  is_Some (g !! stem_id) →
  holds_after (λ g', is_Some (g' !! stem_id)) (connect flt child_id parent_id g).
Proof.
  intros Hs. pose proof (connect_inv flt child_id parent_id g) as Hc.
  destruct (connect flt child_id parent_id g) as [g'|e g'| |]; simpl; try done;
    [|by destruct Hc as [-> _]].
  destruct Hc as [[-> _]|(_ & cn & Hcn & _ & _ & ->)]; [done|].
  apply lookup_alter_is_Some, lookup_insert_is_Some'. by right.
Qed.

Lemma remove_root_exists throws fuel g id :
  is_Some (g !! stem_id) →
  holds_after (λ g', is_Some (g' !! stem_id))
    (remove id_le stem_id throws fuel g id).
Proof.
  apply (remove_preserves id_le stem_id throws
           (λ g', is_Some (g' !! stem_id)) (λ _, True)).
  - done.
  - intros g0 c cn p Hs _ _. apply lookup_insert_is_Some'. by right.
  - intros g0 c cn p Hs _ _. apply lookup_insert_is_Some'. by right.
  - intros g0 p pn h Hs _. apply lookup_insert_is_Some'. by right.
  - intros g0 v Hs Hv. by rewrite lookup_delete_ne.
Qed.

Lemma genealogy_root_kept a : root_kept stem_id (genealogy stem_id a).
Proof.
  unfold genealogy. split; [|split].
  - intros x n Hx. apply lookup_singleton_Some in Hx as [<- <-]. done.
  - exists (new_Node a stem_id). by rewrite lookup_singleton_eq.
  - intros x n Hx c Hc. apply lookup_singleton_Some in Hx as [<- <-]. set_solver.
Qed.

Lemma lifetime_root_exists may_be_child g :
  lifetime stem_id id_le may_be_child g → is_Some (g !! stem_id).
Proof.
  induction 1 as [a|g a flt id ps o g' _ IH Ho Hor
                 |g flt c p o g' _ IH _ Ho Hor
                 |g throws fuel id o g' _ IH Ho Hor].
  - unfold genealogy. by rewrite lookup_singleton_eq.
  - pose proof (create_root_exists a flt id ps g IH) as Hh.
    rewrite Ho in Hh. by destruct Hor as [->|[e ->]].
  - pose proof (connect_root_exists flt c p g IH) as Hh.
    rewrite Ho in Hh. by destruct Hor as [->|[e ->]].
  - pose proof (remove_root_exists throws fuel g id IH) as Hh.
    rewrite Ho in Hh. by destruct Hor as [->|[e ->]].
Qed.

Lemma lifetime_root_kept g :
  lifetime stem_id id_le (λ c, c ≠ stem_id) g → root_kept stem_id g.
Proof.
  induction 1 as [a|g a flt id ps o g' _ IH Ho Hor
                 |g flt c p o g' _ IH Hc Ho Hor
                 |g throws fuel id o g' _ IH Ho Hor].
  - apply genealogy_root_kept.
  - pose proof (create_root_kept a flt id ps g IH) as Hh.
    rewrite Ho in Hh. by destruct Hor as [->|[e ->]].
  - pose proof (connect_root_kept flt c p g Hc IH) as Hh.
    rewrite Ho in Hh. by destruct Hor as [->|[e ->]].
  - pose proof (remove_root_kept throws fuel g id IH) as Hh.
    rewrite Ho in Hh. by destruct Hor as [->|[e ->]].
Qed.

End root_facts.
(** ** Termination of [remove] *)

Section termination.
Context `{Countable K}.
Variable id_le : relation K.
Context `{!RelDecision id_le}.
Variable stem_id : K.
Variable throws : remove_point K → bool.
Variable R : relation K.

Implicit Types (g : gmap K (Node K)) (n : Node K) (h c : handle K).

(** [remove] adds no child edge. *)
Lemma remove_sub_edges fuel g id :
  sub_edges R g → holds_after (sub_edges R) (remove id_le stem_id throws fuel g id).
Proof.
  apply (remove_preserves id_le stem_id throws (sub_edges R) (λ _, True)).
  - done.
  - intros g0 c cn p HR _ Hc q qn h Hq Hh. rewrite lookup_insert in Hq.
    case_decide; simplify_eq/=; by eapply HR.
  - intros g0 c cn p HR _ Hc q qn h Hq Hh. rewrite lookup_insert in Hq.
    case_decide; simplify_eq/=; by eapply HR.
  - intros g0 p pn h0 HR Hp q qn h Hq Hh. rewrite lookup_insert in Hq.
    case_decide; simplify_eq/=; [|by eapply HR].
    eapply HR; [done|]. set_solver.
  - intros g0 v HR _ q qn h Hq Hh. apply lookup_delete_Some in Hq as [_ Hq].
    by eapply HR.
Qed.

(** The loop over the children ends when the calls on the children do. *)
Lemma remove_children_ends V :
  (∀ k, R V k → ∀ g, sub_edges R g →
     ∃ fuel o, o ≠ OutOfFuel ∧
       ∀ f, fuel ≤ f → remove id_le stem_id throws f g k = o) →
  ∀ cs g, (∀ c, c ∈ cs → R V (get_id c)) → sub_edges R g →
    ∃ fuel o, o ≠ OutOfFuel ∧
      ∀ f, fuel ≤ f →
        remove_children throws (remove id_le stem_id throws f) V cs g = o.
Proof.
  intros IH. induction cs as [|c cs IHcs]; intros g Hcs HR; simpl.
  { exists 0, (Done g). done. }
  destruct (g !! V) as [n|]; [|by exists 0, Undefined].
  destruct (throws (GetId c)); [by exists 0, (Raised bad_alloc g)|].
  destruct (g !! get_id c) as [cn|] eqn:Hc; [|by exists 0, Undefined].
  assert (∀ c', c' ∈ cs → R V (get_id c')) as Hcs' by (intros; apply Hcs; by right).
  assert (sub_edges R (<[get_id c := erase_parent V cn]> g)) as HR1.
  { intros q qn h Hq Hh. rewrite lookup_insert in Hq.
    case_decide; simplify_eq/=; by eapply HR. }
  case_decide; [|by apply IHcs].
  destruct (IH (get_id c) (Hcs c ltac:(by left)) _ HR1) as (fuel1 & o1 & Hne & Hrun1).
  destruct o1 as [g2|e g2| |]; [| | |done].
  - pose proof (remove_sub_edges fuel1 _ (get_id c) HR1) as HR2.
    rewrite Hrun1 in HR2 by done. simpl in HR2.
    destruct (IHcs g2 Hcs' HR2) as (fuel2 & o2 & Hne2 & Hrun2).
    exists (fuel1 `max` fuel2), o2. split; [done|]. intros f Hf.
    rewrite Hrun1 by lia. apply Hrun2. lia.
  - destruct (g2 !! get_id c) as [cn2|] eqn:Hc2.
    + exists fuel1,
        (if throws (Reinsert V (get_id c)) then Raised bad_alloc g2
         else Raised e (<[get_id c := insert_parent V cn2]> g2)).
      split; [by destruct (throws _)|]. intros f Hf. by rewrite Hrun1, Hc2.
    + exists fuel1, Undefined. split; [done|]. intros f Hf. by rewrite Hrun1, Hc2.
  - exists fuel1, Undefined. split; [done|]. intros f Hf. by rewrite Hrun1.
Qed.

(** [remove] ends on every node from which all descents along [R] end. *)
Lemma remove_ends V :
  sn R V → ∀ g, sub_edges R g →
    ∃ fuel o, o ≠ OutOfFuel ∧
      ∀ f, fuel ≤ f → remove id_le stem_id throws f g V = o.
Proof.
  induction 1 as [V _ IH]. intros g HR.
  destruct (decide (V = stem_id)) as [HVs|HVs].
  { exists 1, (Raised TriedToRemoveStemVirus g). split; [done|].
    intros [|f] Hf; [lia|]. simpl. by rewrite decide_True. }
  destruct (g !! V) as [n|] eqn:HV; cycle 1.
  { exists 1, (Raised VirusNotFound g). split; [done|].
    intros [|f] Hf; [lia|]. simpl. by rewrite decide_False, HV. }
  destruct (bool_decide (parent_ids n ≠ ∅) && throws (ParentPush V)) eqn:Hpush.
  { exists 1, (Raised bad_alloc g). split; [done|].
    intros [|f] Hf; [lia|]. simpl. by rewrite decide_False, HV, Hpush. }
  destruct (remove_children_ends V IH (handles_in_order (children_virus_ptrs n)) g)
    as (fuel & o & Hne & Hrun); [|done|].
  { intros c Hc%elem_of_handles_in_order. by eapply HR. }
  exists (S fuel).
  exists (match o with
          | Done g1 =>
              match g1 !! V with
              | Some n1 =>
                  match erase_from_parents (virus n1)
                          (ids_in_order id_le (parent_ids n)) g1 with
                  | Some g2 => Done (delete V g2)
                  | None => Undefined
                  end
              | None => Undefined
              end
          | o => o
          end).
  split.
  - destruct o as [g1|e g1| |]; try done.
    destruct (g1 !! V); [|done]. by destruct (erase_from_parents _ _ _).
  - intros [|f] Hf; [lia|]. simpl. rewrite decide_False, HV, Hpush by done.
    rewrite Hrun by lia. by destruct o.
Qed.

End termination.
(** ** A run of [remove] that does not end *)

Section divergence.
Context `{Countable K}.
Variable id_le : relation K.
Context `{!RelDecision id_le}.
Variable stem_id : K.

Implicit Types (g : gmap K (Node K)) (n : Node K).

(** One turn of the loop that ends in a recursive call that runs out of
    fuel. *)
Lemma remove_children_out_of_fuel throws rm id child rest g n cn :
  g !! id = Some n → throws (GetId child) = false →
  g !! get_id child = Some cn →
  parent_ids (erase_parent id cn) = ∅ →
  rm (<[get_id child := erase_parent id cn]> g) (get_id child) = OutOfFuel →
  remove_children throws rm id (child :: rest) g = OutOfFuel.
Proof.
  intros Hid Hthr Hc Hemp Hrm. simpl. rewrite Hid, Hthr, Hc.
  rewrite decide_True by done. by rewrite Hrm.
Qed.

Lemma remove_out_of_fuel throws fuel g id n child rest cn :
  id ≠ stem_id → g !! id = Some n →
  bool_decide (parent_ids n ≠ ∅) && throws (ParentPush id) = false →
  handles_in_order (children_virus_ptrs n) = child :: rest →
  throws (GetId child) = false → g !! get_id child = Some cn →
  parent_ids (erase_parent id cn) = ∅ →
  remove id_le stem_id throws fuel (<[get_id child := erase_parent id cn]> g)
    (get_id child) = OutOfFuel →
  remove id_le stem_id throws (S fuel) g id = OutOfFuel.
Proof.
  intros Hne Hid Hpush Hcs Hthr Hc Hemp Hrm. simpl.
  rewrite decide_False by done. rewrite Hid, Hpush, Hcs.
  by rewrite (remove_children_out_of_fuel throws _ id child rest g n cn).
Qed.

End divergence.

(** On a cycle that has lost its path from the root the recursion of
    [remove] has no end. *)
Lemma remove_may_not_end fuel :
  remove string_le "S" no_throw fuel Scenario.orphan_cycle "A" = OutOfFuel.
Proof.
  set (g1 := <["B" := erase_parent "A" (mkNode (4%positive, "B") {["A"]} {[(3%positive, "A")]})]>
               Scenario.orphan_cycle).
  set (g2 := <["A" := erase_parent "B" (mkNode (3%positive, "A") {["B"]} {[(4%positive, "B")]})]> g1).
  assert (∀ f, remove string_le "S" no_throw f g2 "A" = OutOfFuel ∧
               remove string_le "S" no_throw f g2 "B" = OutOfFuel) as Hloop.
  { induction f as [|f [IHA IHB]]; [done|]. split.
    - apply (remove_out_of_fuel string_le "S" no_throw f g2 "A"
               (mkNode (3%positive, "A") ∅ {[(4%positive, "B")]})
               (4%positive, "B") []
               (mkNode (4%positive, "B") ∅ {[(3%positive, "A")]}));
        [discriminate|vm_compute; reflexivity..|].
      replace (<[_ := _]> g2) with g2 by (vm_compute; reflexivity). exact IHB.
    - apply (remove_out_of_fuel string_le "S" no_throw f g2 "B"
               (mkNode (4%positive, "B") ∅ {[(3%positive, "A")]})
               (3%positive, "A") []
               (mkNode (3%positive, "A") ∅ {[(4%positive, "B")]}));
        [discriminate|vm_compute; reflexivity..|].
      replace (<[_ := _]> g2) with g2 by (vm_compute; reflexivity). exact IHA. }
  destruct fuel as [|fuel]; [done|].
  apply (remove_out_of_fuel string_le "S" no_throw fuel Scenario.orphan_cycle "A"
           (mkNode (3%positive, "A") {["B"]} {[(4%positive, "B")]})
           (4%positive, "B") []
           (mkNode (4%positive, "B") {["A"]} {[(3%positive, "A")]}));
    [discriminate|vm_compute; reflexivity..|].
  fold g1. destruct fuel as [|fuel]; [done|].
  apply (remove_out_of_fuel string_le "S" no_throw fuel g1 "B"
           (mkNode (4%positive, "B") ∅ {[(3%positive, "A")]})
           (3%positive, "A") []
           (mkNode (3%positive, "A") {["B"]} {[(4%positive, "B")]}));
    [discriminate|vm_compute; reflexivity..|].
  fold g2. apply Hloop.
Qed.

(** ** [get_parents] *)

Section get_parents_facts.
Context `{Countable K}.
Variable id_le : relation K.
Context `{!RelDecision id_le}.

Implicit Types (g : gmap K (Node K)) (n : Node K).

Lemma get_parents_absent g id :
  g !! id = None → get_parents id_le g id = inl VirusNotFound.
Proof. intros Hid. unfold get_parents. by rewrite Hid. Qed.

Lemma get_parents_present g id n :
  g !! id = Some n →
  ∃ l, get_parents id_le g id = inr l ∧ NoDup l ∧
    (∀ p, p ∈ l ↔ p ∈ parent_ids n) ∧ (Total id_le → Sorted id_le l).
Proof.
  intros Hid. unfold get_parents. rewrite Hid. eexists. split; [done|].
  split; [apply NoDup_ids_in_order|]. split; [apply elem_of_ids_in_order|].
  intros Htot. by apply Sorted_merge_sort.
Qed.

Lemma get_parents_root stem_id g :
  I2 stem_id g → get_parents id_le g stem_id = inr [].
Proof.
  intros (r & Hr & Hre). unfold get_parents. rewrite Hr, Hre.
  by rewrite ids_in_order_empty.
Qed.

End get_parents_facts.

(** ** The scenarios *)

Section scenario_facts.
Import Scenario.

Lemma root_only_lifetime P : lifetime "S" string_le P root_only.
Proof. apply lifetime_new. Qed.

Lemma chain_lifetime P : lifetime "S" string_le P chain.
Proof.
  apply (lifetime_create "S" string_le P with_X 3 NoFault "Y" ["X"]
           (Done chain) chain); [|reflexivity|by left].
  apply (lifetime_create "S" string_le P root_only 2 NoFault "X" ["S"]
           (Done with_X) with_X); [|reflexivity|by left].
  apply lifetime_new.
Qed.

Lemma diamond_lifetime P : lifetime "S" string_le P diamond.
Proof.
  apply (lifetime_create "S" string_le P with_A_B 4 NoFault "C" ["A"; "B"]
           (Done diamond) diamond); [|reflexivity|by left].
  apply (lifetime_create "S" string_le P with_A 3 NoFault "B" ["S"]
           (Done with_A_B) with_A_B); [|reflexivity|by left].
  apply (lifetime_create "S" string_le P root_only 2 NoFault "A" ["S"]
           (Done with_A) with_A); [|reflexivity|by left].
  apply lifetime_new.
Qed.

Lemma root_with_parent_lifetime :
  lifetime "S" string_le (λ _, True) root_with_parent.
Proof.
  apply (lifetime_connect "S" string_le _ with_A false "S" "A"
           (Done root_with_parent) root_with_parent); [|done|reflexivity|by left].
  apply (lifetime_create "S" string_le _ root_only 2 NoFault "A" ["S"]
           (Done with_A) with_A); [|reflexivity|by left].
  apply lifetime_new.
Qed.

End scenario_facts.
(** ** The outcomes of the three mutating calls *)

Section outcomes.
Context `{Countable K}.
Variable id_le : relation K.
Context `{!RelDecision id_le}.
Variable stem_id : K.

Implicit Types (g : gmap K (Node K)) (n : Node K).

Lemma remove_root throws fuel g :
  remove id_le stem_id throws (S fuel) g stem_id = Raised TriedToRemoveStemVirus g.
Proof. simpl. by rewrite decide_True. Qed.

Lemma remove_absent throws fuel g id :
  id ≠ stem_id → g !! id = None →
  remove id_le stem_id throws (S fuel) g id = Raised VirusNotFound g.
Proof. intros Hne Hid. simpl. by rewrite decide_False, Hid. Qed.

(** [remove] keeps I1 to I4 on a consistent acyclic graph, whether it
    returns or raises, when no [catch] block fails. *)
Lemma remove_keeps_I1_4 throws g id :
  (∀ v c, throws (Reinsert v c) = false) →
  consistent stem_id g → acyclic g →
  ∃ fuel g',
    ((∀ f, fuel ≤ f → remove id_le stem_id throws f g id = Done g') ∨
     (∃ e, ∀ f, fuel ≤ f → remove id_le stem_id throws f g id = Raised e g')) ∧
    I1_4 stem_id g'.
Proof.
  intros Hre Hcons Hac.
  destruct (decide (id = stem_id)) as [->|Hne].
  { exists 1, g. split; [|apply Hcons]. right. exists TriedToRemoveStemVirus.
    intros [|f] Hf; [lia|]. apply remove_root. }
  destruct (g !! id) as [n|] eqn:Hid; cycle 1.
  { exists 1, g. split; [|apply Hcons]. right. exists VirusNotFound.
    intros [|f] Hf; [lia|]. by apply remove_absent. }
  destruct (remove_consistent id_le stem_id throws g id n Hre Hcons Hac Hid Hne)
    as (fuel & o & Hrun & Hpost).
  destruct o as [g'|e g'| |]; simpl in Hpost; try done.
  - exists fuel, g'. split; [by left|]. apply weak_I1_4, Hpost.
  - destruct Hpost as [-> [Hw Hf _]]. exists fuel, g'. split; [by eauto|].
    apply weak_I1_4. apply (weak_drop stem_id ∅ id g' n).
    + eapply weak_mono; [|done]. set_solver.
    + rewrite Hf by set_solver. done.
    + destruct Hcons as [(_ & _ & H3 & _) _]. by eapply H3.
Qed.

Lemma create_absent_parent a flt id ps g p :
  g !! id = None → p ∈ ps → g !! p = None →
  create a flt id ps g = Raised VirusNotFound g.
Proof.
  intros Hid Hp Hnone. unfold create. destruct ps as [|p0 ps0] eqn:Hps.
  { by apply elem_of_nil in Hp. }
  rewrite <- Hps in *. by rewrite Hid, (find_parents_None g ps p).
Qed.

Lemma create_existing a flt id ps g :
  is_Some (g !! id) → ps ≠ [] →
  create a flt id ps g = Raised VirusAlreadyCreated g.
Proof.
  intros [n Hid] Hne. unfold create. destruct ps; [done|]. by rewrite Hid.
Qed.

End outcomes.
(** ** The properties of the specification *)

(** C1, as the code has it.  On a graph that satisfies I1 to I5 and whose
    child sets mirror its parent sets, when nothing fails,
    [remove(id)] of a node other than the root returns, deletes
    [id], and leaves exactly the nodes that keep a path from the root through
    the edges that do not touch [id], each with the parents that are left.
    With root [S]: after [create("X","S")], [create("Y","X")], [remove("X")]
    only [S] is left; after [create("A","S")], [create("B","S")],
    [create("C",{"A","B"})], [remove("A")] the node [C] is left with the
    parents [{B}], and [S] and [B] with theirs. *)
Theorem remove_deletes_unreachable `{Countable K} (id_le : relation K)
    `{!RelDecision id_le} (stem_id : K) (g : gmap K (Node K)) (id : K) :
  consistent stem_id g → acyclic g → is_Some (g !! id) → id ≠ stem_id →
  removes_unreachable stem_id id_le g id ∧
  remove string_le "S" no_throw 3 Scenario.chain "X" = Done Scenario.root_only ∧
  (∃ g', remove string_le "S" no_throw 3 Scenario.diamond "A" = Done g' ∧
     exists_ g' "A" = false ∧ exists_ g' "C" = true ∧
     get_parents string_le g' "C" = inr ["B"] ∧
     get_parents string_le g' "B" = inr ["S"] ∧
     get_parents string_le g' "S" = inr [] ∧
     get_children g' "B" = inr ["C"] ∧ get_children g' "S" = inr ["B"]).
Proof.
  intros Hcons Hac [n Hid] Hne. split; [|split].
  - by apply (remove_exact id_le stem_id g id n).
  - vm_compute. reflexivity.
  - exists (Scenario.run (remove string_le "S" no_throw 3 Scenario.diamond "A")).
    repeat split; vm_compute; reflexivity.
Qed.

Lemma remove_deletes_unreachable_witness :
  consistent "S" Scenario.diamond ∧ acyclic Scenario.diamond ∧
  is_Some (Scenario.diamond !! "A") ∧ "A" ≠ "S" ∧
  removes_unreachable "S" string_le Scenario.diamond "A".
Proof.
  assert (consistent "S" Scenario.diamond) as H1 by compute_done.
  assert (acyclic Scenario.diamond) as H2
    by (apply (ranked_acyclic Scenario.rank); compute_done).
  assert (is_Some (Scenario.diamond !! "A")) as H3 by compute_done.
  assert ("A" ≠ "S") as H4 by done.
  split; [exact H1|]. split; [exact H2|]. split; [exact H3|]. split; [exact H4|].
  apply (remove_deletes_unreachable string_le "S" Scenario.diamond "A" H1 H2 H3 H4).
Defined.

(** C1 as it is stated, for every graph, fails on graphs that calls of the
    interface build.  After [create("A","S")] and a [create("B","A")] whose
    [push_back] failed, the graph satisfies I1 to I4 and has no cycle, the
    child set of [A] holds the handle of an object that has no node, and
    [remove("A")] looks that node up and uses the end iterator.  After
    [create("P","S")], [create("A","P")], [create("B","A")] and
    [connect("A","B")], [remove("P")] returns and leaves [A] and [B] in the
    table, which no path from the root reaches. *)
Lemma remove_deletes_unreachable_counterexample :
  (lifetime "S" string_le (λ child_id, child_id ≠ "S") Scenario.leaked ∧
   I1_4 "S" Scenario.leaked ∧ acyclic Scenario.leaked ∧
   is_Some (Scenario.leaked !! "A") ∧ "A" ≠ "S" ∧
   remove string_le "S" no_throw 5 Scenario.leaked "A" = Undefined) ∧
  (lifetime "S" string_le (λ child_id, child_id ≠ "S") Scenario.tied ∧
   consistent "S" Scenario.tied ∧
   is_Some (Scenario.tied !! "P") ∧ "P" ≠ "S" ∧
   remove string_le "S" no_throw 2 Scenario.tied "P"
     = Done Scenario.orphan_cycle ∧
   exists_ Scenario.orphan_cycle "A" = true ∧
   exists_ Scenario.orphan_cycle "B" = true ∧
   ¬ survives "S" Scenario.tied "P" "A" ∧
   ¬ survives "S" Scenario.tied "P" "B").
Proof.
  assert (∀ y, edge Scenario.tied "S" y → y = "P") as Hroot.
  { assert (map_Forall (λ y n, "S" ∈ parent_ids n → y = "P") Scenario.tied)
      as Hpar by compute_done.
    intros y [(h & (pn & Hpn & Hh) & Hy)|(n & Hn & Hp)].
    - assert (pn = mkNode (1%positive, "S") ∅ {[(2%positive, "P")]}) as ->.
      { assert (Scenario.tied !! "S"
                  = Some (mkNode (1%positive, "S") ∅ {[(2%positive, "P")]}))
          as Hs by (vm_compute; reflexivity).
        congruence. }
      simpl in Hh. apply elem_of_singleton in Hh. by subst.
    - by apply (Hpar y n). }
  assert (∀ x, survives "S" Scenario.tied "P" x → x = "S") as Hcut.
  { intros x Hx. unfold survives in Hx.
    destruct (rtc_inv _ _ Hx) as [<-|(y & (Hy & _ & Hne) & _)]; [done|].
    by destruct Hne, (Hroot y Hy). }
  split.
  - split; [|split; [compute_done|split; [|split; [compute_done|split]]]].
    + apply (lifetime_create "S" string_le _ Scenario.with_A 3 (EdgePushFails 0)
               "B" ["A"] (Raised bad_alloc Scenario.leaked) Scenario.leaked);
        [|vm_compute; reflexivity|right; by eexists].
      apply (lifetime_create "S" string_le _ Scenario.root_only 2 NoFault "A"
               ["S"] (Done Scenario.with_A) Scenario.with_A);
        [|reflexivity|by left].
      apply lifetime_new.
    + apply (ranked_acyclic Scenario.depth). compute_done.
    + discriminate.
    + vm_compute. reflexivity.
  - split; [|split; [compute_done|split; [compute_done|split; [discriminate|]]]].
    + set (gP := Scenario.run (create 2 NoFault "P" ["S"] Scenario.root_only)).
      set (gA := Scenario.run (create 3 NoFault "A" ["P"] gP)).
      set (gB := Scenario.run (create 4 NoFault "B" ["A"] gA)).
      apply (lifetime_connect "S" string_le _ gB false "A" "B"
               (Done Scenario.tied) Scenario.tied);
        [|discriminate|reflexivity|by left].
      apply (lifetime_create "S" string_le _ gA 4 NoFault "B" ["A"]
               (Done gB) gB); [|reflexivity|by left].
      apply (lifetime_create "S" string_le _ gP 3 NoFault "A" ["P"]
               (Done gA) gA); [|reflexivity|by left].
      apply (lifetime_create "S" string_le _ Scenario.root_only 2 NoFault "P"
               ["S"] (Done gP) gP); [|reflexivity|by left].
      apply lifetime_new.
    + split; [vm_compute; reflexivity|]. split; [vm_compute; reflexivity|].
      split; [vm_compute; reflexivity|].
      split; intros Hs; apply Hcut in Hs; discriminate Hs.
Qed.

(** C2.  The claim that a [remove] that raises leaves the graph as it was
    does not hold of the code: the [catch] block puts [id] back among the
    parents of the child whose removal raised, and leaves the children
    visited before it as they are.  On the graph [S -> X -> {Y, Z}], with
    [get_id] throwing for [Z], [remove("X")] raises after [Y] has left the
    table; when [connect("S","Y")] and [connect("S","Z")] have made the root
    a child of [Y] and [Z], [remove("X")] raises [TriedToRemoveStemVirus]
    after one of the two has left the table, whichever comes first. *)
Theorem remove_not_atomic :
  (consistent "S" (Scenario.fork 3 4) ∧ acyclic (Scenario.fork 3 4) ∧
   ∃ g', remove string_le "S" Scenario.Z_throws 5 (Scenario.fork 3 4) "X"
           = Raised bad_alloc g' ∧
         g' ≠ Scenario.fork 3 4 ∧
         exists_ (Scenario.fork 3 4) "Y" = true ∧ exists_ g' "Y" = false ∧
         get_children g' "X" = inr ["Y"; "Z"]) ∧
  (∃ g', remove string_le "S" no_throw 5 (Scenario.knot 3 4) "X"
           = Raised TriedToRemoveStemVirus g' ∧
         g' ≠ Scenario.knot 3 4 ∧ exists_ g' "Y" = false) ∧
  (∃ g', remove string_le "S" no_throw 5 (Scenario.knot 4 3) "X"
           = Raised TriedToRemoveStemVirus g' ∧
         g' ≠ Scenario.knot 4 3 ∧ exists_ g' "Z" = false).
Proof.
  split; [split; [compute_done|split]|split].
  - apply (ranked_acyclic Scenario.rank). compute_done.
  - exists (Scenario.run
              (remove string_le "S" Scenario.Z_throws 5 (Scenario.fork 3 4) "X")).
    split; [vm_compute; reflexivity|]. split; [|repeat split; vm_compute; reflexivity].
    intros Heq. apply (f_equal (λ g, exists_ g "Y")) in Heq.
    vm_compute in Heq. discriminate Heq.
  - exists (Scenario.run
              (remove string_le "S" no_throw 5 (Scenario.knot 3 4) "X")).
    split; [vm_compute; reflexivity|]. split; [|vm_compute; reflexivity].
    intros Heq. apply (f_equal (λ g, exists_ g "Y")) in Heq.
    vm_compute in Heq. discriminate Heq.
  - exists (Scenario.run
              (remove string_le "S" no_throw 5 (Scenario.knot 4 3) "X")).
    split; [vm_compute; reflexivity|]. split; [|vm_compute; reflexivity].
    intros Heq. apply (f_equal (λ g, exists_ g "Z")) in Heq.
    vm_compute in Heq. discriminate Heq.
Qed.

(** C3, as the code has it.  On a graph that satisfies I1 to I4, [create]
    whose parent list has no duplicates (or in which no insertion fails) and
    [connect] whose first argument is not the root leave a graph that
    satisfies I1 to I4, whether they return or raise, wherever an insertion
    fails.  When moreover the child sets mirror the parent sets and the
    graph is acyclic, so does [remove], whether it returns or raises,
    wherever a [get_id] or the recording of the parents fails, as long as no
    [catch] block fails to put a parent back. *)
Theorem calls_keep_invariants `{Countable K} (id_le : relation K)
    `{!RelDecision id_le} (stem_id : K) (g : gmap K (Node K)) :
  I1_4 stem_id g →
  (∀ a flt id parent_ids, flt = NoFault ∨ NoDup parent_ids →
     ∃ g', (create a flt id parent_ids g = Done g' ∨
            ∃ e, create a flt id parent_ids g = Raised e g') ∧
           I1_4 stem_id g') ∧
  (∀ flt child_id parent_id, child_id ≠ stem_id →
     ∃ g', (connect flt child_id parent_id g = Done g' ∨
            ∃ e, connect flt child_id parent_id g = Raised e g') ∧
           I1_4 stem_id g') ∧
  (children_mirror g → acyclic g →
   ∀ throws id, (∀ v c, throws (Reinsert v c) = false) →
     ∃ fuel g',
       ((∀ f, fuel ≤ f → remove id_le stem_id throws f g id = Done g') ∨
        (∃ e, ∀ f, fuel ≤ f → remove id_le stem_id throws f g id = Raised e g')) ∧
       I1_4 stem_id g').
Proof.
  intros Hinv. split; [|split].
  - intros a flt id ps Hor.
    destruct (create_defined a flt id ps g Hor) as (g' & Hg').
    exists g'. split; [done|].
    pose proof (create_I1_4 stem_id a flt id ps g Hinv) as Hh.
    by destruct Hg' as [Hg'|[e Hg']]; rewrite Hg' in Hh.
  - intros flt c p Hne.
    pose proof (connect_I1_4 stem_id flt c p g Hne Hinv) as Hh.
    pose proof (connect_inv flt c p g) as Hi.
    destruct (connect flt c p g) as [g'|e g'| |]; try done; exists g'; eauto.
  - intros Hmir Hac throws id Hre. by apply remove_keeps_I1_4.
Qed.

Lemma calls_keep_invariants_witness :
  I1_4 "S" Scenario.chain3 ∧ children_mirror Scenario.chain3 ∧
  acyclic Scenario.chain3 ∧
  (∀ v c, Scenario.Z_throws (Reinsert v c) = false) ∧
  remove string_le "S" Scenario.Z_throws 5 Scenario.chain3 "X"
    = Raised bad_alloc Scenario.chain3 ∧
  ∃ fuel g',
    ((∀ f, fuel ≤ f →
        remove string_le "S" Scenario.Z_throws f Scenario.chain3 "X" = Done g') ∨
     (∃ e, ∀ f, fuel ≤ f →
        remove string_le "S" Scenario.Z_throws f Scenario.chain3 "X"
          = Raised e g')) ∧
    I1_4 "S" g'.
Proof.
  assert (I1_4 "S" Scenario.chain3) as H1 by compute_done.
  assert (children_mirror Scenario.chain3) as H2 by compute_done.
  assert (acyclic Scenario.chain3) as H3
    by (apply (ranked_acyclic Scenario.depth); compute_done).
  assert (∀ v c, Scenario.Z_throws (Reinsert v c) = false) as H4
    by (intros v c; apply bool_decide_eq_false_2; discriminate).
  split; [exact H1|]. split; [exact H2|]. split; [exact H3|].
  split; [exact H4|]. split; [vm_compute; reflexivity|].
  exact (proj2 (proj2 (calls_keep_invariants string_le "S" Scenario.chain3 H1))
           H2 H3 Scenario.Z_throws "X" H4).
Defined.

(** C3 as it is stated fails: [connect("S","A")] returns and leaves the root
    with a parent, and a [create] with the parent list [{"S","S"}] whose
    table insertion fails erases through one iterator twice.  When the
    [catch] block of [remove("X")] fails to put [X] back among the parents
    of [Y], the call raises and leaves [Y] in the table without a parent.
    Of [remove] nothing can be said on a cycle, where it uses the iterator
    of a parent that the cascade has erased, nor on a graph whose child sets
    hold the handle of a node that is gone. *)
Lemma calls_keep_invariants_counterexample :
  consistent "S" Scenario.with_A ∧ acyclic Scenario.with_A ∧
  (∃ g', connect false "S" "A" Scenario.with_A = Done g' ∧ ¬ I1_4 "S" g') ∧
  create 2 TableInsertFails "C" ["S"; "S"] Scenario.root_only = Undefined ∧
  (consistent "S" Scenario.chain3 ∧ acyclic Scenario.chain3 ∧
   ∃ g', remove string_le "S" Scenario.rollback_fails 5 Scenario.chain3 "X"
           = Raised bad_alloc g' ∧
         get_parents string_le g' "Y" = inr [] ∧ ¬ I1_4 "S" g') ∧
  (consistent "S" Scenario.cycle_A_B ∧
   remove string_le "S" no_throw 5 Scenario.cycle_A_B "A" = Undefined) ∧
  (I1_4 "S" Scenario.half_removed ∧ acyclic Scenario.half_removed ∧
   remove string_le "S" no_throw 5 Scenario.half_removed "X" = Undefined).
Proof.
  split; [compute_done|]. split.
  { apply (ranked_acyclic Scenario.rank). compute_done. }
  split.
  { exists Scenario.root_with_parent. split; [reflexivity|]. compute_done. }
  split; [vm_compute; reflexivity|]. split.
  { split; [compute_done|]. split.
    { apply (ranked_acyclic Scenario.depth). compute_done. }
    exists (Scenario.run
              (remove string_le "S" Scenario.rollback_fails 5 Scenario.chain3 "X")).
    split; [vm_compute; reflexivity|]. split; [vm_compute; reflexivity|].
    compute_done. }
  split.
  { split; [compute_done|vm_compute; reflexivity]. }
  split; [compute_done|]. split; [|vm_compute; reflexivity].
  apply (ranked_acyclic Scenario.rank). compute_done.
Qed.

(** C4, as the code has it.  For an identifier that is not in the table and
    a parent list that is not empty: if a parent is absent, [create] raises
    [VirusNotFound] and leaves the graph as it was; if the parents are all
    there and no two are the same, and a child-set insertion or the table
    insertion fails, [create] undoes the insertions it has made and raises
    with the graph as it was. *)
Theorem create_is_transactional `{Countable K} (a : positive) (flt : fault)
    (id : K) (parent_ids : list K) (g : gmap K (Node K)) :
  g !! id = None → parent_ids ≠ [] →
  ((∃ p, p ∈ parent_ids ∧ g !! p = None) →
     create a flt id parent_ids g = Raised VirusNotFound g) ∧
  ((∀ p, p ∈ parent_ids → is_Some (g !! p)) → NoDup parent_ids → fresh a g →
   (flt = TableInsertFails ∨
    ∃ i, flt = ChildInsertFails i ∧ i < length parent_ids) →
     create a flt id parent_ids g = Raised bad_alloc g).
Proof.
  intros Hid Hne. split.
  - intros (p & Hp & Hnone). by eapply create_absent_parent.
  - intros Hall Hnd Hfresh Hflt. by apply create_failure_restores.
Qed.

Lemma create_is_transactional_witness :
  Scenario.with_A_B !! "C" = None ∧ ["A"; "B"] ≠ [] ∧
  (∀ p, p ∈ ["A"; "B"] → is_Some (Scenario.with_A_B !! p)) ∧
  NoDup ["A"; "B"] ∧ fresh 4 Scenario.with_A_B ∧
  create 4 (ChildInsertFails 1) "C" ["A"; "B"] Scenario.with_A_B
    = Raised bad_alloc Scenario.with_A_B.
Proof.
  assert (Scenario.with_A_B !! "C" = None) as H1 by (vm_compute; reflexivity).
  assert (["A"; "B"] ≠ []) as H2 by discriminate.
  assert (∀ p, p ∈ ["A"; "B"] → is_Some (Scenario.with_A_B !! p)) as H3.
  { intros p Hp. apply (bool_decide_unpack _).
    revert p Hp. apply Forall_forall. repeat constructor. }
  assert (NoDup ["A"; "B"]) as H4 by compute_done.
  assert (fresh 4 Scenario.with_A_B) as H5 by compute_done.
  repeat (split; [assumption|]).
  apply (create_is_transactional 4 (ChildInsertFails 1) "C" ["A"; "B"]
           Scenario.with_A_B H1 H2); [exact H3|exact H4|exact H5|].
  right. exists 1. split; [reflexivity|]. simpl. lia.
Defined.

(** C4 as it is stated fails: with [S] in the table and no [Q],
    [create("S",{"Q"})] raises [VirusAlreadyCreated]; and the rollback of
    [create("C",{"S","S"})] erases through one iterator twice. *)
Lemma create_is_transactional_counterexample :
  (∃ p, p ∈ ["Q"] ∧ Scenario.root_only !! p = None) ∧
  create 2 NoFault "S" ["Q"] Scenario.root_only
    = Raised VirusAlreadyCreated Scenario.root_only ∧
  create 2 NoFault "S" ["Q"] Scenario.root_only
    ≠ Raised VirusNotFound Scenario.root_only ∧
  create 2 TableInsertFails "C" ["S"; "S"] Scenario.root_only = Undefined.
Proof.
  split; [exists "Q"; split; [by left|reflexivity]|].
  split; [reflexivity|]. split; [discriminate|]. vm_compute. reflexivity.
Qed.

(** C5, as the code has it.  [remove] of the root raises
    [TriedToRemoveStemVirus] whatever the table holds, before any lookup;
    [remove] of any other identifier that is not in the table raises
    [VirusNotFound]; both leave the graph as it was.  The root is in the
    table throughout the lifetime of the object, and it has no parents for
    as long as no [connect] call has the root as its first argument. *)
Theorem root_is_permanent `{Countable K} (id_le : relation K)
    `{!RelDecision id_le} (stem_id : K) (g : gmap K (Node K)) :
  (∀ throws fuel,
     remove id_le stem_id throws (S fuel) g stem_id
       = Raised TriedToRemoveStemVirus g) ∧
  (∀ throws fuel id, id ≠ stem_id → g !! id = None →
     remove id_le stem_id throws (S fuel) g id = Raised VirusNotFound g) ∧
  (lifetime stem_id id_le (λ _, True) g → is_Some (g !! stem_id)) ∧
  (lifetime stem_id id_le (λ child_id, child_id ≠ stem_id) g → I2 stem_id g).
Proof.
  split; [|split; [|split]].
  - intros throws fuel. apply remove_root.
  - intros throws fuel id. apply remove_absent.
  - apply lifetime_root_exists.
  - intros Hlife. by apply (lifetime_root_kept id_le stem_id g Hlife).
Qed.

Lemma root_is_permanent_witness :
  lifetime "S" string_le (λ child_id, child_id ≠ "S") Scenario.chain ∧
  "Q" ≠ "S" ∧ Scenario.chain !! "Q" = None ∧
  I2 "S" Scenario.chain ∧
  remove string_le "S" no_throw 1 Scenario.chain "Q"
    = Raised VirusNotFound Scenario.chain.
Proof.
  pose proof (root_is_permanent string_le "S" Scenario.chain) as (_ & Habs & _ & Hpar).
  assert ("Q" ≠ "S") as H1 by discriminate.
  assert (Scenario.chain !! "Q" = None) as H2 by (vm_compute; reflexivity).
  split; [apply chain_lifetime|]. split; [exact H1|]. split; [exact H2|].
  split; [apply Hpar, chain_lifetime|]. exact (Habs no_throw 0 "Q" H1 H2).
Defined.

(** C5 as it is stated fails: after [create("A","S")] and
    [connect("S","A")] the root has the parent [A]. *)
Lemma root_is_permanent_counterexample :
  lifetime "S" string_le (λ _, True) Scenario.root_with_parent ∧
  ¬ I2 "S" Scenario.root_with_parent.
Proof. split; [apply root_with_parent_lifetime|compute_done]. Qed.

(** C6.  [connect(child_id, parent_id)]: when [parent_id] is a parent of
    [child_id] already, the call returns with the graph as it was; a second
    call with the arguments of a call that returned returns with the graph
    the first call left; when one of the two is not in the table the call
    raises [VirusNotFound]; when the insertion into the child set of the
    parent fails, the parent is taken out of the parent set of the child
    again and the call raises with the graph as it was. *)
Theorem connect_idempotent `{Countable K} (flt : bool) (child_id parent_id : K)
    (g : gmap K (Node K)) :
  (∀ cn, g !! child_id = Some cn → is_Some (g !! parent_id) →
     parent_id ∈ parent_ids cn → connect flt child_id parent_id g = Done g) ∧
  (∀ flt1 g1, connect flt1 child_id parent_id g = Done g1 →
     connect flt child_id parent_id g1 = Done g1) ∧
  (g !! child_id = None ∨ g !! parent_id = None →
     connect flt child_id parent_id g = Raised VirusNotFound g) ∧
  (∀ cn, g !! child_id = Some cn → is_Some (g !! parent_id) →
     parent_id ∉ parent_ids cn →
     connect true child_id parent_id g = Raised bad_alloc g).
Proof.
  split; [|split; [|split]].
  - intros cn. apply connect_already.
  - intros flt1 g1. apply connect_twice.
  - apply connect_absent.
  - intros cn. apply connect_fault_restores.
Qed.

Lemma connect_idempotent_witness :
  (∃ g1, connect false "Y" "S" Scenario.chain = Done g1 ∧
         connect false "Y" "S" g1 = Done g1 ∧ g1 ≠ Scenario.chain) ∧
  connect true "Y" "S" Scenario.chain = Raised bad_alloc Scenario.chain ∧
  connect false "Q" "S" Scenario.chain = Raised VirusNotFound Scenario.chain.
Proof.
  pose proof (connect_idempotent false "Y" "S" Scenario.chain)
    as (_ & Htwice & _ & Hfault).
  pose proof (connect_idempotent false "Q" "S" Scenario.chain)
    as (_ & _ & Habs & _).
  split; [|split].
  - exists (Scenario.run (connect false "Y" "S" Scenario.chain)).
    assert (connect false "Y" "S" Scenario.chain
            = Done (Scenario.run (connect false "Y" "S" Scenario.chain))) as H1
      by (vm_compute; reflexivity).
    split; [exact H1|]. split; [exact (Htwice false _ H1)|].
    intros Heq. apply (f_equal (λ g, get_parents string_le g "Y")) in Heq.
    vm_compute in Heq. discriminate Heq.
  - apply (Hfault (mkNode (3%positive, "Y") {["X"]} ∅)).
    + vm_compute. reflexivity.
    + apply (bool_decide_unpack _). vm_compute. exact I.
    + apply (bool_decide_unpack _). vm_compute. exact I.
  - apply Habs. left. vm_compute. reflexivity.
Defined.

(** C7, as the code has it.  [create(id, parent_ids)] with an identifier
    that is in the table and a parent list that is not empty raises
    [VirusAlreadyCreated] and leaves the graph as it was. *)
Theorem create_existing_raises `{Countable K} (a : positive) (flt : fault)
    (id : K) (parent_ids : list K) (g : gmap K (Node K)) :
  is_Some (g !! id) → parent_ids ≠ [] →
  create a flt id parent_ids g = Raised VirusAlreadyCreated g.
Proof. apply create_existing. Qed.

Lemma create_existing_raises_witness :
  is_Some (Scenario.chain !! "Y") ∧ ["S"] ≠ [] ∧
  create 7 NoFault "Y" ["S"] Scenario.chain
    = Raised VirusAlreadyCreated Scenario.chain.
Proof.
  assert (is_Some (Scenario.chain !! "Y")) as H1 by compute_done.
  assert (["S"] ≠ []) as H2 by discriminate.
  split; [exact H1|]. split; [exact H2|].
  apply (create_existing_raises 7 NoFault "Y" ["S"] Scenario.chain H1 H2).
Defined.

(** C7 as it is stated fails: with the empty parent list, [create] on an
    identifier that is in the table returns and raises nothing. *)
Lemma create_existing_raises_counterexample :
  is_Some (Scenario.root_only !! "S") ∧
  create 2 NoFault "S" [] Scenario.root_only = Done Scenario.root_only ∧
  create 2 NoFault "S" [] Scenario.root_only
    ≠ Raised VirusAlreadyCreated Scenario.root_only.
Proof. split; [compute_done|]. split; [reflexivity|discriminate]. Qed.

(** C8.  [create(id, {})] returns without an error and leaves the graph as
    it was, whether [id] is in the table or not. *)
Theorem create_empty_is_noop `{Countable K} (a : positive) (flt : fault)
    (id : K) (g : gmap K (Node K)) :
  create a flt id [] g = Done g.
Proof. reflexivity. Qed.

(** C9, as the code has it.  [get_parents(id)] raises [VirusNotFound] when
    [id] is not in the table; otherwise it returns, as a sequence of its
    own, the parents of [id] in the order of the identifiers, each once.  For
    the root the sequence is empty as long as no [connect] call has had the
    root as its first argument. *)
Theorem get_parents_snapshot `{Countable K} (id_le : relation K)
    `{!RelDecision id_le} (stem_id : K) (g : gmap K (Node K)) (id : K) :
  (g !! id = None → get_parents id_le g id = inl VirusNotFound) ∧
  (∀ n, g !! id = Some n →
     ∃ l, get_parents id_le g id = inr l ∧ NoDup l ∧
       (∀ p, p ∈ l ↔ p ∈ parent_ids n) ∧ (Total id_le → Sorted id_le l)) ∧
  (lifetime stem_id id_le (λ child_id, child_id ≠ stem_id) g →
     get_parents id_le g stem_id = inr []).
Proof.
  split; [|split].
  - apply get_parents_absent.
  - intros n. apply get_parents_present.
  - intros Hlife. apply get_parents_root.
    by apply (lifetime_root_kept id_le stem_id g Hlife).
Qed.

Lemma get_parents_snapshot_witness :
  lifetime "S" string_le (λ child_id, child_id ≠ "S") Scenario.diamond ∧
  get_parents string_le Scenario.diamond "S" = inr [] ∧
  get_parents string_le Scenario.diamond "C" = inr ["A"; "B"] ∧
  get_parents string_le Scenario.diamond "Q" = inl VirusNotFound.
Proof.
  pose proof (get_parents_snapshot string_le "S" Scenario.diamond "Q")
    as (Habs & _ & Hroot).
  assert (lifetime "S" string_le (λ child_id, child_id ≠ "S") Scenario.diamond)
    as Hlife by apply diamond_lifetime.
  split; [exact Hlife|]. split; [exact (Hroot Hlife)|].
  split; [vm_compute; reflexivity|]. apply Habs. vm_compute. reflexivity.
Defined.

(** C9 as it is stated fails: after [create("A","S")] and
    [connect("S","A")], [get_parents("S")] returns [{"A"}]. *)
Lemma get_parents_snapshot_counterexample :
  lifetime "S" string_le (λ _, True) Scenario.root_with_parent ∧
  get_parents string_le Scenario.root_with_parent "S" = inr ["A"] ∧
  get_parents string_le Scenario.root_with_parent "S" ≠ inr [].
Proof.
  split; [apply root_with_parent_lifetime|].
  split; [vm_compute; reflexivity|]. vm_compute. discriminate.
Qed.

(** C10.  On a graph whose edges form no cycle, [remove(id)] ends: from
    some depth of recursion on, every run gives one and the same outcome. *)
Theorem remove_terminates `{Countable K} (id_le : relation K)
    `{!RelDecision id_le} (stem_id : K) (throws : remove_point K → bool)
    (g : gmap K (Node K)) (id : K) :
  acyclic g →
  ∃ fuel o, o ≠ OutOfFuel ∧
    ∀ f, fuel ≤ f → remove id_le stem_id throws f g id = o.
Proof.
  intros Hac. apply (remove_ends id_le stem_id throws (edge g)).
  - by apply acyclic_sn.
  - intros p pn h Hp Hh. left. exists h. split; [|done]. by exists pn.
Qed.

Lemma remove_terminates_witness :
  acyclic Scenario.diamond ∧
  ∃ fuel o, o ≠ OutOfFuel ∧
    ∀ f, fuel ≤ f → remove string_le "S" no_throw f Scenario.diamond "A" = o.
Proof.
  assert (acyclic Scenario.diamond) as H1
    by (apply (ranked_acyclic Scenario.rank); compute_done).
  split; [exact H1|].
  apply (remove_terminates string_le "S" no_throw Scenario.diamond "A" H1).
Defined.

(** * Further facts about the header *)

(** ** The steps of an iterator *)

Section children_view_facts.
Context `{Countable K}.

Implicit Types (g : gmap K (Node K)) (h x : handle K).
Implicit Types (l pre rest : list (handle K)) (m : option (handle K)).

Lemma successor_app pre h rest :
  h ∉ pre → successor h (pre ++ h :: rest) = Some (head rest).
Proof.
  induction pre as [|x pre IH]; intros Hh; simpl.
  - by rewrite decide_True.
  - rewrite decide_False by set_solver. apply IH. set_solver.
Qed.

Lemma successor_inv h l m :
  successor h l = Some m →
  ∃ pre rest, l = pre ++ h :: rest ∧ (h ∉ pre) ∧ m = head rest.
Proof.
  induction l as [|x l IH]; simpl; [done|].
  destruct (decide (x = h)) as [->|Hne].
  - intros [= <-]. exists [], l. split; [done|]. split; [set_solver|done].
  - intros (pre & rest & -> & Hpre & ->)%IH.
    exists (x :: pre), rest. split; [done|]. split; [set_solver|done].
Qed.

Lemma predecessor_app pre x rest :
  NoDup (pre ++ x :: rest) →
  predecessor (head rest) (pre ++ x :: rest) = Some x.
Proof.
  induction pre as [|y pre IH]; intros Hnd; simpl.
  - by rewrite decide_True.
  - apply NoDup_cons in Hnd as [Hy Hnd]. rewrite decide_False; [by apply IH|].
    intros Heq. apply NoDup_app in Hnd as (_ & Hpre & Hxr).
    apply NoDup_cons in Hxr as [Hx _].
    destruct rest as [|z rest]; destruct pre as [|y' pre]; simpl in *;
      simplify_eq; set_solver.
Qed.

Lemma predecessor_inv m l x :
  predecessor m l = Some x → ∃ pre rest, l = pre ++ x :: rest ∧ m = head rest.
Proof.
  induction l as [|y l IH]; simpl; [done|].
  destruct (decide (head l = m)) as [<-|Hne].
  - intros [= <-]. by exists [], l.
  - intros (pre & rest & -> & ->)%IH. by exists (y :: pre), rest.
Qed.

Lemma Iterator_ne_false (a b : Iterator K) : Iterator_ne a b = false ↔ a = b.
Proof.
  unfold Iterator_ne, Iterator_eq. rewrite negb_false_iff.
  apply bool_decide_eq_true.
Qed.

Lemma Iterator_ne_true (a b : Iterator K) : Iterator_ne a b = true ↔ a ≠ b.
Proof.
  unfold Iterator_ne, Iterator_eq. rewrite negb_true_iff.
  apply bool_decide_eq_false.
Qed.

Lemma walk_suffix g id n pre rest :
  g !! id = Some n →
  handles_in_order (children_virus_ptrs n) = pre ++ rest →
  walk g (length rest) (mkIterator id (head rest)) (mkIterator id None)
    = Some rest.
Proof.
  intros Hn. revert pre. induction rest as [|h rest IH]; intros pre Hl; simpl.
  - by rewrite (proj2 (Iterator_ne_false _ _)).
  - rewrite (proj2 (Iterator_ne_true _ _)) by done.
    pose proof (NoDup_handles_in_order (children_virus_ptrs n)) as Hnd.
    rewrite Hl in Hnd.
    unfold deref, incr, children_of. simpl. rewrite Hn. simpl. rewrite Hl.
    rewrite decide_True by set_solver. simpl.
    rewrite successor_app by (apply NoDup_app in Hnd; set_solver). simpl.
    rewrite (IH (pre ++ [h])); [done|]. by rewrite <- app_assoc.
Qed.

Lemma walk_back_prefix g id n pre rest :
  g !! id = Some n →
  handles_in_order (children_virus_ptrs n) = pre ++ rest →
  walk_back g (length pre)
      (mkIterator id (head (pre ++ rest))) (mkIterator id (head rest))
    = Some (reverse pre).
Proof.
  intros Hn. revert rest. induction pre as [|x pre IH] using rev_ind;
    intros rest Hl; simpl.
  - by rewrite (proj2 (Iterator_ne_false _ _)).
  - pose proof (NoDup_handles_in_order (children_virus_ptrs n)) as Hnd.
    rewrite Hl in Hnd. rewrite <- app_assoc in Hl, Hnd. simpl in Hl, Hnd.
    rewrite length_app. simpl. rewrite Nat.add_1_r. simpl.
    rewrite (proj2 (Iterator_ne_true _ _)).
    2:{ intros [= Heq]. rewrite <- app_assoc in Heq. simpl in Heq.
        apply NoDup_app in Hnd as (_ & Hpre & Hxr).
        apply NoDup_cons in Hxr as [Hx _].
        destruct rest as [|z rest]; destruct pre as [|y' pre]; simpl in *;
          simplify_eq; set_solver. }
    unfold deref, decr, children_of. simpl. rewrite Hn. simpl. rewrite Hl.
    rewrite predecessor_app by done. simpl. rewrite Hn. simpl. rewrite Hl.
    rewrite decide_True by set_solver. simpl.
    rewrite <- app_assoc. simpl.
    pose proof (IH (x :: rest) Hl) as IH'. simpl in IH'. rewrite IH'. simpl.
    by rewrite reverse_snoc.
Qed.

Lemma incr_decr g it it' : incr g it = Some it' → decr g it' = Some it.
Proof.
  destruct it as [id m]. unfold incr, decr, children_of. simpl.
  destruct (g !! id) as [n|] eqn:Hn; simpl; [|done].
  destruct m as [h|]; simpl; [|done].
  destruct (successor _ _) as [m'|] eqn:Hs; simpl; [|done].
  intros [= <-]. simpl. rewrite Hn. simpl.
  apply successor_inv in Hs as (pre & rest & Hl & _ & ->).
  pose proof (NoDup_handles_in_order (children_virus_ptrs n)) as Hnd.
  rewrite Hl in *. by rewrite predecessor_app.
Qed.

Lemma decr_incr g it it' : decr g it = Some it' → incr g it' = Some it.
Proof.
  destruct it as [id m]. unfold incr, decr, children_of. simpl.
  destruct (g !! id) as [n|] eqn:Hn; simpl; [|done].
  destruct (predecessor _ _) as [x|] eqn:Hs; simpl; [|done].
  intros [= <-]. simpl. rewrite Hn. simpl.
  apply predecessor_inv in Hs as (pre & rest & Hl & ->).
  pose proof (NoDup_handles_in_order (children_virus_ptrs n)) as Hnd.
  rewrite Hl in *. rewrite successor_app; [done|].
  apply NoDup_app in Hnd. set_solver.
Qed.

End children_view_facts.

(** ** More about [create] *)

Section create_more.
Context `{Countable K}.

Implicit Types (g : gmap K (Node K)) (n : Node K) (h : handle K).
Implicit Types (ps : list K).

(** What the loop of the [catch] block has done when it ends. *)
Lemma unlink_parents_lookup h e ps g g' :
  unlink_parents h e ps g = Some g' →
  ∀ x, g' !! x = if decide (x ∈ take e ps) then erase_child h <$> g !! x
                 else g !! x.
Proof.
  revert ps g. induction e as [|e IH]; intros ps g; simpl.
  { intros Heq x. assert (g' = g) as -> by (destruct ps; congruence).
    done. }
  destruct ps as [|p ps]; simpl.
  { by intros [= <-] x. }
  destruct (g !! p) as [pn|] eqn:Hp; [|done].
  destruct (decide (h ∈ children_virus_ptrs pn)); [|done].
  intros Hg' x. rewrite (IH _ _ Hg' x), lookup_insert.
  destruct (decide (p = x)) as [->|Hne].
  - rewrite (decide_True (P := x ∈ x :: take e ps)) by left. rewrite Hp.
    case_decide; simpl; by rewrite ?erase_child_idem.
  - destruct (decide (x ∈ take e ps)).
    + by rewrite (decide_True (P := x ∈ p :: take e ps)) by (by right).
    + rewrite (decide_False (P := x ∈ p :: take e ps)); [done|]. set_solver.
Qed.

(** When no [push_back] fails and the handle of the new object is in no
    child set, a [create] that raises leaves the table as it was. *)
Lemma create_raised_restores a flt id ps g e g' :
  (∀ i, flt ≠ EdgePushFails i) →
  (∀ x n, g !! x = Some n → (a, id) ∉ children_virus_ptrs n) →
  create a flt id ps g = Raised e g' → g' = g.
Proof.
  intros Hflt Hout. unfold create.
  destruct ps as [|p0 ps0] eqn:Hps; [done|]. rewrite <- Hps. clear Hps p0 ps0.
  destruct (g !! id) as [n|] eqn:Hid; [congruence|].
  destruct (find_parents g ps) as [its|] eqn:Hfind; [|congruence].
  apply find_parents_inv in Hfind as [-> Hall].
  destruct (new_node_fields a id ps) as (Hv & _). simpl in Hv. rewrite Hv.
  destruct (link_parents flt (a, id) 0 ps g) as [[g1 k] t] eqn:Hlink.
  destruct (link_parents_inv _ _ _ _ _ _ _ _ Hlink) as (k' & Hk & Hlook & Hcase).
  assert (k' = k) as ->.
  { destruct Hcase as [?|[?|(_ & Hp & _)]]; [lia|lia|]. by destruct (Hflt k). }
  assert (create_rollback (a, id) k ps g1 = Raised e g' → g' = g) as Hroll.
  { unfold create_rollback.
    destruct (unlink_parents (a, id) k ps g1) as [g2|] eqn:Hun; [|done].
    intros [= _ <-]. apply map_eq. intros x.
    rewrite (unlink_parents_lookup _ _ _ _ _ Hun x), Hlook.
    case_decide; [|done]. destruct (g !! x) as [n|] eqn:Hx; [|done]. simpl.
    rewrite erase_insert_child; [done|]. by eapply Hout. }
  destruct t; [done|]. by case_decide.
Qed.

Lemma fresh_unlisted a id g :
  fresh a g → ∀ x n, g !! x = Some n → (a, id) ∉ children_virus_ptrs n.
Proof. intros Hfresh x n Hx Hin. by apply (proj2 (Hfresh x n Hx) _ Hin). Qed.

Lemma mirror_unlisted h g :
  children_mirror g → g !! get_id h = None →
  ∀ x n, g !! x = Some n → h ∉ children_virus_ptrs n.
Proof.
  intros Hm Hid x n Hx Hin. destruct (Hm x n Hx h Hin) as (n' & Hn' & _).
  congruence.
Qed.


(** The node a [create] that returns has added, and the nodes it has left. *)
Lemma create_done a flt id ps g g' :
  ps ≠ [] → create a flt id ps g = Done g' →
  g !! id = None ∧ (∀ p, p ∈ ps → is_Some (g !! p)) ∧
  g' !! id = Some (mkNode (a, id) (list_to_set ps) ∅) ∧
  ∀ x, x ≠ id →
    g' !! x = if decide (x ∈ ps) then insert_child (a, id) <$> g !! x
              else g !! x.
Proof.
  intros Hne Hc. pose proof (create_inv a flt id ps g) as Hinv.
  rewrite Hc in Hinv. destruct Hinv as [[? _]|(_ & Hid & Hall & g1 & -> & Hlook)];
    [done|].
  split; [done|]. split; [done|]. split.
  - by rewrite lookup_insert_eq.
  - intros x Hx. by rewrite lookup_insert_ne.
Qed.

Lemma create_returns a id ps g :
  g !! id = None → (∀ p, p ∈ ps → is_Some (g !! p)) →
  ∃ g', create a NoFault id ps g = Done g'.
Proof.
  intros Hid Hall. pose proof (create_inv a NoFault id ps g) as Hinv.
  destruct (create a NoFault id ps g) as [g'|e g'| |]; [by eauto| | |done].
  - destruct Hinv as (_ & [(_ & _ & [? ?])|[(_ & _ & _ & p & Hp & Hnone)|?]]).
    + congruence.
    + destruct (Hall p Hp). congruence.
    + naive_solver.
  - naive_solver.
Qed.

(** The outcome of [create] depends on the identifiers in the parent list
    only, not on their order or on how often each occurs. *)
Lemma create_same_parents a id ps ps' g :
  ps ≠ [] → ps' ≠ [] → (∀ p, p ∈ ps ↔ p ∈ ps') →
  create a NoFault id ps g = create a NoFault id ps' g.
Proof.
  intros Hne Hne' Hsame.
  destruct (g !! id) as [n|] eqn:Hid.
  { by rewrite !create_existing. }
  destruct (find_parents g ps) as [its|] eqn:Hfind.
  - apply find_parents_inv in Hfind as [_ Hall].
    assert (∀ p, p ∈ ps' → is_Some (g !! p)) as Hall'
      by (intros p Hp; by apply Hall, Hsame).
    destruct (create_returns a id ps g Hid Hall) as [g1 Hg1].
    destruct (create_returns a id ps' g Hid Hall') as [g2 Hg2].
    rewrite Hg1, Hg2. f_equal.
    destruct (create_done _ _ _ _ _ _ Hne Hg1) as (_ & _ & Hn1 & Hl1).
    destruct (create_done _ _ _ _ _ _ Hne' Hg2) as (_ & _ & Hn2 & Hl2).
    apply map_eq. intros x. destruct (decide (x = id)) as [->|Hx].
    + rewrite Hn1, Hn2. do 2 f_equal. apply set_eq. intros p.
      by rewrite !elem_of_list_to_set.
    + rewrite Hl1, Hl2 by done.
      destruct (decide (x ∈ ps)) as [Hin|Hout].
      * by rewrite decide_True by (by apply Hsame).
      * by rewrite decide_False by (by rewrite <- Hsame).
  - apply find_parents_None_inv in Hfind as (p & Hp & Hnone).
    rewrite (create_absent_parent a NoFault id ps g p) by done.
    by rewrite (create_absent_parent a NoFault id ps' g p) by (by try apply Hsame).
Qed.

End create_more.

(** ** Paths through a graph that has gained edges *)

Section paths.
Context {A : Type}.
Implicit Types (R Rn : relation A).

(** Edges into a node without outgoing edges close no cycle. *)
Lemma tc_new_sink R Rn z x y :
  (∀ y, ¬ Rn z y) → (∀ x y, Rn x y → y ≠ z → R x y) →
  tc Rn x y → x ≠ z ∧ (y ≠ z → tc R x y).
Proof.
  intros Hout Hold. induction 1 as [x y Hxy|x w y Hxw _ [Hw IH]].
  - split; [intros ->; by eapply Hout|]. intros Hy. apply tc_once. by apply Hold.
  - split; [intros ->; by eapply Hout|]. intros Hy.
    eapply tc_l; [by apply Hold|by apply IH].
Qed.

(** A path that uses a new edge from [a] to [b]. *)
Lemma tc_new_edge R Rn a b x y :
  (∀ x y, Rn x y → R x y ∨ (x = a ∧ y = b)) →
  tc Rn x y → tc R x y ∨ (rtc R x a ∧ rtc R b y) ∨ rtc R b a.
Proof.
  intros Hold. induction 1 as [x y Hxy|x w y Hxw _ IH].
  - destruct (Hold _ _ Hxy) as [?|[-> ->]]; [left; by apply tc_once|].
    right. left. done.
  - destruct (Hold _ _ Hxw) as [Hr|[-> ->]].
    + destruct IH as [IH|[[IH1 IH2]|IH]].
      * left. by eapply tc_l.
      * right. left. split; [by eapply rtc_l|done].
      * by right; right.
    + destruct IH as [IH|[[IH1 IH2]|IH]].
      * right. left. split; [done|by apply tc_rtc].
      * by right; right.
      * by right; right.
Qed.

End paths.

(** ** The representation invariant under [create] and [connect] *)

Section representation.
Context `{Countable K}.

Implicit Types (g : gmap K (Node K)) (n : Node K) (h : handle K).
Implicit Types (ps : list K).

Lemma create_mirror a flt id ps g g' :
  children_mirror g → create a flt id ps g = Done g' → children_mirror g'.
Proof.
  intros Hm Hc. destruct (decide (ps = [])) as [->|Hne].
  { by injection Hc as <-. }
  destruct (create_done _ _ _ _ _ _ Hne Hc) as (Hid & Hall & Hnew & Hlook).
  assert (∀ x n', g' !! x = Some n' → x ≠ id →
    ∃ n, g !! x = Some n ∧ virus n' = virus n ∧ parent_ids n' = parent_ids n ∧
      ((x ∈ ps ∧ children_virus_ptrs n' = {[(a, id)]} ∪ children_virus_ptrs n) ∨
       children_virus_ptrs n' = children_virus_ptrs n)) as Hback.
  { intros x n' Hx Hxid. rewrite Hlook in Hx by done.
    destruct (decide (x ∈ ps)); [|by eauto 10].
    destruct (g !! x) as [n|]; simplify_eq/=. eauto 10. }
  assert (∀ x n, g !! x = Some n → ∃ n', g' !! x = Some n' ∧
    virus n' = virus n ∧ parent_ids n' = parent_ids n) as Hfwd.
  { intros x n Hx. assert (x ≠ id) by congruence. rewrite Hlook, Hx by done.
    case_decide; simpl; eauto. }
  intros p pn Hp h Hh. destruct (decide (p = id)) as [->|Hpid].
  { rewrite Hnew in Hp. injection Hp as <-. set_solver. }
  destruct (Hback _ _ Hp Hpid) as (n & Hn & _ & _ & Hch).
  assert (h = (a, id) ∧ p ∈ ps ∨ h ∈ children_virus_ptrs n) as [[-> Hin]|Hin].
  { destruct Hch as [[? Hch]|Hch]; rewrite Hch in Hh; set_solver. }
  - exists (mkNode (a, id) (list_to_set ps) ∅). simpl.
    split; [done|]. split; [done|]. by apply elem_of_list_to_set.
  - destruct (Hm p n Hn h Hin) as (cn & Hcn & Hv & Hpar).
    destruct (Hfwd _ _ Hcn) as (cn' & Hcn' & Hv' & Hpar').
    exists cn'. split; [done|]. split; congruence.
Qed.

Lemma create_acyclic a flt id ps g g' :
  I1 g → acyclic g → create a flt id ps g = Done g' → acyclic g'.
Proof.
  intros H1 Hac Hc. destruct (decide (ps = [])) as [->|Hne].
  { by injection Hc as <-. }
  destruct (create_done _ _ _ _ _ _ Hne Hc) as (Hid & Hall & Hnew & Hlook).
  assert (∀ x n', g' !! x = Some n' → x ≠ id →
    ∃ n, g !! x = Some n ∧ parent_ids n' = parent_ids n ∧
      children_virus_ptrs n' ⊆ {[(a, id)]} ∪ children_virus_ptrs n) as Hback.
  { intros x n' Hx Hxid. rewrite Hlook in Hx by done.
    destruct (decide (x ∈ ps)); [|exists n'; set_solver].
    destruct (g !! x) as [n|]; simplify_eq/=. exists n. set_solver. }
  assert (∀ y, ¬ edge g' id y) as Hout.
  { intros y [(h & (pn & Hpn & Hh) & _)|(n' & Hn' & Hp)].
    - rewrite Hnew in Hpn. injection Hpn as <-. set_solver.
    - destruct (decide (y = id)) as [->|Hy].
      + rewrite Hnew in Hn'. injection Hn' as <-. simpl in Hp.
        apply elem_of_list_to_set in Hp. destruct (Hall _ Hp). congruence.
      + destruct (Hback _ _ Hn' Hy) as (n & Hn & Hpar & _). rewrite Hpar in Hp.
        destruct (H1 y n Hn id Hp) as (? & ? & _). congruence. }
  assert (∀ x y, edge g' x y → y ≠ id → edge g x y) as Hold.
  { intros x y Hxy Hy.
    assert (x ≠ id) as Hx by (intros ->; by eapply Hout).
    destruct Hxy as [(h & (pn & Hpn & Hh) & Hhy)|(n' & Hn' & Hp)].
    - destruct (Hback _ _ Hpn Hx) as (n & Hn & _ & Hch). left. exists h.
      split; [|done]. exists n. split; [done|].
      apply Hch in Hh. apply elem_of_union in Hh as [Hh|Hh]; [|done].
      apply elem_of_singleton in Hh. subst h. done.
    - destruct (Hback _ _ Hn' Hy) as (n & Hn & Hpar & _). right. exists n.
      split; [done|]. by rewrite <- Hpar. }
  intros x Hcyc.
  destruct (tc_new_sink (edge g) (edge g') id x x Hout Hold Hcyc) as [Hx Htc].
  by apply (Hac x), Htc.
Qed.

(** What a [connect] that returns has changed. *)
Lemma connect_fields flt child_id parent_id g g' cn :
  g !! child_id = Some cn → connect flt child_id parent_id g = Done g' →
  (g' = g ∧ parent_id ∈ parent_ids cn) ∨
  ((parent_id ∉ parent_ids cn) ∧
   ∀ x, match g' !! x, g !! x with
        | Some n', Some n =>
            virus n' = virus n ∧
            parent_ids n' = (if decide (x = child_id)
                             then {[parent_id]} ∪ parent_ids n
                             else parent_ids n) ∧
            children_virus_ptrs n' = (if decide (x = parent_id)
                                      then {[virus cn]} ∪ children_virus_ptrs n
                                      else children_virus_ptrs n)
        | None, None => True
        | _, _ => False
        end).
Proof.
  intros Hcn Hc. pose proof (connect_inv flt child_id parent_id g) as Hinv.
  rewrite Hc in Hinv.
  destruct Hinv as [(-> & cn' & Hcn' & _ & Hin)|(_ & cn' & Hcn' & Hp & Hout & ->)];
    assert (cn' = cn) as -> by congruence; [by left|right].
  split; [done|]. intros x. rewrite lookup_alter.
  destruct Hp as [pn Hpn].
  destruct (decide (parent_id = x)) as [->|Hpx].
  - rewrite lookup_insert. destruct (decide (child_id = x)) as [->|Hcx]; simpl.
    + rewrite Hcn. rewrite !decide_True by done. done.
    + rewrite Hpn. simpl. rewrite decide_False by done.
      rewrite decide_True by done. done.
  - rewrite lookup_insert. destruct (decide (child_id = x)) as [->|Hcx]; simpl.
    + rewrite Hcn. rewrite decide_True by done. rewrite decide_False by done.
      done.
    + destruct (g !! x) as [n|]; [|done].
      rewrite !decide_False by done. done.
Qed.

Lemma connect_mirror flt child_id parent_id g g' :
  I4 g → children_mirror g →
  connect flt child_id parent_id g = Done g' → children_mirror g'.
Proof.
  intros H4 Hm Hc. pose proof (connect_inv flt child_id parent_id g) as Hinv.
  rewrite Hc in Hinv.
  assert (∃ cn, g !! child_id = Some cn) as [cn Hcn] by naive_solver.
  destruct (connect_fields _ _ _ _ _ _ Hcn Hc) as [[-> _]|[Hout Hlook]]; [done|].
  assert (∀ x n, g !! x = Some n → ∃ n', g' !! x = Some n' ∧
    virus n' = virus n ∧ parent_ids n ⊆ parent_ids n' ∧
    (x = child_id → parent_id ∈ parent_ids n')) as Hfwd.
  { intros x n Hx. specialize (Hlook x). rewrite Hx in Hlook.
    destruct (g' !! x) as [n'|]; [|done]. exists n'.
    destruct Hlook as (Hv & Hp & _). rewrite Hp.
    split; [done|]. split; [done|]. case_decide; set_solver. }
  intros p pn' Hp h Hh. specialize (Hlook p). rewrite Hp in Hlook.
  destruct (g !! p) as [pn|] eqn:Hpn; [|done]. destruct Hlook as (_ & _ & Hch).
  rewrite Hch in Hh.
  assert (h = virus cn ∧ p = parent_id ∨ h ∈ children_virus_ptrs pn)
    as [[-> ->]|Hin] by (case_decide; set_solver).
  - pose proof (H4 _ _ Hcn) as Hkey. simpl in Hkey.
    destruct (Hfwd _ _ Hcn) as (n' & Hn' & Hv & _ & Hpar).
    exists n'. rewrite Hkey. split; [done|]. split; [done|]. by apply Hpar.
  - destruct (Hm p pn Hpn h Hin) as (n & Hn & Hv & Hpar).
    destruct (Hfwd _ _ Hn) as (n' & Hn' & Hv' & Hsub & _).
    exists n'. split; [done|]. split; [congruence|]. by apply Hsub.
Qed.

(** The edges after a [connect] that returns: those before, and the edge
    from the parent to the child. *)
Lemma connect_edges flt child_id parent_id g g' :
  I4 g → connect flt child_id parent_id g = Done g' →
  ∀ x y, edge g' x y → edge g x y ∨ (x = parent_id ∧ y = child_id).
Proof.
  intros H4 Hc x y Hxy. pose proof (connect_inv flt child_id parent_id g) as Hinv.
  rewrite Hc in Hinv.
  assert (∃ cn, g !! child_id = Some cn) as [cn Hcn] by naive_solver.
  destruct (connect_fields _ _ _ _ _ _ Hcn Hc) as [[-> _]|[Hout Hlook]];
    [by left|].
  destruct Hxy as [(h & (pn' & Hpn' & Hh) & Hhy)|(n' & Hn' & Hp)].
  - specialize (Hlook x). rewrite Hpn' in Hlook.
    destruct (g !! x) as [pn|] eqn:Hpn; [|done].
    destruct Hlook as (_ & _ & Hch). rewrite Hch in Hh.
    assert (h = virus cn ∧ x = parent_id ∨ h ∈ children_virus_ptrs pn)
      as [[-> ->]|Hin] by (case_decide; set_solver).
    + right. split; [done|]. rewrite <- Hhy. by apply (H4 _ _ Hcn).
    + left. left. exists h. split; [|done]. by exists pn.
  - specialize (Hlook y). rewrite Hn' in Hlook.
    destruct (g !! y) as [n|] eqn:Hn; [|done].
    destruct Hlook as (_ & Hpar & _). rewrite Hpar in Hp.
    assert (x = parent_id ∧ y = child_id ∨ x ∈ parent_ids n)
      as [[-> ->]|Hin] by (case_decide; set_solver).
    + by right.
    + left. right. by exists n.
Qed.

Lemma connect_keeps_edges flt child_id parent_id g g' :
  connect flt child_id parent_id g = Done g' →
  edge g' parent_id child_id ∧ ∀ x y, edge g x y → edge g' x y.
Proof.
  intros Hc. pose proof (connect_inv flt child_id parent_id g) as Hinv.
  rewrite Hc in Hinv.
  assert (∃ cn, g !! child_id = Some cn) as [cn Hcn] by naive_solver.
  destruct (connect_fields _ _ _ _ _ _ Hcn Hc) as [[-> Hin]|[Hout Hlook]].
  { split; [|done]. right. by exists cn. }
  split.
  - right. specialize (Hlook child_id). rewrite Hcn in Hlook.
    destruct (g' !! child_id) as [n'|] eqn:Hn'; [|done]. exists n'. split; [done|].
    destruct Hlook as (_ & -> & _). rewrite decide_True by done. set_solver.
  - intros x y [(h & (pn & Hpn & Hh) & Hhy)|(n & Hn & Hp)].
    + left. exists h. split; [|done]. specialize (Hlook x). rewrite Hpn in Hlook.
      destruct (g' !! x) as [pn'|] eqn:Hpn'; [|done]. exists pn'. split; [done|].
      destruct Hlook as (_ & _ & ->). case_decide; set_solver.
    + right. specialize (Hlook y). rewrite Hn in Hlook.
      destruct (g' !! y) as [n'|] eqn:Hn'; [|done]. exists n'. split; [done|].
      destruct Hlook as (_ & -> & _). case_decide; set_solver.
Qed.

(** [connect] keeps the graph free of cycles when the parent is no
    descendant of the child, and only then. *)
Lemma connect_acyclic flt child_id parent_id g g' :
  I4 g → acyclic g → connect flt child_id parent_id g = Done g' →
  acyclic g' ↔ ¬ rtc (edge g) child_id parent_id.
Proof.
  intros H4 Hac Hc. split.
  - intros Hac' Hpath.
    destruct (connect_keeps_edges _ _ _ _ _ Hc) as [Hnew Hkeep].
    apply (Hac' child_id). eapply tc_rtc_l; [|by apply tc_once].
    eapply rtc_subrel; [|done]. done.
  - intros Hno x Hcyc.
    destruct (tc_new_edge (edge g) (edge g') parent_id child_id x x
                (connect_edges _ _ _ _ _ H4 Hc) Hcyc) as [Hold|[[H1 H2]|Hpath]].
    + by apply (Hac x).
    + apply Hno. by etrans.
    + by apply Hno.
Qed.

End representation.

(** ** The recursion depth of [remove] *)

Section fuel.
Context `{Countable K}.
Variable id_le : relation K.
Context `{!RelDecision id_le}.
Variable stem_id : K.
Variable throws : remove_point K → bool.

Implicit Types (g : gmap K (Node K)) (n : Node K) (h c : handle K).

Lemma remove_children_mono (rm1 rm2 : gmap K (Node K) → K → outcome K)
    id cs g o :
  (∀ g v o, rm1 g v = o → o ≠ OutOfFuel → rm2 g v = o) →
  remove_children throws rm1 id cs g = o → o ≠ OutOfFuel →
  remove_children throws rm2 id cs g = o.
Proof.
  intros Hrm. revert g. induction cs as [|c cs IH]; intros g; simpl; [done|].
  destruct (g !! id) as [n0|]; [|done].
  destruct (throws (GetId c)); [done|].
  destruct (g !! get_id c) as [cn|]; [|done].
  case_decide; [|by apply IH].
  destruct (rm1 _ (get_id c)) as [g2|e g2| |] eqn:Hr; intros Ho Hne.
  - rewrite (Hrm _ _ _ Hr) by done. by apply IH.
  - by rewrite (Hrm _ _ _ Hr) by done.
  - by rewrite (Hrm _ _ _ Hr) by done.
  - by subst o.
Qed.

(** A run that ends within some depth ends the same way within any
    greater depth. *)
Lemma remove_fuel_mono f f' g id o :
  f ≤ f' → remove id_le stem_id throws f g id = o → o ≠ OutOfFuel →
  remove id_le stem_id throws f' g id = o.
Proof.
  revert f' g id o. induction f as [|f IH]; intros f' g id o Hle; simpl.
  { by intros <-. }
  destruct f' as [|f']; [lia|]. simpl.
  case_decide; [done|]. destruct (g !! id) as [n|]; [|done].
  destruct (bool_decide (parent_ids n ≠ ∅) && throws (ParentPush id)); [done|].
  destruct (remove_children throws (remove id_le stem_id throws f) id
              (handles_in_order (children_virus_ptrs n)) g)
    as [g1|e g1| |] eqn:Hloop; intros Ho Hne.
  - rewrite (remove_children_mono _ (remove id_le stem_id throws f') _ _ _ _
               (λ g v o, IH f' g v o ltac:(lia)) Hloop) by done. done.
  - rewrite (remove_children_mono _ (remove id_le stem_id throws f') _ _ _ _
               (λ g v o, IH f' g v o ltac:(lia)) Hloop) by done. done.
  - rewrite (remove_children_mono _ (remove id_le stem_id throws f') _ _ _ _
               (λ g v o, IH f' g v o ltac:(lia)) Hloop) by done. done.
  - by subst o.
Qed.

(** [remove] adds no node, changes the object of no node, and adds no
    child to a node. *)
Lemma remove_never_adds fuel g id :
  holds_after (λ g', ∀ x n', g' !! x = Some n' →
      ∃ n, g !! x = Some n ∧ virus n' = virus n ∧
        children_virus_ptrs n' ⊆ children_virus_ptrs n)
    (remove id_le stem_id throws fuel g id).
Proof.
  apply (remove_preserves id_le stem_id throws
           (λ g', ∀ x n', g' !! x = Some n' →
              ∃ n, g !! x = Some n ∧ virus n' = virus n ∧
                children_virus_ptrs n' ⊆ children_virus_ptrs n) (λ _, True)).
  - done.
  - intros g0 c cn p HQ _ Hcn x n' Hx. rewrite lookup_insert in Hx.
    case_decide; simplify_eq/=; [|by apply HQ]. by apply (HQ _ _ Hcn).
  - intros g0 c cn p HQ _ Hcn x n' Hx. rewrite lookup_insert in Hx.
    case_decide; simplify_eq/=; [|by apply HQ]. by apply (HQ _ _ Hcn).
  - intros g0 p pn h HQ Hp x n' Hx. rewrite lookup_insert in Hx.
    case_decide; simplify_eq/=; [|by apply HQ].
    destruct (HQ _ _ Hp) as (n & Hn & Hv & Hsub). exists n. set_solver.
  - intros g0 v HQ _ x n' Hx. apply lookup_delete_Some in Hx as [_ Hx].
    by apply HQ.
  - intros x n' Hx. exists n'. set_solver.
Qed.

End fuel.

(** ** The representation invariant over the life of an object *)

Section contract_facts.
Context `{Countable K}.
Variable id_le : relation K.
Context `{!RelDecision id_le}.
Variable stem_id : K.

Implicit Types (g : gmap K (Node K)) (n : Node K) (h : handle K).
Implicit Types (ps : list K).

Lemma genealogy_consistent a :
  consistent stem_id (genealogy stem_id a) ∧ acyclic (genealogy stem_id a).
Proof.
  unfold genealogy. split; [split; [split; [|split; [|split]]|]|].
  - intros x n Hx. apply lookup_singleton_Some in Hx as [<- <-]. set_solver.
  - exists (new_Node a stem_id). by rewrite lookup_singleton_eq.
  - intros x n Hx. by apply lookup_singleton_Some in Hx as [<- <-].
  - intros x n Hx. by apply lookup_singleton_Some in Hx as [<- <-].
  - intros x n Hx. apply lookup_singleton_Some in Hx as [<- <-]. set_solver.
  - intros x Hcyc. destruct (tc_first _ _ _ Hcyc) as [y Hxy].
    destruct Hxy as [(h & (pn & Hpn & Hh) & _)|(n & Hn & Hp)].
    + apply lookup_singleton_Some in Hpn as [<- <-]. set_solver.
    + apply lookup_singleton_Some in Hn as [<- <-]. set_solver.
Qed.

Lemma create_well_formed a flt id ps g g' :
  consistent stem_id g → acyclic g → (∀ i, flt ≠ EdgePushFails i) →
  (create a flt id ps g = Done g' ∨ ∃ e, create a flt id ps g = Raised e g') →
  consistent stem_id g' ∧ acyclic g'.
Proof.
  intros [Hinv Hm] Hac Hflt [Hc|[e Hc]].
  - pose proof (create_I1_4 stem_id a flt id ps g Hinv) as Hh. rewrite Hc in Hh.
    split; [split; [done|by eapply create_mirror]|].
    eapply create_acyclic; [apply Hinv|done..].
  - pose proof (create_inv a flt id ps g) as Hi. rewrite Hc in Hi.
    destruct Hi as (_ & [(_ & -> & _)|[(_ & -> & _)|(_ & Hid & _)]]);
      [done|done|].
    rewrite (create_raised_restores _ _ _ _ _ _ _ Hflt
               (mirror_unlisted (a, id) g Hm Hid) Hc). done.
Qed.

Lemma connect_well_formed flt child_id parent_id g g' :
  consistent stem_id g → acyclic g → child_id ≠ stem_id →
  ¬ rtc (edge g) child_id parent_id →
  (connect flt child_id parent_id g = Done g' ∨
   ∃ e, connect flt child_id parent_id g = Raised e g') →
  consistent stem_id g' ∧ acyclic g'.
Proof.
  intros [Hinv Hm] Hac Hne Hno [Hc|[e Hc]].
  - pose proof (connect_I1_4 stem_id flt child_id parent_id g Hne Hinv) as Hh.
    rewrite Hc in Hh. destruct Hinv as (_ & _ & _ & H4).
    split; [split; [done|by eapply connect_mirror]|].
    by apply (connect_acyclic flt child_id parent_id g g' H4 Hac Hc).
  - pose proof (connect_inv flt child_id parent_id g) as Hi. rewrite Hc in Hi.
    by destruct Hi as [-> _].
Qed.

Lemma remove_well_formed fuel id g g' :
  consistent stem_id g → acyclic g →
  (remove id_le stem_id no_throw fuel g id = Done g' ∨
   ∃ e, remove id_le stem_id no_throw fuel g id = Raised e g') →
  consistent stem_id g' ∧ acyclic g'.
Proof.
  intros Hcons Hac Hr. destruct fuel as [|fuel].
  { simpl in Hr. by destruct Hr as [?|[? ?]]. }
  destruct (decide (id = stem_id)) as [->|Hne].
  { rewrite remove_root in Hr. destruct Hr as [?|[? ?]]; by simplify_eq. }
  destruct (g !! id) as [n|] eqn:Hid; cycle 1.
  { rewrite remove_absent in Hr by done.
    destruct Hr as [?|[? ?]]; by simplify_eq. }
  destruct (remove_exact id_le stem_id g id n Hcons Hac Hid Hne)
    as (fuel0 & g0 & Hrun & _ & _ & _ & Hcons0 & Hac0).
  assert (∀ o, remove id_le stem_id no_throw (S fuel) g id = o →
    o ≠ OutOfFuel → o = Done g0) as Hsame.
  { intros o Ho Hne'.
    pose proof (remove_fuel_mono id_le stem_id no_throw (S fuel)
      (S fuel `max` fuel0) g id o ltac:(lia) Ho Hne') as Hbig.
    rewrite Hrun in Hbig by lia. done. }
  destruct Hr as [Hr|[e Hr]]; specialize (Hsame _ Hr ltac:(done));
    by simplify_eq.
Qed.

Lemma well_used_well_formed g :
  well_used id_le stem_id g → consistent stem_id g ∧ acyclic g.
Proof.
  induction 1 as [a|g a flt id ps g' _ [IH1 IH2] Hflt Hor
                 |g flt c p g' _ [IH1 IH2] Hc Hno Hor
                 |g fuel id g' _ [IH1 IH2] Hor].
  - apply genealogy_consistent.
  - by eapply create_well_formed.
  - by eapply connect_well_formed.
  - by eapply remove_well_formed.
Qed.

(** The two views of an edge agree. *)
Lemma views_agree g p c :
  consistent stem_id g →
  (∃ l, get_children g p = inr l ∧ c ∈ l) ↔
  (∃ l, get_parents id_le g c = inr l ∧ p ∈ l).
Proof.
  intros [(H1 & _ & _ & H4) Hm]. unfold get_children, get_parents. split.
  - intros (l & Hl & Hc). destruct (g !! p) as [pn|] eqn:Hp; [|done].
    injection Hl as <-. apply list_elem_of_fmap in Hc as (h & -> & Hh).
    apply elem_of_handles_in_order in Hh.
    destruct (Hm p pn Hp h Hh) as (n & Hn & _ & Hpar). rewrite Hn.
    eexists. split; [done|]. by apply elem_of_ids_in_order.
  - intros (l & Hl & Hp). destruct (g !! c) as [n|] eqn:Hn; [|done].
    injection Hl as <-. apply elem_of_ids_in_order in Hp.
    destruct (H1 c n Hn p Hp) as (pn & Hpn & Hh). rewrite Hpn.
    eexists. split; [done|]. apply list_elem_of_fmap. exists (virus n).
    split; [symmetry; by apply (H4 c n Hn)|]. by apply elem_of_handles_in_order.
Qed.

(** [remove] undoes a [create]. *)
Lemma remove_create a flt id ps g g' throws fuel :
  id ≠ stem_id → ps ≠ [] →
  (∀ x n, g !! x = Some n → (a, id) ∉ children_virus_ptrs n) →
  create a flt id ps g = Done g' →
  remove id_le stem_id throws (S fuel) g' id
    = if throws (ParentPush id) then Raised bad_alloc g' else Done g.
Proof.
  intros Hne Hps Hout Hc.
  destruct (create_done _ _ _ _ _ _ Hps Hc) as (Hid & Hall & Hnew & Hlook).
  simpl. rewrite decide_False by done. rewrite Hnew. simpl.
  rewrite bool_decide_eq_true_2 by (destruct ps; [done|set_solver]). simpl.
  destruct (throws (ParentPush id)); [done|].
  unfold handles_in_order. rewrite elements_empty. simpl. rewrite Hnew. simpl.
  destruct (erase_from_parents_Some (a, id)
              (ids_in_order id_le (list_to_set ps)) g') as (g2 & -> & Hlook2).
  { intros p Hp%elem_of_ids_in_order%elem_of_list_to_set.
    assert (p ≠ id) as Hpid by (intros ->; destruct (Hall _ Hp); congruence).
    rewrite Hlook by done. rewrite decide_True by done.
    by apply fmap_is_Some, Hall. }
  f_equal. apply map_eq. intros x. destruct (decide (x = id)) as [->|Hx].
  { by rewrite lookup_delete_eq. }
  rewrite lookup_delete_ne by done. rewrite Hlook2, Hlook by done.
  destruct (decide (x ∈ ps)) as [Hin|Hnin].
  - rewrite decide_True by (by apply elem_of_ids_in_order, elem_of_list_to_set).
    destruct (g !! x) as [n|] eqn:Hgx; [|done]. simpl.
    rewrite erase_insert_child; [done|]. by eapply Hout.
  - rewrite decide_False; [done|].
    by rewrite elem_of_ids_in_order, elem_of_list_to_set.
Qed.

(** I4 holds throughout the life of an object, whatever is called. *)
Lemma create_I4 a flt id ps g :
  I4 g → holds_after I4 (create a flt id ps g).
Proof.
  intros H4. pose proof (create_inv a flt id ps g) as Hc.
  assert (∀ h g', differ_by_child h g g' → I4 g') as Hdiff.
  { intros h g' Hd x n' Hx. specialize (Hd x). rewrite Hx in Hd.
    destruct (g !! x) as [n|] eqn:Hn; [|done]. destruct Hd as (-> & _).
    by apply (H4 x n). }
  destruct (create a flt id ps g) as [g'|e g'| |]; simpl; try done.
  - destruct Hc as [[_ ->]|(Hne & Hid & Hall & g1 & -> & Hlook)]; [done|].
    apply map_Forall_insert_2; [done|].
    apply (Hdiff (a, id)). by eapply differ_of_lookup.
  - destruct Hc as (_ & [(_ & -> & _)|[(_ & -> & _)|(_ & _ & _ & _ & Hd)]]);
      [done|done|]. by eapply Hdiff.
Qed.

Lemma connect_I4 flt child_id parent_id g :
  I4 g → holds_after I4 (connect flt child_id parent_id g).
Proof.
  intros H4. pose proof (connect_inv flt child_id parent_id g) as Hc.
  destruct (connect flt child_id parent_id g) as [g'|e g'| |] eqn:Hcon;
    simpl; try done; [|by destruct Hc as [-> _]].
  assert (∃ cn, g !! child_id = Some cn) as [cn Hcn] by naive_solver.
  destruct (connect_fields _ _ _ _ _ _ Hcn Hcon) as [[-> _]|[_ Hlook]]; [done|].
  intros x n' Hx. specialize (Hlook x). rewrite Hx in Hlook.
  destruct (g !! x) as [n|] eqn:Hn; [|done]. destruct Hlook as (-> & _).
  by apply (H4 x n).
Qed.

Lemma remove_I4 throws fuel g id :
  I4 g → holds_after I4 (remove id_le stem_id throws fuel g id).
Proof.
  apply (remove_preserves id_le stem_id throws I4 (λ _, True)).
  - done.
  - intros g0 c cn p H4 _ Hcn. apply map_Forall_insert_2; [|done].
    by apply (H4 _ _ Hcn).
  - intros g0 c cn p H4 _ Hcn. apply map_Forall_insert_2; [|done].
    by apply (H4 _ _ Hcn).
  - intros g0 p pn h H4 Hp. apply map_Forall_insert_2; [|done].
    by apply (H4 _ _ Hp).
  - intros g0 v H4 _. by apply map_Forall_delete.
Qed.

Lemma lifetime_I4 may_be_child g :
  lifetime stem_id id_le may_be_child g → I4 g.
Proof.
  induction 1 as [a|g a flt id ps o g' _ IH Ho Hor
                 |g flt c p o g' _ IH _ Ho Hor
                 |g throws fuel id o g' _ IH Ho Hor].
  - intros x n Hx. unfold genealogy in Hx.
    by apply lookup_singleton_Some in Hx as [<- <-].
  - pose proof (create_I4 a flt id ps g IH) as Hh.
    rewrite Ho in Hh. by destruct Hor as [->|[e ->]].
  - pose proof (connect_I4 flt c p g IH) as Hh.
    rewrite Ho in Hh. by destruct Hor as [->|[e ->]].
  - pose proof (remove_I4 throws fuel g id IH) as Hh.
    rewrite Ho in Hh. by destruct Hor as [->|[e ->]].
Qed.

End contract_facts.

(** ** The composition of calls *)

Section composition.
Context `{Countable K}.

Implicit Types (g : gmap K (Node K)) (n : Node K) (h : handle K).
Implicit Types (ps : list K).

(** The table a [connect] between two nodes returns with. *)
Lemma connect_lookup child_id parent_id g cn :
  g !! child_id = Some cn → is_Some (g !! parent_id) →
  ∃ g', connect false child_id parent_id g = Done g' ∧
    ∀ x, match g' !! x, g !! x with
         | Some n', Some n =>
             virus n' = virus n ∧
             parent_ids n' = (if decide (x = child_id)
                              then {[parent_id]} ∪ parent_ids n
                              else parent_ids n) ∧
             children_virus_ptrs n'
               = (if decide (x = parent_id ∧ parent_id ∉ parent_ids cn)
                  then {[virus cn]} ∪ children_virus_ptrs n
                  else children_virus_ptrs n)
         | None, None => True
         | _, _ => False
         end.
Proof.
  intros Hcn [pn Hpn].
  assert (∃ g', connect false child_id parent_id g = Done g') as [g' Hc].
  { unfold connect. rewrite Hcn, Hpn. case_decide; eauto. }
  exists g'. split; [done|]. intros x.
  destruct (connect_fields _ _ _ _ _ _ Hcn Hc) as [[-> Hin]|[Hout Hlook]].
  - destruct (g !! x) as [n|] eqn:Hx; [|done]. split; [done|]. split.
    + case_decide; [|done]. subst x. assert (n = cn) as -> by congruence.
      set_solver.
    + rewrite decide_False; [done|]. naive_solver.
  - specialize (Hlook x). destruct (g' !! x) as [n'|], (g !! x) as [n|]; try done.
    destruct Hlook as (Hv & Hp & Hch). split; [done|]. split; [done|].
    rewrite Hch. destruct (decide (x = parent_id)).
    + by rewrite decide_True.
    + rewrite decide_False; [done|]. naive_solver.
Qed.

(** Two [connect] calls on nodes of the table give the same graph in
    either order. *)
Lemma connect_swap c1 p1 c2 p2 g :
  is_Some (g !! c1) → is_Some (g !! p1) →
  is_Some (g !! c2) → is_Some (g !! p2) →
  ∃ g1 g2 g',
    connect false c1 p1 g = Done g1 ∧ connect false c2 p2 g1 = Done g' ∧
    connect false c2 p2 g = Done g2 ∧ connect false c1 p1 g2 = Done g'.
Proof.
  intros [cn1 Hc1] Hp1 [cn2 Hc2] Hp2.
  destruct (connect_lookup c1 p1 g cn1 Hc1 Hp1) as (g1 & Hg1 & L1).
  destruct (connect_lookup c2 p2 g cn2 Hc2 Hp2) as (g2 & Hg2 & L2).
  assert (∀ x, is_Some (g !! x) → is_Some (g1 !! x)) as Hs1.
  { intros x [n Hx]. specialize (L1 x). rewrite Hx in L1.
    by destruct (g1 !! x). }
  assert (∀ x, is_Some (g !! x) → is_Some (g2 !! x)) as Hs2.
  { intros x [n Hx]. specialize (L2 x). rewrite Hx in L2.
    by destruct (g2 !! x). }
  destruct (Hs1 c2 ltac:(eauto)) as [cn2' Hc2'].
  destruct (Hs2 c1 ltac:(eauto)) as [cn1' Hc1'].
  destruct (connect_lookup c2 p2 g1 cn2' Hc2' (Hs1 _ Hp2)) as (g12 & Hg12 & L12).
  destruct (connect_lookup c1 p1 g2 cn1' Hc1' (Hs2 _ Hp1)) as (g21 & Hg21 & L21).
  exists g1, g2, g12. split; [done|]. split; [done|]. split; [done|].
  rewrite Hg21. f_equal. apply map_eq. intros x.
  pose proof (L1 c2) as A1. rewrite Hc2', Hc2 in A1.
  pose proof (L2 c1) as A2. rewrite Hc1', Hc1 in A2.
  destruct A1 as (Hv2 & Hpar2 & _). destruct A2 as (Hv1 & Hpar1 & _).
  specialize (L1 x). specialize (L2 x). specialize (L12 x). specialize (L21 x).
  destruct (g !! x) as [n|]; cycle 1.
  { destruct (g1 !! x), (g2 !! x); try done.
    by destruct (g12 !! x), (g21 !! x). }
  destruct (g1 !! x) as [n1|]; [|done]. destruct (g2 !! x) as [n2|]; [|done].
  destruct (g12 !! x) as [n12|]; [|done]. destruct (g21 !! x) as [n21|]; [|done].
  f_equal. destruct L1 as (V1 & P1 & C1), L2 as (V2 & P2 & C2),
    L12 as (V12 & P12 & C12), L21 as (V21 & P21 & C21).
  apply Node_eq; [congruence| |].
  - rewrite P12, P21, P1, P2. clear. repeat case_decide; set_solver.
  - rewrite C12, C21, C1, C2, Hv1, Hv2, Hpar1, Hpar2.
    destruct (decide (c1 = c2)) as [->|Hne].
    + assert (cn2 = cn1) as -> by congruence.
      rewrite ?(decide_True (P := c2 = c2)) by done.
      clear. destruct (decide (p1 = p2)) as [->|Hp].
      * repeat case_decide; set_solver.
      * destruct (decide (x = p1)); destruct (decide (x = p2));
          repeat case_decide; set_solver.
    + rewrite ?(decide_False (P := c2 = c1)) by done.
      rewrite ?(decide_False (P := c1 = c2)) by done.
      clear. repeat case_decide; set_solver.
Qed.

(** A node may get its parents at once or one after the other. *)
Lemma create_then_connect a id p ps g :
  g !! id = None → ps ≠ [] → is_Some (g !! p) →
  (∀ q, q ∈ ps → is_Some (g !! q)) →
  ∃ g1 g2,
    create a NoFault id ps g = Done g1 ∧ connect false id p g1 = Done g2 ∧
    create a NoFault id (p :: ps) g = Done g2.
Proof.
  intros Hid Hne Hp Hall.
  assert (∀ q, q ∈ p :: ps → is_Some (g !! q)) as Hall'.
  { intros q [->|Hq]%elem_of_cons; [done|by apply Hall]. }
  destruct (create_returns a id ps g Hid Hall) as [g1 Hg1].
  destruct (create_returns a id (p :: ps) g Hid Hall') as [g3 Hg3].
  destruct (create_done _ _ _ _ _ _ Hne Hg1) as (_ & _ & Hnew1 & Hlook1).
  assert (p :: ps ≠ []) as Hne' by done.
  destruct (create_done _ _ _ _ _ _ Hne' Hg3) as (_ & _ & Hnew3 & Hlook3).
  assert (p ≠ id) as Hpid by (intros ->; destruct Hp; congruence).
  assert (is_Some (g1 !! p)) as Hp1.
  { rewrite Hlook1 by done. case_decide; [by apply fmap_is_Some|done]. }
  destruct (connect_lookup id p g1 _ Hnew1 Hp1) as (g2 & Hg2 & L).
  exists g1, g2. split; [done|]. split; [done|]. rewrite Hg3. f_equal.
  apply map_eq. intros x. specialize (L x). simpl in L.
  destruct (decide (x = id)) as [->|Hx].
  - rewrite Hnew3. rewrite Hnew1 in L. destruct (g2 !! id) as [n2|]; [|done].
    destruct L as (V & P & C). f_equal. apply Node_eq; simpl.
    + by rewrite V.
    + by rewrite P.
    + rewrite C. case_decide as Hd; [destruct Hd as [Hd _]; congruence|done].
  - rewrite Hlook3 by done. rewrite Hlook1 in L by done.
    destruct (g !! x) as [n|] eqn:Hgx; simpl in *.
    + destruct (g2 !! x) as [n2|]; [|by repeat case_decide].
      assert (∃ n1, (if decide (x ∈ ps) then Some (insert_child (a, id) n)
                     else Some n) = Some n1 ∧
                virus n1 = virus n ∧ parent_ids n1 = parent_ids n ∧
                children_virus_ptrs n1
                  = if decide (x ∈ ps) then {[(a, id)]} ∪ children_virus_ptrs n
                    else children_virus_ptrs n) as (n1 & Hn1 & V1 & P1 & C1)
        by (case_decide; eauto).
      rewrite Hn1 in L. destruct L as (V & P & C).
      assert (∀ T (u v : T), (if decide (x ∈ p :: ps) then Some u else Some v)
                = Some (if decide (x ∈ p :: ps) then u else v)) as Hif
        by (intros; by destruct (decide (x ∈ p :: ps))).
      rewrite Hif. f_equal. apply Node_eq.
      * rewrite V, V1. by destruct (decide (x ∈ p :: ps)).
      * rewrite P, P1. by destruct (decide (x ∈ p :: ps)).
      * rewrite C, C1. clear.
        destruct (decide (x ∈ p :: ps)); simpl; repeat case_decide; set_solver.
    + destruct (g2 !! x) as [n2|]; repeat case_decide; done.
Qed.

End composition.

(** ** The queries *)

Section observers.
Context `{Countable K}.
Variable id_le : relation K.
Context `{!RelDecision id_le}.

Implicit Types (g : gmap K (Node K)) (n : Node K) (h : handle K).

Lemma addr_le_total : Total (addr_le (K := K)).
Proof. intros [a1 k1] [a2 k2]. unfold addr_le. simpl. lia. Qed.

Lemma handles_in_order_empty : handles_in_order (∅ : gset (handle K)) = [].
Proof. unfold handles_in_order. by rewrite elements_empty. Qed.

Lemma ids_in_order_singleton (p : K) : ids_in_order id_le {[p]} = [p].
Proof. unfold ids_in_order. by rewrite elements_singleton. Qed.

End observers.

(** * Further properties of the header *)

(** X1.  A new genealogy holds the root and nothing else; the root has no
    parents and no children, and the graph satisfies I1 to I5 with child sets
    that mirror the parent sets. *)
Theorem genealogy_starts_well_formed `{Countable K} (id_le : relation K)
    `{!RelDecision id_le} (stem_id : K) (a : positive) :
  consistent stem_id (genealogy stem_id a) ∧ acyclic (genealogy stem_id a) ∧
  (∀ id, exists_ (genealogy stem_id a) id = bool_decide (id = stem_id)) ∧
  operator_index (genealogy stem_id a) (get_stem_id stem_id) = inr (a, stem_id) ∧
  get_parents id_le (genealogy stem_id a) stem_id = inr [] ∧
  get_children (genealogy stem_id a) stem_id = inr [] ∧
  get_children_begin (genealogy stem_id a) stem_id
    = get_children_end (genealogy stem_id a) stem_id.
Proof.
  destruct (genealogy_consistent stem_id a) as [Hc Hac].
  split; [done|]. split; [done|]. unfold get_stem_id, genealogy. split.
  - intros id. unfold exists_. apply bool_decide_ext.
    rewrite lookup_singleton_is_Some. naive_solver.
  - unfold operator_index, get_parents, get_children, get_children_begin,
      get_children_end. rewrite lookup_singleton_eq. simpl.
    by rewrite ids_in_order_empty, handles_in_order_empty.
Qed.

(** X2.  The view of the children of a node.  [get_children_begin] and
    [get_children_end] raise [VirusNotFound] for an identifier that is not in
    the table.  Otherwise the loop from the one to the other with [++] visits
    every child of the node once, in the order of the addresses of the
    objects; the loop back with [--] visits them in the opposite order. *)
Theorem children_traversal `{Countable K} (g : gmap K (Node K)) (id : K) :
  (g !! id = None →
     get_children_begin g id = inl VirusNotFound ∧
     get_children_end g id = inl VirusNotFound) ∧
  (∀ n, g !! id = Some n →
     ∃ first last l,
       get_children_begin g id = inr first ∧
       get_children_end g id = inr last ∧
       walk g (length l) first last = Some l ∧
       walk_back g (length l) first last = Some (reverse l) ∧
       NoDup l ∧ Sorted addr_le l ∧
       (∀ h, h ∈ l ↔ h ∈ children_virus_ptrs n) ∧
       get_children g id = inr (get_id <$> l)).
Proof.
  unfold get_children_begin, get_children_end, get_children. split.
  - by intros ->.
  - intros n Hn. rewrite Hn.
    exists (mkIterator id (head (handles_in_order (children_virus_ptrs n)))),
      (mkIterator id None), (handles_in_order (children_virus_ptrs n)).
    split; [done|]. split; [done|]. split; [|split; [|split; [|split; [|split]]]].
    + by apply (walk_suffix g id n []).
    + pose proof (walk_back_prefix g id n
        (handles_in_order (children_virus_ptrs n)) [] Hn) as Hb.
      rewrite app_nil_r in Hb. by apply Hb.
    + apply NoDup_handles_in_order.
    + unfold handles_in_order. eapply @Sorted_merge_sort. apply addr_le_total.
    + intros h. apply elem_of_handles_in_order.
    + done.
Qed.

Lemma children_traversal_witness :
  Scenario.fork 3 4 !! "X"
    = Some (mkNode (2%positive, "X") {["S"]} {[(3%positive, "Y"); (4%positive, "Z")]}) ∧
  ∃ first last l,
    get_children_begin (Scenario.fork 3 4) "X" = inr first ∧
    get_children_end (Scenario.fork 3 4) "X" = inr last ∧
    walk (Scenario.fork 3 4) (length l) first last = Some l ∧
    walk_back (Scenario.fork 3 4) (length l) first last = Some (reverse l) ∧
    NoDup l ∧ Sorted addr_le l ∧
    (∀ h, h ∈ l ↔
       h ∈ ({[(3%positive, "Y"); (4%positive, "Z")]} : gset (handle string))) ∧
    get_children (Scenario.fork 3 4) "X" = inr (get_id <$> l).
Proof.
  assert (Scenario.fork 3 4 !! "X"
    = Some (mkNode (2%positive, "X") {["S"]}
              {[(3%positive, "Y"); (4%positive, "Z")]})) as H1
    by (vm_compute; reflexivity).
  split; [exact H1|].
  exact (proj2 (children_traversal (Scenario.fork 3 4) "X") _ H1).
Defined.

(** X3.  The steps of an iterator.  [--] takes back a [++] and [++] takes
    back a [--]; an iterator that [++] can move stands at an element, and so
    does the iterator [--] arrives at; the postfix operators return the
    iterator as it was.  The end iterator can neither be moved forward nor
    dereferenced. *)
Theorem iterator_steps_invert `{Countable K} (g : gmap K (Node K))
    (it it' : Iterator K) :
  (incr g it = Some it' →
     decr g it' = Some it ∧ is_Some (deref g it) ∧
     post_incr g it = Some (it, it')) ∧
  (decr g it = Some it' →
     incr g it' = Some it ∧ is_Some (deref g it') ∧
     post_decr g it = Some (it, it')) ∧
  (m_ptr it = None → incr g it = None ∧ deref g it = None).
Proof.
  split; [|split].
  - intros Hi. split; [by apply incr_decr|]. unfold post_incr. rewrite Hi.
    split; [|done]. revert Hi. destruct it as [id m].
    unfold incr, deref, children_of. simpl.
    destruct (g !! id) as [n|]; simpl; [|done]. destruct m as [h|]; simpl; [|done].
    destruct (successor _ _) as [m'|] eqn:Hs; simpl; [|done]. intros _.
    apply successor_inv in Hs as (pre & rest & Hl & _). rewrite Hl.
    rewrite decide_True by set_solver. done.
  - intros Hd. split; [by apply decr_incr|]. unfold post_decr. rewrite Hd.
    split; [|done]. revert Hd. destruct it as [id m].
    unfold decr, deref, children_of. simpl.
    destruct (g !! id) as [n|] eqn:Hn; simpl; [|done].
    destruct (predecessor _ _) as [x|] eqn:Hs; simpl; [|done].
    intros [= <-]. simpl. rewrite Hn. simpl.
    apply predecessor_inv in Hs as (pre & rest & Hl & _). rewrite Hl.
    rewrite decide_True by set_solver. done.
  - intros Hm. unfold incr, deref. rewrite Hm.
    by destruct (children_of g (it_node it)).
Qed.

Lemma iterator_steps_invert_witness :
  incr (Scenario.fork 3 4) (mkIterator "X" (Some (3%positive, "Y")))
    = Some (mkIterator "X" (Some (4%positive, "Z"))) ∧
  decr (Scenario.fork 3 4) (mkIterator "X" (Some (4%positive, "Z")))
    = Some (mkIterator "X" (Some (3%positive, "Y"))) ∧
  is_Some (deref (Scenario.fork 3 4) (mkIterator "X" (Some (3%positive, "Y")))) ∧
  post_incr (Scenario.fork 3 4) (mkIterator "X" (Some (3%positive, "Y")))
    = Some (mkIterator "X" (Some (3%positive, "Y")),
            mkIterator "X" (Some (4%positive, "Z"))).
Proof.
  assert (incr (Scenario.fork 3 4) (mkIterator "X" (Some (3%positive, "Y")))
    = Some (mkIterator "X" (Some (4%positive, "Z")))) as H1
    by (vm_compute; reflexivity).
  split; [exact H1|].
  exact (proj1 (iterator_steps_invert (Scenario.fork 3 4)
                  (mkIterator "X" (Some (3%positive, "Y")))
                  (mkIterator "X" (Some (4%positive, "Z")))) H1).
Defined.

(** X4.  Throughout the life of an object, whatever is called and whatever
    fails, [operator[]] raises [VirusNotFound] for the identifiers for which
    [exists] is false, and for every other identifier returns an object with
    that identifier. *)
Theorem index_returns_requested `{Countable K} (id_le : relation K)
    `{!RelDecision id_le} (stem_id : K) (g : gmap K (Node K)) :
  lifetime stem_id id_le (λ _, True) g →
  ∀ id, (exists_ g id = false ∧ operator_index g id = inl VirusNotFound) ∨
        (exists_ g id = true ∧ ∃ a, operator_index g id = inr (a, id)).
Proof.
  intros Hlife id. pose proof (lifetime_I4 id_le stem_id _ g Hlife) as H4.
  unfold exists_, operator_index. destruct (g !! id) as [n|] eqn:Hn.
  - right. split; [by apply bool_decide_eq_true_2|].
    pose proof (H4 id n Hn) as Hkey. simpl in Hkey.
    destruct (virus n) as [a k] eqn:Hv. exists a. simpl in Hkey. by subst k.
  - left. split; [|done]. apply bool_decide_eq_false_2. by intros [? ?].
Qed.

Lemma index_returns_requested_witness :
  lifetime "S" string_le (λ _, True) Scenario.root_with_parent ∧
  ((exists_ Scenario.root_with_parent "A" = false ∧
    operator_index Scenario.root_with_parent "A" = inl VirusNotFound) ∨
   (exists_ Scenario.root_with_parent "A" = true ∧
    ∃ a, operator_index Scenario.root_with_parent "A" = inr (a, "A"))).
Proof.
  split; [exact root_with_parent_lifetime|].
  exact (index_returns_requested string_le "S" Scenario.root_with_parent
           root_with_parent_lifetime "A").
Defined.

(** X5.  [create(id, parent_ids)] with an identifier that is not in the
    table and a parent list that is not empty and names nodes of the table
    only returns when nothing fails.  The new node holds a new object with
    that identifier, its parents are those of the list, each once, and it has
    no children; every parent has gained the new object as a child; nothing
    else has changed. *)
Theorem create_adds_node `{Countable K} (id_le : relation K)
    `{!RelDecision id_le} (a : positive) (id : K) (parent_ids : list K)
    (g : gmap K (Node K)) :
  g !! id = None → parent_ids ≠ [] →
  (∀ p, p ∈ parent_ids → is_Some (g !! p)) →
  ∃ g', create a NoFault id parent_ids g = Done g' ∧
    exists_ g' id = true ∧ operator_index g' id = inr (a, id) ∧
    (∃ l, get_parents id_le g' id = inr l ∧ NoDup l ∧
          ∀ p, p ∈ l ↔ p ∈ parent_ids) ∧
    get_children g' id = inr [] ∧
    (∀ x, x ≠ id →
       exists_ g' x = exists_ g x ∧
       operator_index g' x = operator_index g x ∧
       get_parents id_le g' x = get_parents id_le g x) ∧
    (∀ x n, g !! x = Some n →
       ∃ n', g' !! x = Some n' ∧
         children_virus_ptrs n'
           = if decide (x ∈ parent_ids)
             then {[(a, id)]} ∪ children_virus_ptrs n
             else children_virus_ptrs n).
Proof.
  intros Hid Hne Hall. destruct (create_returns a id parent_ids g Hid Hall)
    as [g' Hc].
  destruct (create_done _ _ _ _ _ _ Hne Hc) as (_ & _ & Hnew & Hlook).
  exists g'. split; [done|].
  unfold exists_, operator_index, get_parents, get_children.
  rewrite Hnew. simpl. split; [done|].
  split; [done|]. split; [|split; [|split]].
  - eexists. split; [done|]. split; [apply NoDup_ids_in_order|].
    intros p. by rewrite elem_of_ids_in_order, elem_of_list_to_set.
  - by rewrite handles_in_order_empty.
  - intros x Hx. rewrite Hlook by done.
    destruct (decide (x ∈ parent_ids)); [|done].
    by destruct (g !! x) as [n|].
  - intros x n Hx. assert (x ≠ id) by congruence. rewrite Hlook, Hx by done.
    case_decide; simpl; eauto.
Qed.

Lemma create_adds_node_witness :
  Scenario.with_A_B !! "C" = None ∧ ["A"; "B"] ≠ [] ∧
  (∀ p, p ∈ ["A"; "B"] → is_Some (Scenario.with_A_B !! p)) ∧
  ∃ g', create 4 NoFault "C" ["A"; "B"] Scenario.with_A_B = Done g' ∧
    exists_ g' "C" = true ∧ operator_index g' "C" = inr (4%positive, "C") ∧
    (∃ l, get_parents string_le g' "C" = inr l ∧ NoDup l ∧
          ∀ p, p ∈ l ↔ p ∈ ["A"; "B"]) ∧
    get_children g' "C" = inr [] ∧
    (∀ x, x ≠ "C" →
       exists_ g' x = exists_ Scenario.with_A_B x ∧
       operator_index g' x = operator_index Scenario.with_A_B x ∧
       get_parents string_le g' x = get_parents string_le Scenario.with_A_B x) ∧
    (∀ x n, Scenario.with_A_B !! x = Some n →
       ∃ n', g' !! x = Some n' ∧
         children_virus_ptrs n'
           = if decide (x ∈ ["A"; "B"])
             then {[(4%positive, "C")]} ∪ children_virus_ptrs n
             else children_virus_ptrs n).
Proof.
  assert (Scenario.with_A_B !! "C" = None) as H1 by (vm_compute; reflexivity).
  assert (["A"; "B"] ≠ []) as H2 by discriminate.
  assert (∀ p, p ∈ ["A"; "B"] → is_Some (Scenario.with_A_B !! p)) as H3.
  { intros p Hp. apply (bool_decide_unpack _).
    revert p Hp. apply Forall_forall. repeat constructor. }
  split; [exact H1|]. split; [exact H2|]. split; [exact H3|].
  exact (create_adds_node string_le 4 "C" ["A"; "B"] Scenario.with_A_B H1 H2 H3).
Defined.

(** X6.  When nothing fails, [create] does the same for two parent lists
    that name the same identifiers, in whatever order and however often. *)
Theorem create_ignores_order `{Countable K} (a : positive) (id : K)
    (parent_ids parent_ids' : list K) (g : gmap K (Node K)) :
  parent_ids ≠ [] → parent_ids' ≠ [] →
  (∀ p, p ∈ parent_ids ↔ p ∈ parent_ids') →
  create a NoFault id parent_ids g = create a NoFault id parent_ids' g.
Proof. apply create_same_parents. Qed.

Lemma create_ignores_order_witness :
  ["A"; "B"] ≠ [] ∧ ["B"; "A"; "B"] ≠ [] ∧
  (∀ p : string, p ∈ ["A"; "B"] ↔ p ∈ ["B"; "A"; "B"]) ∧
  create 4 NoFault "C" ["A"; "B"] Scenario.with_A_B
    = create 4 NoFault "C" ["B"; "A"; "B"] Scenario.with_A_B.
Proof.
  assert (["A"; "B"] ≠ ([] : list string)) as H1 by discriminate.
  assert (["B"; "A"; "B"] ≠ ([] : list string)) as H2 by discriminate.
  assert (∀ p : string, p ∈ ["A"; "B"] ↔ p ∈ ["B"; "A"; "B"]) as H3
    by (intros p; rewrite !elem_of_cons, !elem_of_nil; tauto).
  split; [exact H1|]. split; [exact H2|]. split; [exact H3|].
  exact (create_ignores_order 4 "C" ["A"; "B"] ["B"; "A"; "B"]
           Scenario.with_A_B H1 H2 H3).
Defined.

(** X7.  Whenever [create] raises, for whatever reason and with whatever
    parent list, the graph is as it was before the call, provided that no
    [push_back] into the vector of the recorded edges has failed. *)
Theorem create_raise_restores_graph `{Countable K} (a : positive) (flt : fault)
    (id : K) (parent_ids : list K) (g g' : gmap K (Node K)) (e : exn) :
  fresh a g → (∀ i, flt ≠ EdgePushFails i) →
  create a flt id parent_ids g = Raised e g' → g' = g.
Proof.
  intros Hfresh Hflt. apply create_raised_restores; [done|].
  by apply fresh_unlisted.
Qed.

Lemma create_raise_restores_graph_witness :
  fresh 2 Scenario.root_only ∧
  (∀ i, ChildInsertFails 1 ≠ EdgePushFails i) ∧
  create 2 (ChildInsertFails 1) "C" ["S"; "S"] Scenario.root_only
    = Raised bad_alloc Scenario.root_only ∧
  Scenario.root_only = Scenario.root_only.
Proof.
  assert (fresh 2 Scenario.root_only) as H1 by compute_done.
  assert (∀ i, ChildInsertFails 1 ≠ EdgePushFails i) as H2
    by (intros i; discriminate).
  assert (create 2 (ChildInsertFails 1) "C" ["S"; "S"] Scenario.root_only
            = Raised bad_alloc Scenario.root_only) as H3
    by (vm_compute; reflexivity).
  split; [exact H1|]. split; [exact H2|]. split; [exact H3|].
  exact (create_raise_restores_graph 2 (ChildInsertFails 1) "C" ["S"; "S"]
           Scenario.root_only Scenario.root_only bad_alloc H1 H2 H3).
Defined.



(** X9.  [create(id, parent_id)], the form with one parent, either returns
    with the new node in the table, its only parent being [parent_id], or
    raises with the graph as it was; this for every insertion that may fail
    but the [push_back]. *)
Theorem create1_all_or_nothing `{Countable K} (id_le : relation K)
    `{!RelDecision id_le} (a : positive) (flt : fault) (id parent_id : K)
    (g : gmap K (Node K)) :
  fresh a g → (∀ i, flt ≠ EdgePushFails i) →
  (∃ g', create1 a flt id parent_id g = Done g' ∧
     g !! id = None ∧ is_Some (g !! parent_id) ∧
     operator_index g' id = inr (a, id) ∧
     get_parents id_le g' id = inr [parent_id]) ∨
  (∃ e, create1 a flt id parent_id g = Raised e g ∧
     (e = VirusAlreadyCreated ∧ is_Some (g !! id) ∨
      e = VirusNotFound ∧ g !! id = None ∧ g !! parent_id = None ∨
      e = bad_alloc ∧ flt ≠ NoFault)).
Proof.
  intros Hfresh Hflt. unfold create1.
  pose proof (create_inv a flt id [parent_id] g) as Hinv.
  destruct (create a flt id [parent_id] g) as [g'|e g'| |] eqn:Hc.
  - left. exists g'. split; [done|].
    assert ([parent_id] ≠ []) as Hne by done.
    destruct (create_done _ _ _ _ _ _ Hne Hc) as (Hid & Hall & Hnew & _).
    split; [done|]. split; [apply Hall; by left|].
    unfold operator_index, get_parents. rewrite Hnew. simpl. split; [done|].
    f_equal. rewrite <- (ids_in_order_singleton id_le parent_id). f_equal.
    set_solver.
  - right. exists e.
    rewrite (create_raised_restores a flt id [parent_id] g e g' Hflt
               (fresh_unlisted a id g Hfresh) Hc).
    split; [done|].
    destruct Hinv as (_ & [(-> & _ & ?)|[(-> & _ & ? & p & Hp & ?)|(-> & _ & _ & ? & _)]]).
    + by left.
    + right. left. apply list_elem_of_singleton in Hp as ->. done.
    + by right; right.
  - destruct Hinv as [_ Hnd]. destruct Hnd. apply NoDup_singleton.
  - done.
Qed.

Lemma create1_all_or_nothing_witness :
  fresh 2 Scenario.root_only ∧
  (∀ i, TableInsertFails ≠ EdgePushFails i) ∧
  ((∃ g', create1 2 TableInsertFails "A" "S" Scenario.root_only = Done g' ∧
      Scenario.root_only !! "A" = None ∧ is_Some (Scenario.root_only !! "S") ∧
      operator_index g' "A" = inr (2%positive, "A") ∧
      get_parents string_le g' "A" = inr ["S"]) ∨
   (∃ e, create1 2 TableInsertFails "A" "S" Scenario.root_only
           = Raised e Scenario.root_only ∧
      (e = VirusAlreadyCreated ∧ is_Some (Scenario.root_only !! "A") ∨
       e = VirusNotFound ∧ Scenario.root_only !! "A" = None ∧
         Scenario.root_only !! "S" = None ∨
       e = bad_alloc ∧ TableInsertFails ≠ NoFault))).
Proof.
  assert (fresh 2 Scenario.root_only) as H1 by compute_done.
  assert (∀ i, TableInsertFails ≠ EdgePushFails i) as H2
    by (intros i; discriminate).
  split; [exact H1|]. split; [exact H2|].
  exact (create1_all_or_nothing string_le 2 TableInsertFails "A" "S"
           Scenario.root_only H1 H2).
Defined.


(** X10.  [connect(child_id, parent_id)] between two nodes of the table,
    the second of which is no parent of the first yet, returns when nothing
    fails.  Then [parent_id] is one more parent of the child and the object of
    the child one more child of the parent; the table has the nodes it had,
    with the objects they had, and no other parent set or child set has
    changed. *)
Theorem connect_adds_edge `{Countable K} (id_le : relation K)
    `{!RelDecision id_le} (child_id parent_id : K) (g : gmap K (Node K))
    (cn pn : Node K) :
  g !! child_id = Some cn → g !! parent_id = Some pn →
  parent_id ∉ parent_ids cn →
  ∃ g', connect false child_id parent_id g = Done g' ∧
    (∀ x, exists_ g' x = exists_ g x ∧
          operator_index g' x = operator_index g x) ∧
    (∃ l, get_parents id_le g' child_id = inr l ∧
          ∀ q, q ∈ l ↔ q = parent_id ∨ q ∈ parent_ids cn) ∧
    (∃ pn', g' !! parent_id = Some pn' ∧
          ∀ h, h ∈ children_virus_ptrs pn' ↔
               h = virus cn ∨ h ∈ children_virus_ptrs pn) ∧
    (∀ x, x ≠ child_id → get_parents id_le g' x = get_parents id_le g x) ∧
    (∀ x, x ≠ parent_id → get_children g' x = get_children g x).
Proof.
  intros Hcn Hpn Hout.
  assert (∃ g', connect false child_id parent_id g = Done g') as [g' Hc].
  { unfold connect. rewrite Hcn, Hpn. rewrite decide_False by done. eauto. }
  exists g'. split; [done|].
  destruct (connect_fields _ _ _ _ _ _ Hcn Hc) as [[_ ?]|[_ Hlook]]; [done|].
  unfold exists_, operator_index, get_parents, get_children.
  split; [|split; [|split; [|split]]].
  - intros x. specialize (Hlook x).
    destruct (g' !! x) as [n'|], (g !! x) as [n|]; try done.
    destruct Hlook as (-> & _). done.
  - specialize (Hlook child_id). rewrite Hcn in Hlook.
    destruct (g' !! child_id) as [n'|]; [|done].
    destruct Hlook as (_ & Hpar & _). rewrite decide_True in Hpar by done.
    eexists. split; [done|]. intros q. rewrite elem_of_ids_in_order, Hpar.
    set_solver.
  - specialize (Hlook parent_id). rewrite Hpn in Hlook.
    destruct (g' !! parent_id) as [pn'|]; [|done].
    destruct Hlook as (_ & _ & Hch). rewrite decide_True in Hch by done.
    exists pn'. split; [done|]. intros h. rewrite Hch. set_solver.
  - intros x Hx. specialize (Hlook x).
    destruct (g' !! x) as [n'|], (g !! x) as [n|]; try done.
    destruct Hlook as (_ & -> & _). by rewrite decide_False by done.
  - intros x Hx. specialize (Hlook x).
    destruct (g' !! x) as [n'|], (g !! x) as [n|]; try done.
    destruct Hlook as (_ & _ & ->). by rewrite decide_False by done.
Qed.

Lemma connect_adds_edge_witness :
  Scenario.chain !! "Y" = Some (mkNode (3%positive, "Y") {["X"]} ∅) ∧
  Scenario.chain !! "S" = Some (mkNode (1%positive, "S") ∅ {[(2%positive, "X")]}) ∧
  ("S" ∉ ({["X"]} : gset string)) ∧
  ∃ g', connect false "Y" "S" Scenario.chain = Done g' ∧
    (∀ x, exists_ g' x = exists_ Scenario.chain x ∧
          operator_index g' x = operator_index Scenario.chain x) ∧
    (∃ l, get_parents string_le g' "Y" = inr l ∧
          ∀ q, q ∈ l ↔ q = "S" ∨ q ∈ ({["X"]} : gset string)) ∧
    (∃ pn', g' !! "S" = Some pn' ∧
          ∀ h, h ∈ children_virus_ptrs pn' ↔
               h = (3%positive, "Y") ∨
               h ∈ ({[(2%positive, "X")]} : gset (handle string))) ∧
    (∀ x, x ≠ "Y" →
       get_parents string_le g' x = get_parents string_le Scenario.chain x) ∧
    (∀ x, x ≠ "S" → get_children g' x = get_children Scenario.chain x).
Proof.
  assert (Scenario.chain !! "Y" = Some (mkNode (3%positive, "Y") {["X"]} ∅))
    as H1 by (vm_compute; reflexivity).
  assert (Scenario.chain !! "S"
            = Some (mkNode (1%positive, "S") ∅ {[(2%positive, "X")]}))
    as H2 by (vm_compute; reflexivity).
  assert ("S" ∉ ({["X"]} : gset string)) as H3 by compute_done.
  split; [exact H1|]. split; [exact H2|]. split; [exact H3|].
  exact (connect_adds_edge string_le "Y" "S" Scenario.chain _ _ H1 H2 H3).
Defined.

(** X11.  [connect] checks for no cycle.  On a graph without cycles in which
    every node sits under the identifier of its object, the graph a
    [connect(child_id, parent_id)] returns with is without cycles exactly
    when [parent_id] is neither [child_id] nor one of its descendants. *)
Theorem connect_acyclic_iff `{Countable K} (flt : bool) (child_id parent_id : K)
    (g g' : gmap K (Node K)) :
  I4 g → acyclic g → connect flt child_id parent_id g = Done g' →
  (acyclic g' ↔ ¬ rtc (edge g) child_id parent_id).
Proof. apply connect_acyclic. Qed.

Lemma connect_acyclic_iff_witness :
  I4 Scenario.with_A ∧ acyclic Scenario.with_A ∧
  connect false "A" "A" Scenario.with_A
    = Done (Scenario.run (connect false "A" "A" Scenario.with_A)) ∧
  (acyclic (Scenario.run (connect false "A" "A" Scenario.with_A)) ↔
   ¬ rtc (edge Scenario.with_A) "A" "A").
Proof.
  assert (I4 Scenario.with_A) as H1 by compute_done.
  assert (acyclic Scenario.with_A) as H2
    by (apply (ranked_acyclic Scenario.rank); compute_done).
  assert (connect false "A" "A" Scenario.with_A
            = Done (Scenario.run (connect false "A" "A" Scenario.with_A))) as H3
    by (vm_compute; reflexivity).
  split; [exact H1|]. split; [exact H2|]. split; [exact H3|].
  exact (connect_acyclic_iff false "A" "A" Scenario.with_A _ H1 H2 H3).
Defined.

(** X12.  [remove] takes back a [create]: after a [create(id, parent_ids)]
    that returned, with a parent list that is not empty, [remove(id)] returns
    with the graph as it was before the [create]; unless the recording of
    the parents of [id] fails, in which case it raises with the graph as the
    [create] left it. *)
Theorem remove_undoes_create `{Countable K} (id_le : relation K)
    `{!RelDecision id_le} (stem_id : K) (a : positive) (flt : fault) (id : K)
    (parent_ids : list K) (g g' : gmap K (Node K))
    (throws : remove_point K → bool) (fuel : nat) :
  id ≠ stem_id → parent_ids ≠ [] → fresh a g →
  create a flt id parent_ids g = Done g' →
  (throws (ParentPush id) = false ∧
   remove id_le stem_id throws (S fuel) g' id = Done g) ∨
  (throws (ParentPush id) = true ∧
   remove id_le stem_id throws (S fuel) g' id = Raised bad_alloc g').
Proof.
  intros Hne Hps Hfresh Hc.
  rewrite (remove_create id_le stem_id a flt id parent_ids g g' throws fuel
             Hne Hps (fresh_unlisted a id g Hfresh) Hc).
  destruct (throws (ParentPush id)); [by right|by left].
Qed.

Lemma remove_undoes_create_witness :
  "C" ≠ "S" ∧ ["A"; "B"] ≠ [] ∧ fresh 4 Scenario.with_A_B ∧
  create 4 NoFault "C" ["A"; "B"] Scenario.with_A_B = Done Scenario.diamond ∧
  remove string_le "S" no_throw 1 Scenario.diamond "C" = Done Scenario.with_A_B ∧
  ((no_throw (ParentPush "C") = false ∧
    remove string_le "S" no_throw 1 Scenario.diamond "C"
      = Done Scenario.with_A_B) ∨
   (no_throw (ParentPush "C") = true ∧
    remove string_le "S" no_throw 1 Scenario.diamond "C"
      = Raised bad_alloc Scenario.diamond)).
Proof.
  assert ("C" ≠ "S") as H1 by discriminate.
  assert (["A"; "B"] ≠ ([] : list string)) as H2 by discriminate.
  assert (fresh 4 Scenario.with_A_B) as H3 by compute_done.
  assert (create 4 NoFault "C" ["A"; "B"] Scenario.with_A_B
            = Done Scenario.diamond) as H4 by reflexivity.
  split; [exact H1|]. split; [exact H2|]. split; [exact H3|]. split; [exact H4|].
  split; [vm_compute; reflexivity|].
  exact (remove_undoes_create string_le "S" 4 NoFault "C" ["A"; "B"]
           Scenario.with_A_B Scenario.diamond no_throw 0 H1 H2 H3 H4).
Defined.

(** X13.  An object whose callers keep to the contract of the header: no
    [connect] gives the root a parent or makes a node a parent of itself or
    of one of its ancestors, [get_id] does not throw, and no [push_back]
    fails.  Whatever else is called and whatever else fails, the graph
    satisfies I1 to I5 with child sets that mirror the parent sets, and
    [remove] of any node of the table but the root returns and leaves the
    nodes that keep a path from the root. *)
Theorem contract_keeps_well_formed `{Countable K} (id_le : relation K)
    `{!RelDecision id_le} (stem_id : K) (g : gmap K (Node K)) :
  well_used id_le stem_id g →
  consistent stem_id g ∧ acyclic g ∧
  ∀ id, is_Some (g !! id) → id ≠ stem_id →
    removes_unreachable stem_id id_le g id.
Proof.
  intros Hused.
  destruct (well_used_well_formed id_le stem_id g Hused) as [Hcons Hac].
  split; [done|]. split; [done|]. intros id [n Hn] Hne.
  by apply (remove_exact id_le stem_id g id n).
Qed.

Lemma contract_keeps_well_formed_witness :
  well_used string_le "S" Scenario.chain ∧
  consistent "S" Scenario.chain ∧ acyclic Scenario.chain ∧
  ∀ id, is_Some (Scenario.chain !! id) → id ≠ "S" →
    removes_unreachable "S" string_le Scenario.chain id.
Proof.
  assert (well_used string_le "S" Scenario.chain) as H1.
  { apply (well_used_create string_le "S" Scenario.with_X 3 NoFault "Y" ["X"]);
      [|intros i; discriminate|left; reflexivity].
    apply (well_used_create string_le "S" Scenario.root_only 2 NoFault "X" ["S"]);
      [|intros i; discriminate|left; reflexivity].
    apply well_used_new. }
  split; [exact H1|].
  exact (contract_keeps_well_formed string_le "S" Scenario.chain H1).
Defined.

(** X14.  [remove] makes nothing: whether it returns or raises, and on
    whatever graph, every node of the table afterwards was in the table
    before, with the same object, and has no child that it did not have. *)
Theorem remove_never_creates `{Countable K} (id_le : relation K)
    `{!RelDecision id_le} (stem_id : K) (throws : remove_point K → bool)
    (fuel : nat) (g g' : gmap K (Node K)) (id : K) :
  (remove id_le stem_id throws fuel g id = Done g' ∨
   ∃ e, remove id_le stem_id throws fuel g id = Raised e g') →
  ∀ x, (exists_ g' x = true → exists_ g x = true) ∧
       (∀ h, operator_index g' x = inr h → operator_index g x = inr h) ∧
       (∀ l', get_children g' x = inr l' →
          ∃ l, get_children g x = inr l ∧ l' ⊆ l).
Proof.
  intros Hr x. pose proof (remove_never_adds id_le stem_id throws fuel g id) as Hh.
  assert (∀ n', g' !! x = Some n' → ∃ n, g !! x = Some n ∧ virus n' = virus n ∧
            children_virus_ptrs n' ⊆ children_virus_ptrs n) as Hx.
  { destruct Hr as [Hr|[e Hr]]; rewrite Hr in Hh; apply Hh. }
  unfold exists_, operator_index, get_children.
  destruct (g' !! x) as [n'|]; [|done].
  destruct (Hx n' eq_refl) as (n & -> & Hv & Hsub). split; [done|]. split.
  - intros h [= <-]. by rewrite Hv.
  - intros l' [= <-]. eexists. split; [done|].
    intros k (h & -> & Hin%elem_of_handles_in_order)%list_elem_of_fmap.
    apply list_elem_of_fmap. exists h. split; [done|].
    apply elem_of_handles_in_order. by apply Hsub.
Qed.

Lemma remove_never_creates_witness :
  remove string_le "S" Scenario.Z_throws 5 (Scenario.fork 3 4) "X"
    = Raised bad_alloc Scenario.half_removed ∧
  ∀ x, (exists_ Scenario.half_removed x = true →
        exists_ (Scenario.fork 3 4) x = true) ∧
       (∀ h, operator_index Scenario.half_removed x = inr h →
             operator_index (Scenario.fork 3 4) x = inr h) ∧
       (∀ l', get_children Scenario.half_removed x = inr l' →
          ∃ l, get_children (Scenario.fork 3 4) x = inr l ∧ l' ⊆ l).
Proof.
  assert (remove string_le "S" Scenario.Z_throws 5 (Scenario.fork 3 4) "X"
            = Raised bad_alloc Scenario.half_removed) as H1
    by (vm_compute; reflexivity).
  split; [exact H1|].
  exact (remove_never_creates string_le "S" Scenario.Z_throws 5
           (Scenario.fork 3 4) Scenario.half_removed "X"
           (or_intror (ex_intro _ bad_alloc H1))).
Defined.

(** X15.  On a graph that satisfies I1 to I4 and whose child sets mirror
    its parent sets, the two views of an edge agree: [c] is among the
    children that the traversal of [p] yields exactly when [p] is among the
    parents that [get_parents(c)] returns. *)
Theorem children_and_parents_agree `{Countable K} (id_le : relation K)
    `{!RelDecision id_le} (stem_id : K) (g : gmap K (Node K)) (p c : K) :
  consistent stem_id g →
  (∃ l, get_children g p = inr l ∧ c ∈ l) ↔
  (∃ l, get_parents id_le g c = inr l ∧ p ∈ l).
Proof. apply views_agree. Qed.

Lemma children_and_parents_agree_witness :
  consistent "S" Scenario.diamond ∧
  ((∃ l, get_children Scenario.diamond "A" = inr l ∧ "C" ∈ l) ↔
   (∃ l, get_parents string_le Scenario.diamond "C" = inr l ∧ "A" ∈ l)).
Proof.
  assert (consistent "S" Scenario.diamond) as H1 by compute_done.
  split; [exact H1|].
  exact (children_and_parents_agree string_le "S" Scenario.diamond "A" "C" H1).
Defined.

(** X16.  Two [connect] calls on nodes of the table return, and give the
    same graph in either order. *)
Theorem connect_commutes `{Countable K} (c1 p1 c2 p2 : K)
    (g : gmap K (Node K)) :
  is_Some (g !! c1) → is_Some (g !! p1) →
  is_Some (g !! c2) → is_Some (g !! p2) →
  ∃ g1 g2 g',
    connect false c1 p1 g = Done g1 ∧ connect false c2 p2 g1 = Done g' ∧
    connect false c2 p2 g = Done g2 ∧ connect false c1 p1 g2 = Done g'.
Proof. apply connect_swap. Qed.

Lemma connect_commutes_witness :
  is_Some (Scenario.diamond !! "C") ∧ is_Some (Scenario.diamond !! "S") ∧
  is_Some (Scenario.diamond !! "B") ∧ is_Some (Scenario.diamond !! "A") ∧
  ∃ g1 g2 g',
    connect false "C" "S" Scenario.diamond = Done g1 ∧
    connect false "B" "A" g1 = Done g' ∧
    connect false "B" "A" Scenario.diamond = Done g2 ∧
    connect false "C" "S" g2 = Done g'.
Proof.
  assert (is_Some (Scenario.diamond !! "C")) as H1 by compute_done.
  assert (is_Some (Scenario.diamond !! "S")) as H2 by compute_done.
  assert (is_Some (Scenario.diamond !! "B")) as H3 by compute_done.
  assert (is_Some (Scenario.diamond !! "A")) as H4 by compute_done.
  split; [exact H1|]. split; [exact H2|]. split; [exact H3|]. split; [exact H4|].
  exact (connect_commutes "C" "S" "B" "A" Scenario.diamond H1 H2 H3 H4).
Defined.

(** X17.  A node may be given its parents at once or one after the other:
    [create(id, parent_ids)] followed by [connect(id, p)] gives the graph
    that [create] gives for the list [parent_ids] with [p] added. *)
Theorem parents_at_once_or_in_turn `{Countable K} (a : positive) (id p : K)
    (parent_ids : list K) (g : gmap K (Node K)) :
  g !! id = None → parent_ids ≠ [] → is_Some (g !! p) →
  (∀ q, q ∈ parent_ids → is_Some (g !! q)) →
  ∃ g1 g2,
    create a NoFault id parent_ids g = Done g1 ∧
    connect false id p g1 = Done g2 ∧
    create a NoFault id (p :: parent_ids) g = Done g2.
Proof. apply create_then_connect. Qed.

Lemma parents_at_once_or_in_turn_witness :
  Scenario.with_A_B !! "C" = None ∧ ["B"] ≠ [] ∧
  is_Some (Scenario.with_A_B !! "A") ∧
  (∀ q, q ∈ ["B"] → is_Some (Scenario.with_A_B !! q)) ∧
  ∃ g1 g2,
    create 4 NoFault "C" ["B"] Scenario.with_A_B = Done g1 ∧
    connect false "C" "A" g1 = Done g2 ∧
    create 4 NoFault "C" ["A"; "B"] Scenario.with_A_B = Done g2.
Proof.
  assert (Scenario.with_A_B !! "C" = None) as H1 by (vm_compute; reflexivity).
  assert (["B"] ≠ ([] : list string)) as H2 by discriminate.
  assert (is_Some (Scenario.with_A_B !! "A")) as H3 by compute_done.
  assert (∀ q, q ∈ ["B"] → is_Some (Scenario.with_A_B !! q)) as H4.
  { intros p Hp. apply (bool_decide_unpack _).
    revert p Hp. apply Forall_forall. repeat constructor. }
  split; [exact H1|]. split; [exact H2|]. split; [exact H3|]. split; [exact H4|].
  exact (parents_at_once_or_in_turn 4 "C" "A" ["B"] Scenario.with_A_B
           H1 H2 H3 H4).
Defined.

(** X18.  What [remove] raises on a graph that satisfies I1 to I5 and whose
    child sets mirror its parent sets, when no [catch] block fails to put a
    parent back: [TriedToRemoveStemVirus] for the root and [VirusNotFound]
    for an identifier that is not in the table, both with the graph as it
    was; and otherwise only what has failed at one of the other places where
    the call may fail, a [get_id] or the recording of the parents, and then
    the node that was to be removed is in the table as it was. *)
Theorem remove_raises_only `{Countable K} (id_le : relation K)
    `{!RelDecision id_le} (stem_id : K) (throws : remove_point K → bool)
    (fuel : nat) (g g' : gmap K (Node K)) (id : K) (e : exn) :
  (∀ v c, throws (Reinsert v c) = false) →
  consistent stem_id g → acyclic g →
  remove id_le stem_id throws fuel g id = Raised e g' →
  (e = TriedToRemoveStemVirus ∧ id = stem_id ∧ g' = g) ∨
  (e = VirusNotFound ∧ id ≠ stem_id ∧ g !! id = None ∧ g' = g) ∨
  (e = bad_alloc ∧
   (∃ pt, throws pt = true ∧ ∀ v c, pt ≠ Reinsert v c) ∧
   id ≠ stem_id ∧ is_Some (g !! id) ∧ g' !! id = g !! id).
Proof.
  intros Hre Hcons Hac Hr. destruct fuel as [|fuel]; [done|].
  destruct (decide (id = stem_id)) as [->|Hne].
  { rewrite remove_root in Hr. left. by simplify_eq. }
  destruct (g !! id) as [n|] eqn:Hid; cycle 1.
  { rewrite remove_absent in Hr by done. right. left. by simplify_eq. }
  right. right.
  destruct (remove_consistent id_le stem_id throws g id n Hre Hcons Hac Hid Hne)
    as (fuel0 & o & Hrun & Hpost).
  pose proof (remove_fuel_mono id_le stem_id throws (S fuel)
    (S fuel `max` fuel0) g id _ ltac:(lia) Hr ltac:(done)) as Hbig.
  rewrite Hrun in Hbig by lia. subst o.
  destruct Hpost as [-> [_ Hframe [pt Hpt]]].
  split; [done|]. split.
  { exists pt. split; [done|]. intros v c ->. rewrite Hre in Hpt. done. }
  split; [done|]. split; [done|].
  rewrite <- Hid. apply Hframe. set_solver.
Qed.

Lemma remove_raises_only_witness :
  (∀ v c, Scenario.Z_throws (Reinsert v c) = false) ∧
  consistent "S" Scenario.chain3 ∧ acyclic Scenario.chain3 ∧
  remove string_le "S" Scenario.Z_throws 5 Scenario.chain3 "X"
    = Raised bad_alloc Scenario.chain3 ∧
  ((bad_alloc = TriedToRemoveStemVirus ∧ "X" = "S" ∧
    Scenario.chain3 = Scenario.chain3) ∨
   (bad_alloc = VirusNotFound ∧ "X" ≠ "S" ∧ Scenario.chain3 !! "X" = None ∧
    Scenario.chain3 = Scenario.chain3) ∨
   (bad_alloc = bad_alloc ∧
    (∃ pt, Scenario.Z_throws pt = true ∧ ∀ v c, pt ≠ Reinsert v c) ∧
    "X" ≠ "S" ∧ is_Some (Scenario.chain3 !! "X") ∧
    Scenario.chain3 !! "X" = Scenario.chain3 !! "X")).
Proof.
  assert (∀ v c, Scenario.Z_throws (Reinsert v c) = false) as H0
    by (intros v c; apply bool_decide_eq_false_2; discriminate).
  assert (consistent "S" Scenario.chain3) as H1 by compute_done.
  assert (acyclic Scenario.chain3) as H2
    by (apply (ranked_acyclic Scenario.depth); compute_done).
  assert (remove string_le "S" Scenario.Z_throws 5 Scenario.chain3 "X"
            = Raised bad_alloc Scenario.chain3) as H3
    by (vm_compute; reflexivity).
  split; [exact H0|]. split; [exact H1|]. split; [exact H2|]. split; [exact H3|].
  exact (remove_raises_only string_le "S" Scenario.Z_throws 5
           Scenario.chain3 Scenario.chain3 "X" bad_alloc H0 H1 H2 H3).
Defined.
